(** * WebIFCViewer: the interactive 3D viewing core

    A shallow embedding of the JavaScript viewer (ModelRenderer,
    SimpleOrbitControls, ThreeJSViewer, SceneManager, EventManager) and the
    properties its specification states about it.

    Numbers.  JavaScript numbers that the code only copies, negates, subtracts
    or compares (vertex data, opacity) are binary64 floats ([PrimFloat.float]).
    The camera and orbit code goes through [Math.sqrt], [Math.acos],
    [Math.atan2], [Math.sin] and [Math.cos]; it is embedded over the real
    numbers (exact real arithmetic). *)

From Stdlib Require Import Floats.
From Stdlib Require Import Reals Lra Lia ZArith Sorted.
From stdpp Require Import list strings gmap.

Set Default Proof Using "Type".
#[local] Set Warnings "-inexact-float,-register-all,-clear-no-such-hyp".

(* ===================================================================== *)
(** * Part I: the program                                                  *)
(* ===================================================================== *)

(** ** Typed arrays *)

Module TypedArray.

(** A [Float32Array]: fixed length, reads out of range give [undefined]
    (which a typed array stores as NaN), writes out of range are dropped. *)
Abbreviation Float32Array := (list float).

Definition get (a : Float32Array) (i : nat) : float := default nan (a !! i).
Definition set (a : Float32Array) (i : nat) (x : float) : Float32Array := <[i:=x]> a.

(** [new Float32Array(n)]: [n] zeros. *)
Definition alloc (n : nat) : Float32Array := replicate n 0%float.

End TypedArray.

(** ** ModelRenderer.convertIFCToThreeJS *)

Module CoordinateConverter.
Import TypedArray.

(** The body of [for (let i = 0; i < vertices.length; i += 3)], with the loop
    counter [i] and the array being filled threaded through; [fuel] bounds
    the number of iterations. *)
Fixpoint convertLoop (fuel i : nat) (vertices converted : Float32Array) : Float32Array :=
  match fuel with
  | 0 => converted
  | S fuel' =>
      if decide (i < length vertices) then
        let c1 := set converted i (get vertices i) in
        let c2 := set c1 (i + 1) (get vertices (i + 2)) in
        let c3 := set c2 (i + 2) (- get vertices (i + 1))%float in
        convertLoop fuel' (i + 3) vertices c3
      else converted
  end.

(** One iteration per started triple, so [length vertices] iterations are
    always enough. *)
Definition convertIFCToThreeJS (vertices : Float32Array) : Float32Array :=
  convertLoop (length vertices) 0 vertices (alloc (length vertices)).

End CoordinateConverter.

(** ** The scene graph

    JavaScript objects are shared by reference: a mesh sits in the scene, in
    [ModelRenderer.ifcObjects] and in the lists the selection code collects, and
    a change through one reference is seen through all.  The objects therefore
    live in a store ([heap]) and everything else holds references into it. *)

Module Scene.
Local Open Scope string_scope.

(** A [THREE.Color], kept as the argument it was built from: a hex number
    ([new THREE.Color(0x4ecdc4)]) or a CSS style string
    ([new THREE.Color('#RRGGBB')]). *)
Inductive Color :=
| ColorHex (hex : N)
| ColorStyle (style : string).

#[global] Instance Color_eq_dec : EqDecision Color.
Proof. solve_decision. Defined.

Inductive MaterialKind := MeshBasicMaterial | LineBasicMaterial.

(** A material; [transparent] defaults to [false], [opacity] and [linewidth]
    to 1.  [clone()] of a material is the same value. *)
Record Material := mkMaterial {
  kind : MaterialKind;
  color : Color;
  transparent : bool;
  opacity : float;
  linewidth : float
}.

Definition withColor (m : Material) (c : Color) : Material :=
  mkMaterial (kind m) c (transparent m) (opacity m) (linewidth m).

Inductive Geometry :=
| BufferGeometry (position : list float) (index : list N)
| EdgesGeometry (source : Geometry).

Record UserData := mkUserData {
  globalId : option string;
  ifcType : option string;
  parentMesh : option nat;
  isHighlighted : bool;
  originalMaterial : option Material
}.

(** A [THREE.Mesh] ([isMesh]) or [THREE.LineSegments]: an object that is drawn.
    The two [...Disposed] flags record [geometry.dispose()] and
    [material.dispose()]. *)
Record Object3D := mkObject3D {
  isMesh : bool;
  userData : UserData;
  geometry : Geometry;
  material : Material;
  scale : float;
  geometryDisposed : bool;
  materialDisposed : bool
}.

Definition withUserData (o : Object3D) (ud : UserData) : Object3D :=
  mkObject3D (isMesh o) ud (geometry o) (material o) (scale o)
             (geometryDisposed o) (materialDisposed o).
Definition withMaterial (o : Object3D) (m : Material) : Object3D :=
  mkObject3D (isMesh o) (userData o) (geometry o) m (scale o)
             (geometryDisposed o) (materialDisposed o).

(** [object.geometry.dispose(); object.material.dispose()] *)
Definition dispose (o : Object3D) : Object3D :=
  mkObject3D (isMesh o) (userData o) (geometry o) (material o) (scale o) true true.

(** A node of the scene graph: a drawn object (by reference) or a group
    ([THREE.Group]: no material, an empty or untagged [userData]), each with its
    children. *)
Inductive Node :=
| Drawable (ref : nat) (children : list Node)
| Group (children : list Node).

Definition childrenOf (n : Node) : list Node :=
  match n with
  | Drawable _ cs => cs
  | Group cs => cs
  end.

(** The [THREE.Scene]: the object store, the scene's own children, and the
    next free reference. *)
Record t := mkScene {
  heap : gmap nat Object3D;
  children : list Node;
  nextId : nat
}.

Definition empty : t := mkScene ∅ [] 0.

(** [new THREE.Mesh(...)] / [new THREE.LineSegments(...)]: a fresh object. *)
Definition alloc (sc : t) (o : Object3D) : t * nat :=
  (mkScene (<[nextId sc := o]> (heap sc)) (children sc) (S (nextId sc)), nextId sc).

(** [scene.add(object)] *)
Definition add (sc : t) (ref : nat) : t :=
  mkScene (heap sc) (children sc ++ [Drawable ref []]) (nextId sc).

Definition isRef (ref : nat) (n : Node) : bool :=
  match n with
  | Drawable r _ => bool_decide (r = ref)
  | Group _ => false
  end.

(** [children.splice(children.indexOf(object), 1)] when the object is there. *)
Fixpoint removeFirst (ref : nat) (cs : list Node) : list Node :=
  match cs with
  | [] => []
  | n :: cs' => if isRef ref n then cs' else n :: removeFirst ref cs'
  end.

(** [scene.remove(object)] *)
Definition remove (sc : t) (ref : nat) : t :=
  mkScene (heap sc) (removeFirst ref (children sc)) (nextId sc).

(** The references of the drawn objects in a list of nodes, and of the scene's
    direct children. *)
Definition nodeRefs (cs : list Node) : list nat :=
  omap (fun n => match n with Drawable r _ => Some r | Group _ => None end) cs.
Definition childRefs (sc : t) : list nat := nodeRefs (children sc).

End Scene.

(** ** JavaScript strings *)

Module JsString.
Local Open Scope string_scope.

(** A string is truthy unless it is empty. *)
Definition truthy (s : string) : bool :=
  match s with
  | EmptyString => false
  | String _ _ => true
  end.

(** [value + '...']: [undefined] prints as "undefined". *)
Definition toString (o : option string) : string := default "undefined" o.

(** [haystack.includes(needle)] *)
Fixpoint includes (needle haystack : string) : bool :=
  String.prefix needle haystack ||
  match haystack with
  | EmptyString => false
  | String _ rest => includes needle rest
  end.

End JsString.

(** ** ModelRenderer *)

Module ModelRenderer.
Import Scene.
Local Open Scope string_scope.

(** A geometry descriptor as the backend sends it; an absent field is
    [None].  [vertices] and [faces] hold the numbers the typed-array
    constructors store ([new Float32Array(undefined)] is the empty array). *)
Record GeometryData := mkGeometryData {
  globalId : option string;
  ifcType : option string;
  vertices : option (list float);
  faces : option (list N);
  colorHEX : option string;
  transparency : option float
}.

Record t := mkRenderer {
  scene : option Scene.t;
  ifcObjects : list nat;
  wireframeObjects : list nat;
  showWireframe : bool
}.

(** [new ModelRenderer(scene)] *)
Definition create (sc : Scene.t) : t := mkRenderer (Some sc) [] [] false.

(** The table of [getColorByIfcType]. *)
Definition colorMap : gmap string N :=
  list_to_map
    [ ("IfcWall", 0x4ecdc4%N); ("IfcWallStandardCase", 0x4ecdc4%N);
      ("IfcCurtainWall", 0x45b7d1%N);
      ("IfcWindow", 0x54a0ff%N); ("IfcWindowStyle", 0x54a0ff%N);
      ("IfcDoor", 0xfeca57%N); ("IfcDoorStyle", 0xfeca57%N);
      ("IfcRoof", 0xff6b6b%N); ("IfcSlab", 0xff6b6b%N); ("IfcRoofType", 0xff6b6b%N);
      ("IfcFloor", 0x96ceb4%N); ("IfcFloorType", 0x96ceb4%N);
      ("IfcColumn", 0xff9f43%N); ("IfcColumnType", 0xff9f43%N);
      ("IfcBeam", 0x5f27cd%N); ("IfcBeamType", 0x5f27cd%N);
      ("IfcStair", 0x00d2d3%N); ("IfcRailing", 0xff9ff3%N);
      ("IfcSpace", 0xddd6fe%N); ("IfcZone", 0xddd6fe%N);
      ("default", 0xee5a24%N) ].

Definition defaultColor : N := 0xee5a24%N.

(** [colorMap[ifcType] || colorMap['default']]; every entry is non-zero. *)
Definition getColorByIfcType (ifcType : string) : Color :=
  ColorHex (match colorMap !! ifcType with
            | Some hex => if decide (hex = 0%N) then defaultColor else hex
            | None => defaultColor
            end).

(** [createWireframe(mesh)].  The body runs inside [try { } catch { }]: with
    no scene, or no such mesh, it throws before it changes anything and the
    error is swallowed. *)
Definition createWireframe (st : t) (mesh : nat) : t :=
  match scene st with
  | None => st
  | Some sc =>
      match heap sc !! mesh with
      | None => st
      | Some m =>
          let edges := EdgesGeometry (geometry m) in
          let wireframeMaterial :=
            mkMaterial LineBasicMaterial (ColorHex 0x000000%N) true 0.8%float 1%float in
          let wireframe :=
            mkObject3D false
              (mkUserData
                 (Some (JsString.toString (Scene.globalId (userData m)) ++ "_wireframe"))
                 (Some (JsString.toString (Scene.ifcType (userData m)) ++ "_wireframe"))
                 (Some mesh) false None)
              edges wireframeMaterial (scale m) false false in
          let '(sc1, ref) := alloc sc wireframe in
          mkRenderer (Some (add sc1 ref)) (ifcObjects st)
                     (wireframeObjects st ++ [ref]) (showWireframe st)
      end
  end.

(** [addIfcGeometry(geometryData)]: the new state and the mesh returned
    ([None] for [null]).  The whole body is in [try { } catch { return null }];
    the one statement that can throw on a descriptor is
    [geometryData.ifcType.includes('Window')] with the element type absent, and
    it runs before anything is added. *)
Definition addIfcGeometry (st : t) (geometryData : GeometryData) : t * option nat :=
  match scene st with
  | None => (st, None)
  | Some sc =>
      let vertices := default [] (vertices geometryData) in
      let indices := default [] (faces geometryData) in
      let convertedVertices := CoordinateConverter.convertIFCToThreeJS vertices in
      let geometry := BufferGeometry convertedVertices indices in
      (* the else branch: colours by element type *)
      let byType : option Material :=
        match ifcType geometryData with
        | None => None
        | Some ty =>
            let color := getColorByIfcType ty in
            if JsString.includes "Window" ty
            then Some (mkMaterial MeshBasicMaterial (ColorHex 0x54a000%N) true
                                  0.7%float 1%float)
            else Some (mkMaterial MeshBasicMaterial color false 1%float 1%float)
        end in
      (* the then branch: the colour the backend sent *)
      let byColor (hex : string) : option Material :=
        let color := ColorStyle ("#" ++ hex) in
        let material := mkMaterial MeshBasicMaterial color false 1%float 1%float in
        match transparency geometryData with
        | Some transparency =>
            let opacity := (1 - transparency)%float in
            if (opacity <? 1)%float
            then Some (mkMaterial MeshBasicMaterial color true opacity 1%float)
            else Some material
        | None => Some material
        end in
      let material : option Material :=
        match colorHEX geometryData with
        | Some hex => if JsString.truthy hex then byColor hex else byType
        | None => byType
        end in
      match material with
      | None => (st, None)
      | Some material =>
          let mesh :=
            mkObject3D true
              (mkUserData (globalId geometryData) (ifcType geometryData) None false None)
              geometry material 0.001%float false false in
          let '(sc1, ref) := alloc sc mesh in
          let st1 := mkRenderer (Some (add sc1 ref)) (ifcObjects st ++ [ref])
                                (wireframeObjects st) (showWireframe st) in
          let st2 := if showWireframe st1 then createWireframe st1 ref else st1 in
          (st2, Some ref)
      end
  end.

(** [addIfcGeometries(geometries)] *)
Definition addIfcGeometries (st : t) (geometries : list GeometryData) : t :=
  match scene st with
  | None => st
  | Some _ => fold_left (fun st geometryData => (addIfcGeometry st geometryData).1)
                        geometries st
  end.

(** [clearWireframes()]; [None] is the uncaught [TypeError] of
    [this.scene.remove] on a missing scene. *)
Definition clearWireframes (st : t) : option t :=
  match wireframeObjects st, scene st with
  | [], _ => Some (mkRenderer (scene st) (ifcObjects st) [] (showWireframe st))
  | _ :: _, None => None
  | ws, Some sc =>
      let sc' :=
        fold_left
          (fun sc wireframe =>
             let sc1 := remove sc wireframe in
             mkScene (alter dispose wireframe (heap sc1)) (children sc1) (nextId sc1))
          ws sc in
      Some (mkRenderer (Some sc') (ifcObjects st) [] (showWireframe st))
  end.

(** [toggleWireframe(show)] *)
Definition toggleWireframe (st : t) (show : bool) : option t :=
  let st1 := mkRenderer (scene st) (ifcObjects st) (wireframeObjects st) show in
  if show then Some (fold_left createWireframe (ifcObjects st1) st1)
  else clearWireframes st1.

End ModelRenderer.

(** ** Observations on the renderer used to state its properties *)

Module RendererSpec.
Import Scene ModelRenderer.
Local Open Scope string_scope.

(** The object a reference denotes in the renderer's scene. *)
Definition objectAt (st : t) (ref : nat) : option Object3D :=
  sc ← scene st; heap sc !! ref.

(** [geometryData.colorHEX] is a non-empty string. *)
Definition hasColor (d : GeometryData) : bool :=
  match colorHEX d with
  | Some hex => JsString.truthy hex
  | None => false
  end.

(** The descriptors [addIfcGeometry] does not throw on: those with a colour or
    an element type. *)
Definition ingestible (d : GeometryData) : bool :=
  hasColor d || bool_decide (is_Some (ifcType d)).

(** The material [addIfcGeometry] builds for a descriptor: its inline
    [if (geometryData.colorHEX) { ... } else { ... }], under a name.  [None] is
    the [TypeError] of the else branch on an absent element type. *)
Definition resolveMaterial (geometryData : GeometryData) : option Material :=
  let byType : option Material :=
    match ifcType geometryData with
    | None => None
    | Some ty =>
        let color := getColorByIfcType ty in
        if JsString.includes "Window" ty
        then Some (mkMaterial MeshBasicMaterial (ColorHex 0x54a000%N) true
                              0.7%float 1%float)
        else Some (mkMaterial MeshBasicMaterial color false 1%float 1%float)
    end in
  let byColor (hex : string) : option Material :=
    let color := ColorStyle ("#" ++ hex) in
    let material := mkMaterial MeshBasicMaterial color false 1%float 1%float in
    match transparency geometryData with
    | Some transparency =>
        let opacity := (1 - transparency)%float in
        if (opacity <? 1)%float
        then Some (mkMaterial MeshBasicMaterial color true opacity 1%float)
        else Some material
    | None => Some material
    end in
  match colorHEX geometryData with
  | Some hex => if JsString.truthy hex then byColor hex else byType
  | None => byType
  end.

(** The mesh [addIfcGeometry] builds for a descriptor and its material. *)
Definition meshOf (geometryData : GeometryData) (material : Material) : Object3D :=
  mkObject3D true
    (mkUserData (globalId geometryData) (ifcType geometryData) None false None)
    (BufferGeometry
       (CoordinateConverter.convertIFCToThreeJS (default [] (vertices geometryData)))
       (default [] (faces geometryData)))
    material 0.001%float false false.

(** A renderer on an empty scene. *)
Definition emptyRenderer : t := create Scene.empty.

(** A wall with no vertices and no faces. *)
Definition emptyWall : GeometryData :=
  mkGeometryData (Some "E1") (Some "IfcWall") (Some []) (Some []) None None.

(** A red triangle, 25% transparent. *)
Definition redTriangle : GeometryData :=
  mkGeometryData (Some "E2") (Some "IfcSlab")
                 (Some [0; 0; 0; 1; 0; 0; 0; 1; 0]%float) (Some [0; 1; 2]%N)
                 (Some "FF0000") (Some 0.25%float).

(** A grey slab with the given transparency. *)
Definition coloured (transparency : float) : GeometryData :=
  mkGeometryData (Some "E5") (Some "IfcSlab")
                 (Some [0; 0; 0; 1; 0; 0; 0; 1; 0]%float) (Some [0; 1; 2]%N)
                 (Some "808080") (Some transparency).

(** A window without a colour of its own. *)
Definition plainWindow : GeometryData :=
  mkGeometryData (Some "E3") (Some "IfcWindow")
                 (Some [0; 0; 0; 1; 0; 0; 0; 1; 0]%float) (Some [0; 1; 2]%N)
                 None None.

(** A descriptor with neither colour nor element type. *)
Definition untyped : GeometryData :=
  mkGeometryData (Some "E4") None (Some [0; 0; 0]%float) (Some [0]%N) None None.

(** Every reference of a list denotes an object of the scene. *)
Definition allValid (sc : Scene.t) (refs : list nat) : Prop :=
  Forall (fun r => is_Some (heap sc !! r)) refs.

End RendererSpec.

(** ** Decidable comparisons on real numbers

    The comparisons the JavaScript code branches on ([<], [<=], [===]). *)

#[global] Instance Rlt_decision : RelDecision Rlt := Rlt_dec.
#[global] Instance Rle_decision : RelDecision Rle := Rle_dec.
#[global] Instance Req_decision : EqDecision R := Req_dec_T.

(** ** EventManager: picking and highlighting *)

Module EventManager.
Import Scene.

(** One hit of [raycaster.intersectObjects]: the object hit, given by its
    place in the scene graph (the child indices from the object up to the scene,
    innermost first, so that the tail is the place of [object.parent]), and its
    distance along the ray. *)
Record Intersection := mkIntersection {
  object : list nat;
  distance : R
}.

(** The node at a place given outermost index first; the scene itself is at [[]]
    and is no node. *)
Fixpoint nodeAt (cs : list Node) (path : list nat) : option Node :=
  match path with
  | [] => None
  | i :: rest =>
      match cs !! i with
      | None => None
      | Some n =>
          match rest with
          | [] => Some n
          | _ :: _ => nodeAt (childrenOf n) rest
          end
      end
  end.

(** The drawn object at a place, if the node there is one. *)
Definition objectAt (sc : Scene.t) (place : list nat) : option Object3D :=
  match nodeAt (children sc) (reverse place) with
  | Some (Drawable ref _) => heap sc !! ref
  | _ => None
  end.

(** [findGlobalId(object)]: the first truthy [userData.globalId] from the object
    up through its parents; the scene's parent is [null]. *)
Fixpoint findGlobalId (sc : Scene.t) (place : list nat) : option string :=
  let here :=
    match objectAt sc place with
    | Some o =>
        match globalId (userData o) with
        | Some g => if JsString.truthy g then Some g else None
        | None => None
        end
    | None => None
    end in
  match here with
  | Some g => Some g
  | None =>
      match place with
      | [] => None
      | _ :: parent => findGlobalId sc parent
      end
  end.

(** [a.object.material && a.object.material.transparent] *)
Definition isTransparent (sc : Scene.t) (a : Intersection) : bool :=
  match objectAt sc (object a) with
  | Some o => transparent (material o)
  | None => false
  end.

(** The comparator given to [intersects.sort]. *)
Definition compareIntersections (sc : Scene.t) (a b : Intersection) : R :=
  let aTransparent := isTransparent sc a in
  let bTransparent := isTransparent sc b in
  if aTransparent && negb bTransparent then 1%R
  else if negb aTransparent && bTransparent then (-1)%R
  else (distance a - distance b)%R.

(** [Array.prototype.sort(compare)]: a stable sort; an element goes before
    another when [compare] is not positive. *)
Fixpoint insertSorted {A} (compare : A -> A -> R) (x : A) (l : list A) : list A :=
  match l with
  | [] => [x]
  | y :: l' =>
      if decide (compare x y <= 0)%R then x :: y :: l'
      else y :: insertSorted compare x l'
  end.

Definition sort {A} (compare : A -> A -> R) (l : list A) : list A :=
  foldr (insertSorted compare) [] l.

(** [for (const intersect of intersects) { if (test) { selected = ...; break } }] *)
Fixpoint firstGlobalId (sc : Scene.t) (opaqueOnly : bool) (intersects : list Intersection)
  : option string :=
  match intersects with
  | [] => None
  | intersect :: rest =>
      match findGlobalId sc (object intersect) with
      | Some globalId =>
          if negb opaqueOnly || negb (isTransparent sc intersect) then Some globalId
          else firstGlobalId sc opaqueOnly rest
      | None => firstGlobalId sc opaqueOnly rest
      end
  end.

(** The colour of a highlighted object. *)
Definition highlightColor : Color := ColorHex 0x00ff88%N.

(** [highlightSingleObject(targetObject)]; [isWireframeActive] is
    [this.viewer.modelRenderer.showWireframe]. *)
Definition highlightSingleObject (isWireframeActive : bool) (targetObject : Object3D)
  : Object3D :=
  let ud := userData targetObject in
  let ud1 := mkUserData (globalId ud) (ifcType ud) (parentMesh ud) true
                        (originalMaterial ud) in
  let ud2 :=
    match originalMaterial ud1 with
    | Some _ => ud1
    | None => mkUserData (globalId ud1) (ifcType ud1) (parentMesh ud1) (isHighlighted ud1)
                         (Some (material targetObject))
    end in
  let o := withUserData targetObject ud2 in
  if isWireframeActive then
    let highlightMaterial := withColor (material o) highlightColor in
    withMaterial o highlightMaterial
  else
    let highlightMaterial := withColor (material o) highlightColor in
    withMaterial o highlightMaterial.

(** [findAllObjectsByGlobalId(globalId)]: the inner [findInChildren], started at
    each child of the scene (the scene itself carries no id). *)
Fixpoint findInChildren (h : gmap nat Object3D) (globalId : string) (object : Node)
  : list nat :=
  match object with
  | Drawable ref cs =>
      (match h !! ref with
       | Some o => if decide (Scene.globalId (userData o) = Some globalId) then [ref] else []
       | None => []
       end) ++ flat_map (findInChildren h globalId) cs
  | Group cs => flat_map (findInChildren h globalId) cs
  end.

Definition findAllObjectsByGlobalId (sc : Scene.t) (globalId : string) : list nat :=
  flat_map (findInChildren (heap sc) globalId) (children sc).

(** The body of [clearInChildren] for one object. *)
Definition clearObject (o : Object3D) : Object3D :=
  if isHighlighted (userData o) then
    let ud := userData o in
    let o1 := withUserData o (mkUserData (globalId ud) (ifcType ud) (parentMesh ud) false
                                         (originalMaterial ud)) in
    match originalMaterial ud with
    | Some m => withMaterial o1 m
    | None => o1
    end
  else o.

Fixpoint clearInChildren (object : Node) (h : gmap nat Object3D) : gmap nat Object3D :=
  match object with
  | Drawable ref cs => fold_left (fun h c => clearInChildren c h) cs (alter clearObject ref h)
  | Group cs => fold_left (fun h c => clearInChildren c h) cs h
  end.

(** [clearHighlight()]; [None] stands for a missing scene. *)
Definition clearHighlight (scene : option Scene.t) : option Scene.t :=
  match scene with
  | None => None
  | Some sc =>
      Some (mkScene (fold_left (fun h c => clearInChildren c h) (children sc) (heap sc))
                    (children sc) (nextId sc))
  end.

(** [highlightObject(globalId)] *)
Definition highlightObject (isWireframeActive : bool) (scene : option Scene.t)
           (globalId : string) : option Scene.t :=
  match clearHighlight scene with
  | None => None
  | Some sc =>
      let targetObjects := findAllObjectsByGlobalId sc globalId in
      Some (mkScene
              (fold_left (fun h targetObject =>
                            alter (highlightSingleObject isWireframeActive) targetObject h)
                         targetObjects (heap sc))
              (children sc) (nextId sc))
  end.

(** The children of the scene that carry a truthy [globalId]: what
    [handleModelClick] hands to the raycaster. *)
Definition ifcObjectsOf (sc : Scene.t) : list Node :=
  List.filter
    (fun child =>
       match child with
       | Drawable ref _ =>
           match heap sc !! ref with
           | Some o =>
               match globalId (userData o) with
               | Some g => JsString.truthy g
               | None => false
               end
           | None => false
           end
       | Group _ => false
       end)
    (children sc).

(** [handleModelClick(event)]: the scene afterwards and the id handed to
    [selectObjectByGuid], if any.  [intersectObjects] is the raycaster set up from
    the event position and the camera ([raycaster.intersectObjects(_, true)]). *)
Definition handleModelClick (isWireframeActive : bool) (scene : option Scene.t)
           (intersectObjects : list Node -> list Intersection)
  : option Scene.t * option string :=
  match scene with
  | None => (scene, None)
  | Some sc =>
      let ifcObjects := ifcObjectsOf sc in
      let intersects := sort (compareIntersections sc) (intersectObjects ifcObjects) in
      match intersects with
      | [] => (scene, None)
      | _ :: _ =>
          let selectedGlobalId :=
            match firstGlobalId sc true intersects with
            | Some g => Some g
            | None => firstGlobalId sc false intersects
            end in
          match selectedGlobalId with
          | Some g => (highlightObject isWireframeActive scene g, Some g)
          | None => (scene, None)
          end
      end
  end.

End EventManager.

(** ** Observations on selection used to state its properties *)

Module SelectionSpec.
Import Scene EventManager.
Local Open Scope string_scope.

(** Every reference below a node, in the order the traversals visit them. *)
Fixpoint refsIn (n : Node) : list nat :=
  match n with
  | Drawable ref cs => ref :: flat_map refsIn cs
  | Group cs => flat_map refsIn cs
  end.

(** The references of all Drawables in the scene. *)
Definition sceneRefs (sc : Scene.t) : list nat := flat_map refsIn (children sc).

(** An object that is not highlighted holds no snapshot other than its own
    material.  Objects are created without a snapshot, and highlighting and
    clearing keep this: [clearHighlight] makes the snapshot the live material
    (one shared object in the source, so later changes to it in place reach
    both). *)
Definition snapshotConsistent (o : Object3D) : Prop :=
  isHighlighted (userData o) = false ->
  forall m, originalMaterial (userData o) = Some m -> m = material o.

(** The order the pick sorts by: opaque before translucent, then nearer
    first. *)
Definition pickOrder (sc : Scene.t) (a b : Intersection) : Prop :=
  (isTransparent sc a = false /\ isTransparent sc b = true) \/
  (isTransparent sc a = isTransparent sc b /\ (distance a <= distance b)%R).

Definition plainMaterial (c : N) : Material :=
  mkMaterial MeshBasicMaterial (ColorHex c) false 1%float 1%float.

Definition taggedMesh (g : string) (c : N) : Object3D :=
  mkObject3D true (mkUserData (Some g) (Some "IfcWall") None false None)
             (BufferGeometry [] []) (plainMaterial c) 0.001%float false false.

(** A scene with two Drawables tagged "E1" (one nested in a group) and one
    tagged "E2". *)
Definition sampleScene : Scene.t :=
  mkScene (<[0 := taggedMesh "E1" 0x4ecdc4%N]>
           (<[1 := taggedMesh "E2" 0xfeca57%N]>
            (<[2 := taggedMesh "E1" 0xff6b6b%N]> ∅)))
          [Drawable 0 []; Drawable 1 []; Group [Drawable 2 []]]
          3.

(** The object at a place carries the non-empty id [g] in its own
    [userData]. *)
Definition carriesId (sc : Scene.t) (place : list nat) (g : string) : Prop :=
  exists o, objectAt sc place = Some o /\ globalId (userData o) = Some g /\ g <> EmptyString.

(** A translucent mesh tagged [g]. *)
Definition glassMesh (g : string) : Object3D :=
  mkObject3D true (mkUserData (Some g) (Some "IfcWindow") None false None)
             (BufferGeometry [] [])
             (mkMaterial MeshBasicMaterial (ColorHex 0x54a000%N) true 0.7%float 1%float)
             0.001%float false false.

(** An untagged mesh. *)
Definition partMesh : Object3D :=
  mkObject3D true (mkUserData None None None false None)
             (BufferGeometry [] []) (plainMaterial 0x4ecdc4%N) 0.001%float false false.

(** A scene with a mesh tagged "E1" that owns an untagged part, and a
    translucent mesh tagged "E2". *)
Definition nestedScene : Scene.t :=
  mkScene (<[0 := taggedMesh "E1" 0x4ecdc4%N]>
           (<[1 := glassMesh "E2"]>
            (<[2 := partMesh]> ∅)))
          [Drawable 0 [Drawable 2 []]; Drawable 1 []]
          3.

(** A ray that hits the translucent mesh 1 unit away and, behind it, the
    untagged part of "E1" 5 units away. *)
Definition throughGlass (objects : list Node) : list Intersection :=
  [mkIntersection [1] 1; mkIntersection [0; 0] 5].

End SelectionSpec.

(** ** The parts of three.js the viewer calls: Vector3, Spherical, Camera *)

Module Three.
Local Open Scope R_scope.

Record Vector3 := vec3 { vx : R; vy : R; vz : R }.

Definition add (a b : Vector3) : Vector3 := vec3 (vx a + vx b) (vy a + vy b) (vz a + vz b).
Definition sub (a b : Vector3) : Vector3 := vec3 (vx a - vx b) (vy a - vy b) (vz a - vz b).
Definition multiplyScalar (a : Vector3) (s : R) : Vector3 := vec3 (vx a * s) (vy a * s) (vz a * s).
Definition divideScalar (a : Vector3) (s : R) : Vector3 := multiplyScalar a (1 / s).
Definition negate (a : Vector3) : Vector3 := vec3 (- vx a) (- vy a) (- vz a).
Definition addScaledVector (a v : Vector3) (s : R) : Vector3 := add a (multiplyScalar v s).
Definition lengthSq (a : Vector3) : R := vx a * vx a + vy a * vy a + vz a * vz a.
Definition length (a : Vector3) : R := sqrt (lengthSq a).
Definition distanceTo (a b : Vector3) : R := length (sub a b).
Definition cross (a b : Vector3) : Vector3 :=
  vec3 (vy a * vz b - vz a * vy b) (vz a * vx b - vx a * vz b) (vx a * vy b - vy a * vx b).

(** [length() || 1]: a zero length is replaced by 1. *)
Definition normalize (a : Vector3) : Vector3 :=
  divideScalar a (if decide (length a = 0) then 1 else length a).

(** [MathUtils.clamp(value, min, max) = Math.max(min, Math.min(max, value))]. *)
Definition clamp (value lo hi : R) : R := Rmax lo (Rmin hi value).

(** [Math.atan2(y, x)] (signed zeros are not distinguished over the reals). *)
Definition atan2 (y x : R) : R :=
  if decide (0 < x) then atan (y / x)
  else if decide (x < 0) then
    (if decide (0 <= y) then atan (y / x) + PI else atan (y / x) - PI)
  else if decide (0 < y) then PI / 2
  else if decide (y < 0) then - (PI / 2)
  else 0.

Record Spherical := mkSpherical { radius : R; phi : R; theta : R }.

(** [Spherical.setFromVector3] / [setFromCartesianCoords]. *)
Definition setFromVector3 (v : Vector3) : Spherical :=
  let r := sqrt (vx v * vx v + vy v * vy v + vz v * vz v) in
  if decide (r = 0) then mkSpherical r 0 0
  else mkSpherical r (acos (clamp (vy v / r) (-1) 1)) (atan2 (vx v) (vz v)).

(** [Vector3.setFromSpherical] / [setFromSphericalCoords]. *)
Definition setFromSpherical (s : Spherical) : Vector3 :=
  let sinPhiRadius := sin (phi s) * radius s in
  vec3 (sinPhiRadius * sin (theta s)) (cos (phi s) * radius s) (sinPhiRadius * cos (theta s)).

(** The camera fields the viewer reads and writes.  [worldDirection] is what
    [getWorldDirection] returns: the orientation last fixed by [lookAt]. *)
Record Camera := mkCamera {
  isOrthographicCamera : bool;
  position : Vector3;
  up : Vector3;
  left : R; right : R; top : R; bottom : R;
  worldDirection : Vector3
}.

Definition withPosition (c : Camera) (p : Vector3) : Camera :=
  mkCamera (isOrthographicCamera c) p (up c) (left c) (right c) (top c) (bottom c)
           (worldDirection c).
Definition withFrustum (c : Camera) (l r t b : R) : Camera :=
  mkCamera (isOrthographicCamera c) (position c) (up c) l r t b (worldDirection c).
Definition withWorldDirection (c : Camera) (d : Vector3) : Camera :=
  mkCamera (isOrthographicCamera c) (position c) (up c) (left c) (right c) (top c)
           (bottom c) d.

(** The z axis [Matrix4.lookAt(eye, target, up)] computes, degenerate cases
    included; a camera looks down its negative z axis. *)
Definition lookAtZ (eye target upv : Vector3) : Vector3 :=
  let z0 := sub eye target in
  let z1 := if decide (lengthSq z0 = 0) then vec3 (vx z0) (vy z0) 1 else z0 in
  let z2 := normalize z1 in
  if decide (lengthSq (cross upv z2) = 0) then
    normalize (if decide (Rabs (vz upv) = 1)
               then vec3 (vx z2 + 0.0001) (vy z2) (vz z2)
               else vec3 (vx z2) (vy z2) (vz z2 + 0.0001))
  else z2.

Definition lookAt (c : Camera) (target : Vector3) : Camera :=
  withWorldDirection c (negate (lookAtZ (position c) target (up c))).

End Three.

(** ** SimpleOrbitControls *)

Module SimpleOrbitControls.
Import Three.
Local Open Scope R_scope.

Record MouseEvent := mkMouseEvent { button : Z; clientX : R; clientY : R }.

(** [this.state] *)
Record State := mkState {
  leftButton : bool; rightButton : bool; middleButton : bool; panMode : bool;
  mouseX : R; mouseY : R; mouseXPrev : R; mouseYPrev : R
}.

(** The controls object.  Its [camera] is the viewer's camera (one shared
    object), so the methods below take and return the camera next to the
    controls; [clientWidth]/[clientHeight] are those of [domElement]. *)
Record t := mkControls {
  target : Vector3;
  state : State;
  enableZoom : bool; enablePan : bool; enableRotate : bool; autoRotate : bool;
  autoRotateSpeed : R; minDistance : R; maxDistance : R;
  clientWidth : R; clientHeight : R
}.

Definition withTarget (c : t) (tg : Vector3) : t :=
  mkControls tg (state c) (enableZoom c) (enablePan c) (enableRotate c) (autoRotate c)
             (autoRotateSpeed c) (minDistance c) (maxDistance c)
             (clientWidth c) (clientHeight c).
Definition withState (c : t) (s : State) : t :=
  mkControls (target c) s (enableZoom c) (enablePan c) (enableRotate c) (autoRotate c)
             (autoRotateSpeed c) (minDistance c) (maxDistance c)
             (clientWidth c) (clientHeight c).

Definition minPhi : R := 0.01.
Definition maxPhi : R := PI - 0.01.

Definition onMouseDown (c : t) (event : MouseEvent) : t :=
  let s := state c in
  let l := if decide (button event = 0%Z) then true else leftButton s in
  let r := if decide (button event = 2%Z) then true else rightButton s in
  let m := if decide (button event = 1%Z) then true else middleButton s in
  let pm := if decide (button event = 2%Z) then true else panMode s in
  withState c (mkState l r m pm (clientX event) (clientY event)
                       (clientX event) (clientY event)).

Definition onMouseUp (c : t) : t :=
  let s := state c in
  withState c (mkState false false false false
                       (mouseX s) (mouseY s) (mouseXPrev s) (mouseYPrev s)).

(** [rotate(deltaX, deltaY)]; [modelCenter] is [this.viewer.getModelCenter()]. *)
Definition rotate (modelCenter : Vector3) (cam : Camera) (c : t) (deltaX deltaY : R)
  : Camera * t :=
  let spherical := setFromVector3 (sub (position cam) modelCenter) in
  let theta1 := theta spherical - deltaX * 0.01 in
  let phi1 := phi spherical - deltaY * 0.01 in
  let phi2 := if decide (phi1 < minPhi) then minPhi
              else if decide (maxPhi < phi1) then maxPhi
              else phi1 in
  let newPosition :=
    add (setFromSpherical (mkSpherical (radius spherical) phi2 theta1)) modelCenter in
  let cam1 := withPosition cam newPosition in
  let cam2 := lookAt cam1 modelCenter in
  (cam2, withTarget c modelCenter).

Definition calculatePanVector (cam : Camera) (c : t) (deltaX deltaY : R) : Vector3 :=
  let right := normalize (cross (worldDirection cam) (up cam)) in
  let panVector := vec3 0 0 0 in
  if isOrthographicCamera cam then
    let frustumHeight := top cam - bottom cam in
    let frustumWidth := Three.right cam - left cam in
    let moveX := (- deltaX / clientWidth c) * frustumWidth in
    let moveY := (deltaY / clientHeight c) * frustumHeight in
    addScaledVector (addScaledVector panVector right moveX) (up cam) moveY
  else
    let distance := distanceTo (position cam) (target c) in
    let panSpeed := distance * 0.001 in
    addScaledVector (addScaledVector panVector right (- deltaX * panSpeed))
                    (up cam) (deltaY * panSpeed).

Definition pan (cam : Camera) (c : t) (deltaX deltaY : R) : Camera * t :=
  let panVector := calculatePanVector cam c deltaX deltaY in
  (withPosition cam (add (position cam) panVector),
   withTarget c (add (target c) panVector)).

Definition onMouseMove (modelCenter : Vector3) (cam : Camera) (c : t)
           (event : MouseEvent) : Camera * t :=
  let s := state c in
  if negb (leftButton s) && negb (rightButton s) && negb (middleButton s) then (cam, c)
  else
    let s1 := mkState (leftButton s) (rightButton s) (middleButton s) (panMode s)
                      (clientX event) (clientY event) (mouseXPrev s) (mouseYPrev s) in
    let c1 := withState c s1 in
    let deltaX := mouseX s1 - mouseXPrev s1 in
    let deltaY := mouseY s1 - mouseYPrev s1 in
    let '(cam2, c2) :=
      if leftButton s1 && enableRotate c1 then
        let spherical := setFromVector3 (sub (position cam) modelCenter) in
        let allowRotation :=
          if decide (phi spherical <= minPhi) then bool_decide (deltaY < 0)
          else if decide (maxPhi <= phi spherical) then bool_decide (0 < deltaY)
          else true in
        if allowRotation then rotate modelCenter cam c1 deltaX deltaY else (cam, c1)
      else (cam, c1) in
    let '(cam3, c3) :=
      if rightButton (state c2) && enablePan c2 then pan cam2 c2 deltaX deltaY
      else (cam2, c2) in
    let s3 := state c3 in
    (cam3, withState c3 (mkState (leftButton s3) (rightButton s3) (middleButton s3)
                                 (panMode s3) (mouseX s3) (mouseY s3)
                                 (mouseX s3) (mouseY s3))).

Definition zoomOrthographic (cam : Camera) (delta : R) : Camera :=
  let zoomSpeed := 0.05 in
  let minFrustumSize := 0.1 in
  let maxFrustumSize := 1000 in
  let zoomFactor := if decide (delta < 0) then 1 - zoomSpeed else 1 + zoomSpeed in
  let newTop := top cam * zoomFactor in
  if bool_decide (minFrustumSize < newTop) && bool_decide (newTop < maxFrustumSize) then
    withFrustum cam (left cam * zoomFactor) (right cam * zoomFactor) newTop
                (bottom cam * zoomFactor)
  else cam.

Definition zoomPerspective (cam : Camera) (c : t) (delta : R) : Camera :=
  let distance := distanceTo (position cam) (target c) in
  let newDistance := Rmax (minDistance c) (Rmin (maxDistance c) (distance - delta * 0.01)) in
  let direction := normalize (sub (position cam) (target c)) in
  withPosition cam (add (target c) (multiplyScalar direction newDistance)).

(** [onWheel(event)] with [delta = event.deltaY]. *)
Definition onWheel (cam : Camera) (c : t) (delta : R) : Camera :=
  if negb (enableZoom c) then cam
  else if isOrthographicCamera cam then zoomOrthographic cam delta
  else zoomPerspective cam c delta.

Definition update (cam : Camera) (c : t) : Camera :=
  if autoRotate c then
    let spherical := setFromVector3 (sub (position cam) (target c)) in
    let spherical1 := mkSpherical (radius spherical) (phi spherical)
                                  (theta spherical + autoRotateSpeed c * 0.01) in
    lookAt (withPosition cam (add (setFromSpherical spherical1) (target c))) (target c)
  else cam.

Definition getZoom (cam : Camera) (c : t) : R :=
  if isOrthographicCamera cam then top cam
  else distanceTo (position cam) (target c).

Definition setZoom (cam : Camera) (c : t) (zoom : R) : Camera :=
  if isOrthographicCamera cam then
    let aspect := right cam / top cam in
    withFrustum cam (- zoom * aspect) (zoom * aspect) zoom (- zoom)
  else
    let direction := normalize (sub (position cam) (target c)) in
    withPosition cam (add (target c) (multiplyScalar direction zoom)).

End SimpleOrbitControls.

(** ** Observations on the orbit camera used to state its properties *)

Module OrbitSpec.
Import Three SimpleOrbitControls.
Local Open Scope R_scope.

(** The spherical coordinates of the camera about the pivot, as [rotate] and
    [onMouseMove] measure them. *)
Definition cameraSpherical (modelCenter : Vector3) (cam : Camera) : Spherical :=
  setFromVector3 (sub (position cam) modelCenter).
Definition cameraPhi (modelCenter : Vector3) (cam : Camera) : R :=
  phi (cameraSpherical modelCenter cam).
Definition cameraRadius (modelCenter : Vector3) (cam : Camera) : R :=
  radius (cameraSpherical modelCenter cam).

(** The range limit [rotate] applies to the updated polar angle. *)
Definition clampPhi (p : R) : R :=
  if decide (p < minPhi) then minPhi else if decide (maxPhi < p) then maxPhi else p.

(** A pointer move by [(dx, dy)] from the last recorded pointer position. *)
Definition drag (modelCenter : Vector3) (w : Camera * t) (d : R * R) : Camera * t :=
  onMouseMove modelCenter w.1 w.2
    (mkMouseEvent 0 (mouseXPrev (state w.2) + d.1) (mouseYPrev (state w.2) + d.2)).

(** A rotate input sequence: successive pointer moves. *)
Definition dragSeq (modelCenter : Vector3) (w : Camera * t) (ds : list (R * R))
  : Camera * t :=
  fold_left (drag modelCenter) ds w.

(** The primary button alone is held and rotation is enabled. *)
Definition rotating (c : t) : Prop :=
  leftButton (state c) = true /\ rightButton (state c) = false /\ enableRotate c = true.

(** The camera the viewer creates: at (10, 10, 10), Y up, looking at the origin. *)
Definition initialCamera : Camera :=
  lookAt (mkCamera true (vec3 10 10 10) (vec3 0 1 0) (-10) 10 10 (-10) (vec3 0 0 (-1)))
         (vec3 0 0 0).

(** A Y-up camera level with a pivot at the origin, 10 units away. *)
Definition levelCamera : Camera :=
  lookAt (mkCamera true (vec3 10 0 0) (vec3 0 1 0) (-10) 10 10 (-10) (vec3 0 0 (-1)))
         (vec3 0 0 0).

(** The controls as the viewer configures them, with the primary button held. *)
Definition heldControls : t :=
  mkControls (vec3 0 0 0) (mkState true false false false 0 0 0 0)
             true true true false 0.5 1 1000 800 600.

End OrbitSpec.

(** ** ThreeJSViewer: camera frustum and resize *)

Module ThreeJSViewer.
Import Three.
Local Open Scope R_scope.

(** What the viewer reads from its container element: [clientWidth],
    [clientHeight] and the size of [getBoundingClientRect()]. *)
Record Container := mkContainer {
  clientWidth : R; clientHeight : R;
  rectWidth : R; rectHeight : R
}.

(** The viewer fields the resize path touches.  The constructor creates the
    camera before any method can run, so it is not optional here; the controls'
    camera is this same camera. *)
Record t := mkViewer {
  camera : Camera;
  frustumSize : R;
  controls : option SimpleOrbitControls.t;
  rendererSize : R * R
}.

Definition withCamera (v : t) (cam : Camera) : t :=
  mkViewer cam (frustumSize v) (controls v) (rendererSize v).
Definition withRendererSize (v : t) (sz : R * R) : t :=
  mkViewer (camera v) (frustumSize v) (controls v) sz.

(** [updateCameraFrustum()].  Every real number is finite, so of the safety
    check only the sign tests remain; [this.frustumSize || 20] replaces a zero
    frustum size by 20. *)
Definition updateCameraFrustum (container : Container) (v : t) : t :=
  if negb (isOrthographicCamera (camera v)) then v
  else
    let width := rectWidth container in
    let height := rectHeight container in
    if bool_decide (width <= 0) || bool_decide (height <= 0) then v
    else
      let aspect := width / height in
      let safeFrustumSize := if decide (frustumSize v = 0) then 20 else frustumSize v in
      let halfHeight := safeFrustumSize * 0.5 in
      let halfWidth := halfHeight * aspect in
      withCamera v (withFrustum (camera v) (- halfWidth) halfWidth halfHeight (- halfHeight)).

(** [onWindowResize()] *)
Definition onWindowResize (container : Container) (v : t) : t :=
  let width := clientWidth container in
  let height := clientHeight container in
  let currentZoom :=
    match controls v with
    | Some c => SimpleOrbitControls.getZoom (camera v) c
    | None => 1
    end in
  let v1 := updateCameraFrustum container v in
  let v2 :=
    match controls v1 with
    | Some c => withCamera v1 (SimpleOrbitControls.setZoom (camera v1) c currentZoom)
    | None => v1
    end in
  withRendererSize v2 (width, height).

(** [this.controls.onWheel(event)] on the shared camera. *)
Definition onWheel (v : t) (delta : R) : t :=
  match controls v with
  | Some c => withCamera v (SimpleOrbitControls.onWheel (camera v) c delta)
  | None => v
  end.

End ThreeJSViewer.

(** ** Observations on the viewer used to state the resize properties *)

Module ResizeSpec.
Import Three ThreeJSViewer.
Local Open Scope R_scope.

(** An orthographic camera with the half-extents [createOrthographicCamera]
    computes for a frustum size and an aspect ratio. *)
Definition orthographicCamera (frustumSize aspect : R) : Camera :=
  lookAt (mkCamera true (vec3 10 10 10) (vec3 0 1 0)
                   (- (frustumSize * 0.5 * aspect)) (frustumSize * 0.5 * aspect)
                   (frustumSize * 0.5) (- (frustumSize * 0.5)) (vec3 0 0 (-1)))
         (vec3 0 0 0).

(** A viewer in a 900 x 600 container: frustum size 20, aspect 1.5. *)
Definition freshViewer : t :=
  mkViewer (orthographicCamera 20 1.5) 20
           (Some (SimpleOrbitControls.mkControls
                    (vec3 0 0 0)
                    (SimpleOrbitControls.mkState false false false false 0 0 0 0)
                    true true true false 0.5 1 1000 900 600))
           (900, 600).

(** The container after it has been resized to 800 x 400 (aspect 2). *)
Definition resizedContainer : Container := mkContainer 800 400 800 400.

End ResizeSpec.

(** ** Viewer lifecycle: the frame loop, the listeners and [dispose]

    The part of the browser the viewer talks to ([requestAnimationFrame],
    [cancelAnimationFrame], [addEventListener], [removeEventListener], event
    dispatch) next to the fields of SceneManager and EventManager that
    [dispose] touches. *)

Module Lifecycle.

Inductive EventTarget := Window | Document | Container | Canvas.
Inductive EventType :=
| resize | mousedown | mousemove | mouseup | wheel | contextmenu | keydown | keyup.
(** Who registered a listener: the viewer's EventManager or its
    SimpleOrbitControls. *)
Inductive Owner := OfEventManager | OfControls.

#[global] Instance EventTarget_eq_dec : EqDecision EventTarget.
Proof. solve_decision. Defined.
#[global] Instance EventType_eq_dec : EqDecision EventType.
Proof. solve_decision. Defined.
#[global] Instance Owner_eq_dec : EqDecision Owner.
Proof. solve_decision. Defined.

(** A registered listener; its callback is identified by who made it and for
    which event on which target (every callback in the source is a fresh
    closure). *)
Record Listener := mkListener {
  target : EventTarget;
  event : EventType;
  owner : Owner
}.

#[global] Instance Listener_eq_dec : EqDecision Listener.
Proof. solve_decision. Defined.

Record t := mkWorld {
  (* the browser *)
  domListeners : list Listener;
  rafPending : list nat;
  rafNext : nat;
  (* SceneManager *)
  animationId : option nat;
  renderer : bool;            (* [this.renderer] is set *)
  scene : bool;               (* [this.scene] is set *)
  rendererDisposals : nat;    (* calls of [renderer.dispose()] *)
  sceneClears : nat;          (* calls of [scene.clear()] *)
  frames : nat;               (* runs of [animate()] *)
  (* EventManager.eventListeners: element -> event -> handler *)
  eventListeners : list Listener
}.

(** [element.addEventListener(event, handler)] with a fresh callback *)
Definition domAdd (w : t) (l : Listener) : t :=
  mkWorld (domListeners w ++ [l]) (rafPending w) (rafNext w) (animationId w)
          (renderer w) (scene w) (rendererDisposals w) (sceneClears w) (frames w)
          (eventListeners w).

(** [element.removeEventListener(event, handler)] *)
Definition domRemove (w : t) (l : Listener) : t :=
  mkWorld (List.filter (fun l' => negb (bool_decide (l' = l))) (domListeners w))
          (rafPending w) (rafNext w) (animationId w)
          (renderer w) (scene w) (rendererDisposals w) (sceneClears w) (frames w)
          (eventListeners w).

Definition withEventListeners (w : t) (ls : list Listener) : t :=
  mkWorld (domListeners w) (rafPending w) (rafNext w) (animationId w)
          (renderer w) (scene w) (rendererDisposals w) (sceneClears w) (frames w) ls.

(** [SimpleOrbitControls.setupEventListeners()]: straight onto the canvas and
    the document; nothing is kept for removal. *)
Definition controlsSetupEventListeners (w : t) : t :=
  fold_left domAdd
    [ mkListener Canvas mousedown OfControls;
      mkListener Canvas mousemove OfControls;
      mkListener Canvas mouseup OfControls;
      mkListener Canvas wheel OfControls;
      mkListener Canvas contextmenu OfControls;
      mkListener Document keyup OfControls ] w.

(** [EventManager.addEventListener(element, event, handler)]: registers the
    handler and stores it under (element, event), replacing an earlier entry. *)
Definition addEventListener (w : t) (element : EventTarget) (ev : EventType) : t :=
  let l := mkListener element ev OfEventManager in
  let w1 := domAdd w l in
  withEventListeners w1
    (List.filter (fun l' => negb (bool_decide (target l' = element /\ event l' = ev)))
                 (eventListeners w1) ++ [l]).

(** [EventManager.setupEventListeners()] *)
Definition setupEventListeners (w : t) : t :=
  fold_left (fun w '(element, ev) => addEventListener w element ev)
    [ (Window, resize);
      (Container, mousedown); (Container, mousemove); (Container, mouseup);
      (Container, wheel); (Container, contextmenu);
      (Document, keydown); (Document, keyup) ] w.

(** [EventManager.removeAllEventListeners()] *)
Definition removeAllEventListeners (w : t) : t :=
  withEventListeners (fold_left domRemove (eventListeners w) w) [].

(** [SceneManager.animate()]: asks for the next frame, then runs the render
    callback and renders. *)
Definition animate (w : t) : t :=
  mkWorld (domListeners w) (rafPending w ++ [rafNext w]) (S (rafNext w))
          (Some (rafNext w))
          (renderer w) (scene w) (rendererDisposals w) (sceneClears w) (S (frames w))
          (eventListeners w).

(** [SceneManager.stopAnimation()]; an id is truthy unless it is 0. *)
Definition stopAnimation (w : t) : t :=
  match animationId w with
  | Some id =>
      if decide (id = 0) then w
      else mkWorld (domListeners w)
                   (List.filter (fun id' => negb (bool_decide (id' = id))) (rafPending w))
                   (rafNext w) None
                   (renderer w) (scene w) (rendererDisposals w) (sceneClears w) (frames w)
                   (eventListeners w)
  | None => w
  end.

(** [SceneManager.dispose()] *)
Definition sceneManagerDispose (w : t) : t :=
  let w1 := stopAnimation w in
  let w2 :=
    if renderer w1 then
      mkWorld (domListeners w1) (rafPending w1) (rafNext w1) (animationId w1)
              false (scene w1) (S (rendererDisposals w1)) (sceneClears w1) (frames w1)
              (eventListeners w1)
    else w1 in
  if scene w2 then
    mkWorld (domListeners w2) (rafPending w2) (rafNext w2) (animationId w2)
            (renderer w2) false (rendererDisposals w2) (S (sceneClears w2)) (frames w2)
            (eventListeners w2)
  else w2.

(** [ThreeJSViewer.dispose()]; both managers exist once [init] has run. *)
Definition dispose (w : t) : t :=
  removeAllEventListeners (sceneManagerDispose w).

(** The page before the viewer is constructed. *)
Definition blank : t := mkWorld [] [] 1 None false false 0 0 0 [].

(** [ThreeJSViewer.init()], as far as listeners and the frame loop go: scene
    and renderer are created, the controls register their listeners, then the
    EventManager its own, then the first [animate()] runs. *)
Definition init (w : t) : t :=
  let w1 := mkWorld (domListeners w) (rafPending w) (rafNext w) (animationId w)
                    true true (rendererDisposals w) (sceneClears w) (frames w)
                    (eventListeners w) in
  let w2 := controlsSetupEventListeners w1 in
  let w3 := setupEventListeners w2 in
  animate w3.

(** The browser's frame signal: the callbacks requested so far run once each
    (every one of them is [animate]). *)
Definition frameTick (w : t) : t :=
  let due := rafPending w in
  let w1 := mkWorld (domListeners w) [] (rafNext w) (animationId w)
                    (renderer w) (scene w) (rendererDisposals w) (sceneClears w) (frames w)
                    (eventListeners w) in
  fold_left (fun w _ => animate w) due w1.

(** The targets an event dispatched at [tgt] passes: the target, then its
    ancestors. *)
Definition propagationPath (tgt : EventTarget) : list EventTarget :=
  match tgt with
  | Canvas => [Canvas; Container; Document; Window]
  | Container => [Container; Document; Window]
  | Document => [Document; Window]
  | Window => [Window]
  end.

(** The listeners that fire when an event of type [ev] is dispatched at
    [tgt]. *)
Definition fires (w : t) (tgt : EventTarget) (ev : EventType) : list Listener :=
  flat_map
    (fun el => List.filter (fun l => bool_decide (target l = el /\ event l = ev))
                           (domListeners w))
    (propagationPath tgt).

(** The frame loop is the only user of [requestAnimationFrame]: what is
    pending is the request [animationId] names, and ids start at 1. *)
Definition loopConsistent (w : t) : Prop :=
  rafPending w = match animationId w with Some id => [id] | None => [] end /\
  (forall id, animationId w = Some id -> id <> 0) /\
  rafNext w <> 0.

End Lifecycle.

(** ** Observations on the controls used to state further properties *)

Module NavigationSpec.
Import Three SimpleOrbitControls.
Local Open Scope R_scope.

(** [Vector3.dot] *)
Definition dot (a b : Vector3) : R := vx a * vx b + vy a * vy b + vz a * vz b.

(** The four half-extents of the frustum. *)
Definition frustum (cam : Camera) : R * R * R * R :=
  (left cam, right cam, top cam, bottom cam).

(** A sequence of pointer moves. *)
Definition moves (modelCenter : Vector3) (w : Camera * t) (events : list MouseEvent)
  : Camera * t :=
  fold_left (fun w event => onMouseMove modelCenter w.1 w.2 event) events w.

(** A perspective camera 10 units from the origin on the x axis. *)
Definition perspectiveCamera : Camera :=
  mkCamera false (vec3 10 0 0) (vec3 0 1 0) (-1) 1 1 (-1) (vec3 (-1) 0 0).

(** The controls as the viewer configures them, no button held. *)
Definition idleControls : t :=
  mkControls (vec3 0 0 0) (mkState false false false false 0 0 0 0)
             true true true false 0.5 1 1000 800 600.

End NavigationSpec.

(** ** [THREE.Box3] *)

Module Box3.
Import Three.
Local Open Scope R_scope.

Record t := mkBox3 { min : Vector3; max : Vector3 }.

Definition isEmpty (b : t) : bool :=
  bool_decide (vx (max b) < vx (min b)) || bool_decide (vy (max b) < vy (min b))
  || bool_decide (vz (max b) < vz (min b)).

Definition getCenter (b : t) : Vector3 :=
  if isEmpty b then vec3 0 0 0 else multiplyScalar (add (min b) (max b)) 0.5.

Definition getSize (b : t) : Vector3 :=
  if isEmpty b then vec3 0 0 0 else sub (max b) (min b).

End Box3.

(** ** CameraManager *)

Module CameraManager.
Import Three.
Local Open Scope R_scope.

(** The manager's [camera] ([None] for [null]) and [frustumSize]; its
    [container] is the viewer's and is passed to the methods that read it.
    Every real number is finite, so of the checks on the container's size only
    the sign tests remain. *)
Record t := mkCameraManager {
  camera : option Camera;
  frustumSize : R
}.

(** [new CameraManager(container)] *)
Definition create : t := mkCameraManager None 20.

(** [new THREE.OrthographicCamera(left, right, top, bottom, near, far)]: at the
    origin, Y up, looking down the negative z axis. *)
Definition OrthographicCamera (l r t b : R) : Camera :=
  mkCamera true (vec3 0 0 0) (vec3 0 1 0) l r t b (vec3 0 0 (-1)).

(** [createOrthographicCamera(frustumSize)] *)
Definition createOrthographicCamera (container : ThreeJSViewer.Container) (cm : t)
           (frustumSize : R) : t :=
  let width := ThreeJSViewer.rectWidth container in
  let height := ThreeJSViewer.rectHeight container in
  let '(cam, size) :=
    if bool_decide (width <= 0) || bool_decide (height <= 0) then
      let defaultAspect := 16 / 9 in
      let halfHeight := frustumSize * 0.5 in
      let halfWidth := halfHeight * defaultAspect in
      (OrthographicCamera (- halfWidth) halfWidth halfHeight (- halfHeight),
       CameraManager.frustumSize cm)
    else
      let aspect := width / height in
      let halfHeight := frustumSize * 0.5 in
      let halfWidth := halfHeight * aspect in
      (OrthographicCamera (- halfWidth) halfWidth halfHeight (- halfHeight),
       frustumSize) in
  mkCameraManager (Some (lookAt (withPosition cam (vec3 10 10 10)) (vec3 0 0 0))) size.

(** [fitToModel(modelCenter, modelBounds, target)]: the manager afterwards and
    the vector [target] holds afterwards. *)
Definition fitToModel (container : ThreeJSViewer.Container) (cm : t)
           (modelCenter : Vector3) (modelBounds : option Box3.t) (target : Vector3)
  : t * Vector3 :=
  match camera cm, modelBounds with
  | Some cam, Some bounds =>
      let size := Box3.getSize bounds in
      let maxDim := Rmax (Rmax (vx size) (vy size)) (vz size) in
      if isOrthographicCamera cam then
        let scaledMaxDim := maxDim in
        let scaledCenter := modelCenter in
        let cameraDistance := scaledMaxDim * 3 in
        let cam1 := withPosition cam (vec3 cameraDistance cameraDistance cameraDistance) in
        let cam2 := lookAt cam1 scaledCenter in
        let width := ThreeJSViewer.rectWidth container in
        let height := ThreeJSViewer.rectHeight container in
        let aspect :=
          if bool_decide (width <= 0) || bool_decide (height <= 0) then 16 / 9
          else width / height in
        let frustumSize := Rmax (scaledMaxDim * 1.5) 5 in
        let halfHeight := frustumSize * 0.5 in
        let halfWidth := halfHeight * aspect in
        (mkCameraManager
           (Some (withFrustum cam2 (- halfWidth) halfWidth halfHeight (- halfHeight)))
           frustumSize,
         scaledCenter)
      else
        let distance := maxDim * 2 in
        let direction := normalize (sub (position cam) modelCenter) in
        let cam1 := withPosition cam (add modelCenter (multiplyScalar direction distance)) in
        (mkCameraManager (Some (lookAt cam1 modelCenter)) (frustumSize cm), modelCenter)
  | _, _ => (cm, target)
  end.

(** [setPosition(position, target)] *)
Definition setPosition (cm : t) (position target : Vector3) : t :=
  match camera cm with
  | None => cm
  | Some cam => mkCameraManager (Some (lookAt (withPosition cam position) target))
                                (frustumSize cm)
  end.

(** [reset(target)] *)
Definition reset (cm : t) (target : Vector3) : t :=
  match camera cm with
  | None => cm
  | Some cam => mkCameraManager (Some (lookAt (withPosition cam (vec3 10 10 10)) target))
                                (frustumSize cm)
  end.

Definition getCamera (cm : t) : option Camera := camera cm.
Definition getFrustumSize (cm : t) : R := frustumSize cm.

End CameraManager.

(** ** ThreeJSViewer: fitting the camera to the model

    The viewer next to its CameraManager.  The manager's camera is the viewer's
    camera (one shared object), so only the manager's [frustumSize] is kept
    beside the viewer; [target] is the viewer's [this.target]. *)

Module ViewerFit.
Import Three.
Local Open Scope R_scope.

Record t := mkViewerFit {
  viewer : ThreeJSViewer.t;
  cameraManagerFrustumSize : R;
  target : Vector3
}.

(** [fitCameraToModel()], as far as the camera, the controls and the targets
    go; [box] is the box the traversal of the scene's meshes has built.  The
    origin marker and the axes that [showOrigin()] adds at the end go to the
    scene, which is not part of this record: they are meshes too, so the box a
    later call builds is another one, which contains them. *)
Definition fitCameraToModel (container : ThreeJSViewer.Container) (box : Box3.t) (v : t) : t :=
  if Box3.isEmpty box then v
  else
    let center := Box3.getCenter box in
    let size := Box3.getSize box in
    let maxDim := Rmax (Rmax (vx size) (vy size)) (vz size) in
    let scale := if decide (1000 < maxDim) then 0.001 else 1 in
    let scaledCenter := multiplyScalar center scale in
    let '(cm, target1) :=
      CameraManager.fitToModel container
        (CameraManager.mkCameraManager (Some (ThreeJSViewer.camera (viewer v)))
                                       (cameraManagerFrustumSize v))
        scaledCenter (Some box) (target v) in
    let cam1 := default (ThreeJSViewer.camera (viewer v)) (CameraManager.camera cm) in
    let v1 := ThreeJSViewer.mkViewer cam1 (CameraManager.getFrustumSize cm)
                (ThreeJSViewer.controls (viewer v)) (ThreeJSViewer.rendererSize (viewer v)) in
    let v2 := ThreeJSViewer.updateCameraFrustum container v1 in
    let v3 :=
      match ThreeJSViewer.controls v2 with
      | Some c =>
          let c1 := SimpleOrbitControls.withTarget c scaledCenter in
          ThreeJSViewer.mkViewer (SimpleOrbitControls.update (ThreeJSViewer.camera v2) c1)
            (ThreeJSViewer.frustumSize v2) (Some c1) (ThreeJSViewer.rendererSize v2)
      | None => v2
      end in
    mkViewerFit v3 (CameraManager.frustumSize cm) target1.

End ViewerFit.

(** ** Observations on the camera set-up used to state its properties *)

Module CameraSpec.
Import Three.
Local Open Scope R_scope.

(** The frustum is centred on the view axis and has a non-zero height. *)
Definition symmetricFrustum (cam : Camera) : Prop :=
  left cam = - right cam /\ bottom cam = - top cam /\ top cam <> 0.

(** The viewport is degenerate: [updateCameraFrustum] returns early. *)
Definition degenerate (container : ThreeJSViewer.Container) : bool :=
  bool_decide (ThreeJSViewer.rectWidth container <= 0)
  || bool_decide (ThreeJSViewer.rectHeight container <= 0).

(** The aspect ratio CameraManager works with: 16 / 9 in a degenerate
    viewport. *)
Definition aspectOf (container : ThreeJSViewer.Container) : R :=
  if degenerate container then 16 / 9
  else ThreeJSViewer.rectWidth container / ThreeJSViewer.rectHeight container.

(** The largest side of a box. *)
Definition maxDim (box : Box3.t) : R :=
  Rmax (Rmax (vx (Box3.getSize box)) (vy (Box3.getSize box))) (vz (Box3.getSize box)).

(** The centre [fitCameraToModel] aims at: the centre of the box, scaled by
    0.001 when the largest side exceeds 1000. *)
Definition scaledCenter (box : Box3.t) : Vector3 :=
  multiplyScalar (Box3.getCenter box) (if decide (1000 < maxDim box) then 0.001 else 1).

(** A container that is not laid out yet. *)
Definition hiddenContainer : ThreeJSViewer.Container := ThreeJSViewer.mkContainer 0 0 0 0.

(** A model of 4 x 3 x 2 units with a corner at the origin. *)
Definition smallBox : Box3.t := Box3.mkBox3 (vec3 0 0 0) (vec3 4 3 2).

(** The viewer of [ResizeSpec.freshViewer] with its CameraManager. *)
Definition freshFit : ViewerFit.t :=
  ViewerFit.mkViewerFit ResizeSpec.freshViewer 20 (vec3 0 0 0).

End CameraSpec.

(** ** ModelRenderer: clearing the model and styling the overlays *)

Module ModelRendererMaintenance.
Import Scene ModelRenderer.

(** The test of the [scene.traverse] callback in [clearIfcObjects]:
    [object.isMesh && object.userData.globalId]. *)
Definition isIfcMesh (o : Object3D) : bool :=
  isMesh o &&
  match Scene.globalId (userData o) with
  | Some g => JsString.truthy g
  | None => false
  end.

(** What [traverse] collects below one node, parents before children (the
    scene itself is no mesh). *)
Fixpoint collectIfcMeshes (h : gmap nat Object3D) (object : Node) : list nat :=
  match object with
  | Drawable ref cs =>
      (match h !! ref with
       | Some o => if isIfcMesh o then [ref] else []
       | None => []
       end) ++ flat_map (collectIfcMeshes h) cs
  | Group cs => flat_map (collectIfcMeshes h) cs
  end.

(** [clearIfcObjects()]; with no scene it returns at once.  [scene.remove]
    detaches direct children of the scene only. *)
Definition clearIfcObjects (st : t) : option t :=
  match scene st with
  | None => Some st
  | Some sc =>
      let objectsToRemove := flat_map (collectIfcMeshes (heap sc)) (children sc) in
      let sc' :=
        fold_left
          (fun sc object =>
             let sc1 := remove sc object in
             mkScene (alter dispose object (heap sc1)) (children sc1) (nextId sc1))
          objectsToRemove sc in
      st1 ← clearWireframes
               (mkRenderer (Some sc') (ifcObjects st) (wireframeObjects st)
                           (showWireframe st));
      Some (mkRenderer (scene st1) [] (wireframeObjects st1) (showWireframe st1))
  end.

(** [material.linewidth = width], written in place on the material object.
    After [clearHighlight] an object's material and its
    [userData.originalMaterial] are one and the same object, so the write
    reaches the snapshot of an object that is not highlighted; the material of
    a highlighted object is a clone of its own, and its snapshot is left
    alone. *)
Definition withLinewidth (o : Object3D) (width : float) : Object3D :=
  let m := mkMaterial (kind (material o)) (color (material o))
                      (transparent (material o)) (opacity (material o)) width in
  let ud := userData o in
  let snapshot :=
    if isHighlighted ud then originalMaterial ud
    else (fun _ => m) <$> originalMaterial ud in
  withMaterial
    (withUserData o (mkUserData (Scene.globalId ud) (Scene.ifcType ud) (parentMesh ud)
                                (isHighlighted ud) snapshot))
    m.

(** [setWireframeWidth(width)] *)
Definition setWireframeWidth (st : t) (width : float) : t :=
  match scene st with
  | None => st
  | Some sc =>
      mkRenderer
        (Some (mkScene
                 (fold_left (fun h wireframe => alter (fun o => withLinewidth o width) wireframe h)
                            (wireframeObjects st) (heap sc))
                 (children sc) (nextId sc)))
        (ifcObjects st) (wireframeObjects st) (showWireframe st)
  end.

End ModelRendererMaintenance.

(** ** The page's own use of the viewer *)

Module WebIFCViewerApp.
Import ModelRenderer.

(** [toggleWireframe()] of the page: flips the overlays from the state the
    renderer reports. *)
Definition toggleWireframe (st : t) : option t :=
  let isCurrentlyVisible := showWireframe st in
  ModelRenderer.toggleWireframe st (negb isCurrentlyVisible).

End WebIFCViewerApp.

(** ** Observations on the renderer's bookkeeping *)

Module OverlaySpec.
Import Scene ModelRenderer.

(** References are handed out in order: every object of the store lies below
    [nextId]. *)
Definition heapFresh (sc : Scene.t) : Prop :=
  forall r, is_Some (heap sc !! r) -> r < nextId sc.

(** The overlay [w] is a line drawing bound to mesh [m]. *)
Definition overlayOf (sc : Scene.t) (w m : nat) : Prop :=
  exists o, heap sc !! w = Some o /\ parentMesh (userData o) = Some m /\ isMesh o = false.

(** The overlays are in step with the meshes: none while they are switched
    off, and one per mesh, in order, while they are switched on. *)
Definition overlaysInStep (st : t) : Prop :=
  exists sc,
    scene st = Some sc /\ heapFresh sc /\
    RendererSpec.allValid sc (ifcObjects st) /\
    if showWireframe st
    then Forall2 (overlayOf sc) (wireframeObjects st) (ifcObjects st)
    else wireframeObjects st = [].

End OverlaySpec.

(** ** EventManager: looking up one object, and the mouse handlers *)

Module EventManagerInput.
Import Scene Three.
Local Open Scope R_scope.

(** The inner [findInChildren] of [findObjectByGlobalId]: the object itself if
    it carries the id, else the first hit among its children, in order. *)
Fixpoint findInChildren (h : gmap nat Object3D) (globalId : string) (object : Node)
  : option nat :=
  let firstOf :=
    fix firstOf (cs : list Node) : option nat :=
      match cs with
      | [] => None
      | child :: cs' =>
          match findInChildren h globalId child with
          | Some found => Some found
          | None => firstOf cs'
          end
      end in
  match object with
  | Drawable ref cs =>
      match h !! ref with
      | Some o =>
          if decide (Scene.globalId (userData o) = Some globalId) then Some ref
          else firstOf cs
      | None => firstOf cs
      end
  | Group cs => firstOf cs
  end.

(** The loop over [object.children], started at the scene (which carries no
    id). *)
Fixpoint firstInChildren (h : gmap nat Object3D) (globalId : string) (cs : list Node)
  : option nat :=
  match cs with
  | [] => None
  | child :: cs' =>
      match findInChildren h globalId child with
      | Some found => Some found
      | None => firstInChildren h globalId cs'
      end
  end.

(** [findObjectByGlobalId(globalId)] *)
Definition findObjectByGlobalId (sc : Scene.t) (globalId : string) : option nat :=
  firstInChildren (heap sc) globalId (children sc).

(** The fields of a DOM [MouseEvent] the handlers read. *)
Record MouseEvent := mkMouseEvent {
  button : Z; buttons : Z; clientX : R; clientY : R
}.

(** The drag state of the EventManager. *)
Record t := mkEventManager {
  isDragging : bool;
  mouseDownPosition : R * R
}.

(** [new EventManager(container, viewer)] *)
Definition create : t := mkEventManager false (0, 0).

Definition dragThreshold : R := 5.

(** The parts of the viewer the mouse handlers reach: the controls, the camera
    they share with the viewer, and the scene. *)
Record Viewer := mkViewer {
  controls : option SimpleOrbitControls.t;
  camera : Camera;
  scene : option Scene.t
}.

(** The event as the controls read it. *)
Definition forControls (event : MouseEvent) : SimpleOrbitControls.MouseEvent :=
  SimpleOrbitControls.mkMouseEvent (button event) (clientX event) (clientY event).

(** [onMouseDown(event)] *)
Definition onMouseDown (em : t) (v : Viewer) (event : MouseEvent) : t * Viewer :=
  let em1 :=
    if decide (button event = 0%Z)
    then mkEventManager false (clientX event, clientY event)
    else em in
  (em1,
   match controls v with
   | Some c =>
       mkViewer (Some (SimpleOrbitControls.onMouseDown c (forControls event)))
                (camera v) (scene v)
   | None => v
   end).

(** [onMouseMove(event)]; [modelCenter] is what the controls get from
    [this.viewer.getModelCenter()]. *)
Definition onMouseMove (modelCenter : Vector3) (em : t) (v : Viewer) (event : MouseEvent)
  : t * Viewer :=
  let em1 :=
    if bool_decide (buttons event = 1%Z) && negb (isDragging em) then
      let deltaX := Rabs (clientX event - (mouseDownPosition em).1) in
      let deltaY := Rabs (clientY event - (mouseDownPosition em).2) in
      if bool_decide (dragThreshold < deltaX) || bool_decide (dragThreshold < deltaY)
      then mkEventManager true (mouseDownPosition em)
      else em
    else em in
  (em1,
   match controls v with
   | Some c =>
       let '(cam, c') :=
         SimpleOrbitControls.onMouseMove modelCenter (camera v) c (forControls event) in
       mkViewer (Some c') cam (scene v)
   | None => v
   end).

(** [onMouseUp(event)]: the state afterwards and the id handed to
    [selectObjectByGuid], if a pick was made.  [raycast] is the raycaster set up
    from the camera and the event position; [isWireframeActive] is
    [this.viewer.modelRenderer.showWireframe]. *)
Definition onMouseUp (isWireframeActive : bool)
           (raycast : Camera -> MouseEvent -> list Node -> list EventManager.Intersection)
           (em : t) (v : Viewer) (event : MouseEvent) : t * Viewer * option string :=
  let '(scene1, picked) :=
    if bool_decide (button event = 0%Z) && negb (isDragging em)
    then EventManager.handleModelClick isWireframeActive (scene v)
           (raycast (camera v) event)
    else (scene v, None) in
  (mkEventManager false (mouseDownPosition em),
   mkViewer (option_map SimpleOrbitControls.onMouseUp (controls v)) (camera v) scene1,
   picked).

End EventManagerInput.

(** ** Observations on selection and gestures *)

Module GestureSpec.
Import Scene Three EventManagerInput.
Local Open Scope R_scope.

(** No object of the scene graph carries the id. *)
Definition untagged (sc : Scene.t) (g : string) : Prop :=
  forall r o, r ∈ SelectionSpec.sceneRefs sc -> heap sc !! r = Some o ->
              globalId (userData o) <> Some g.

(** No object of the scene graph is highlighted. *)
Definition noneHighlighted (sc : Scene.t) : Prop :=
  forall r o, r ∈ SelectionSpec.sceneRefs sc -> heap sc !! r = Some o ->
              isHighlighted (userData o) = false.

(** What [highlightObject] makes of one object of the scene graph: cleared,
    then highlighted if it carries the id. *)
Definition selected (isWireframeActive : bool) (g : string) (o : Object3D) : Object3D :=
  if decide (globalId (userData o) = Some g)
  then EventManager.highlightSingleObject isWireframeActive (EventManager.clearObject o)
  else EventManager.clearObject o.

(** A move with the primary button alone pressed that is more than the
    threshold away from [origin] on one axis. *)
Definition leavesClickZone (origin : R * R) (event : MouseEvent) : bool :=
  bool_decide (buttons event = 1%Z) &&
  (bool_decide (dragThreshold < Rabs (clientX event - origin.1))
   || bool_decide (dragThreshold < Rabs (clientY event - origin.2))).

(** A run of pointer moves. *)
Definition moves (modelCenter : Vector3) (w : t * Viewer) (events : list MouseEvent)
  : t * Viewer :=
  fold_left (fun w event => onMouseMove modelCenter w.1 w.2 event) events w.

(** A viewer with the sample scene and idle controls. *)
Definition sampleViewer : Viewer :=
  mkViewer (Some NavigationSpec.idleControls) OrbitSpec.initialCamera
           (Some SelectionSpec.sampleScene).

(** A raycaster that hits the first object handed to it, 4 units away. *)
Definition hitFirst (cam : Camera) (event : MouseEvent) (objects : list Node)
  : list EventManager.Intersection :=
  match objects with
  | [] => []
  | _ :: _ => [EventManager.mkIntersection [0%nat] 4]
  end.

End GestureSpec.

(** ** EventManager: removing one listener *)

Module ListenerRegistry.
Import Lifecycle.

(** [EventManager.removeEventListener(element, event)]: the handler stored
    under (element, event), if any, is taken off the element and out of the
    map. *)
Definition removeEventListener (w : t) (element : EventTarget) (ev : EventType) : t :=
  match List.find (fun l => bool_decide (target l = element /\ event l = ev))
                  (eventListeners w) with
  | Some handler =>
      withEventListeners (domRemove w handler)
        (List.filter (fun l => negb (bool_decide (target l = element /\ event l = ev)))
                     (eventListeners w))
  | None => w
  end.

End ListenerRegistry.

(* ===================================================================== *)
(** * Part II: properties                                                  *)
(* ===================================================================== *)

Section CoordinateConverterProps.
Import TypedArray CoordinateConverter.

Lemma convertLoop_length fuel i vertices converted :
  length (convertLoop fuel i vertices converted) = length converted.
Proof.
  revert i converted.
  induction fuel as [|fuel IH]; intros i converted; simpl; [done|].
  case_decide; [|done].
  rewrite IH. unfold set. by rewrite !length_insert.
Qed.

(** Cells below the loop counter are never written again. *)
Lemma convertLoop_below fuel i vertices converted j :
  j < i ->
  convertLoop fuel i vertices converted !! j = converted !! j.
Proof.
  revert i converted.
  induction fuel as [|fuel IH]; intros i converted Hj; simpl; [done|].
  case_decide; [|done].
  rewrite IH by lia. unfold set.
  rewrite !list_lookup_insert_ne by lia. done.
Qed.

(** With enough fuel, every complete triple at or after the loop counter is
    written as (x, z, -y). *)
Lemma convertLoop_triple fuel i m vertices converted x y z :
  length converted = length vertices ->
  length vertices <= i + 3 * fuel ->
  vertices !! (i + 3 * m) = Some x ->
  vertices !! (i + 3 * m + 1) = Some y ->
  vertices !! (i + 3 * m + 2) = Some z ->
  let r := convertLoop fuel i vertices converted in
  r !! (i + 3 * m) = Some x /\
  r !! (i + 3 * m + 1) = Some z /\
  r !! (i + 3 * m + 2) = Some (- y)%float.
Proof.
  revert i m converted.
  induction fuel as [|fuel IH]; intros i m converted Hlen Hfuel Hx Hy Hz;
    cbn [convertLoop].
  - apply lookup_lt_Some in Hz. lia.
  - pose proof (lookup_lt_Some _ _ _ Hz) as Hzlt.
    case_decide as Hi; [|lia].
    destruct m as [|m].
    + cbn zeta. rewrite !Nat.mul_0_r, !Nat.add_0_r in *.
      rewrite !convertLoop_below by lia.
      unfold set, get. rewrite Hx, Hy, Hz. cbn [default].
      repeat split.
      * rewrite !list_lookup_insert_ne by lia.
        by rewrite list_lookup_insert_eq by lia.
      * rewrite list_lookup_insert_ne by lia.
        by rewrite list_lookup_insert_eq by (rewrite length_insert; lia).
      * by rewrite list_lookup_insert_eq by (rewrite !length_insert; lia).
    + replace (i + 3 * S m) with (i + 3 + 3 * m) in * by lia.
      cbn zeta.
      apply (IH (i + 3) m); try done.
      * unfold set. by rewrite !length_insert.
      * lia.
Qed.

(** C9: the coordinate conversion is a pure function of its input that sends
    every consecutive triple (x, y, z) of the vertex array to (x, z, -y) at the
    same place, keeps the length, and maps (1, 2, 3) to (1, 3, -2). *)
Theorem convertIFCToThreeJS_axis_swap :
  (forall (vertices : Float32Array) (k : nat) (x y z : float),
      vertices !! (3 * k) = Some x ->
      vertices !! (3 * k + 1) = Some y ->
      vertices !! (3 * k + 2) = Some z ->
      convertIFCToThreeJS vertices !! (3 * k) = Some x /\
      convertIFCToThreeJS vertices !! (3 * k + 1) = Some z /\
      convertIFCToThreeJS vertices !! (3 * k + 2) = Some (- y)%float) /\
  (forall vertices : Float32Array,
      length (convertIFCToThreeJS vertices) = length vertices) /\
  convertIFCToThreeJS [1; 2; 3]%float = [1; 3; -2]%float.
Proof.
  split; [|split].
  - intros vertices k x y z Hx Hy Hz. unfold convertIFCToThreeJS.
    apply (convertLoop_triple (length vertices) 0 k vertices
             (alloc (length vertices)) x y z); try done.
    + unfold alloc. by rewrite length_replicate.
    + lia.
  - intros vertices. unfold convertIFCToThreeJS.
    rewrite convertLoop_length. unfold alloc. by rewrite length_replicate.
  - reflexivity.
Qed.

(** The second vertex of a two-vertex array. *)
Lemma convertIFCToThreeJS_axis_swap_witness :
  let vertices := [1; 2; 3; 4; 5; 6]%float in
  convertIFCToThreeJS vertices !! (3 * 1) = Some 4%float /\
  convertIFCToThreeJS vertices !! (3 * 1 + 1) = Some 6%float /\
  convertIFCToThreeJS vertices !! (3 * 1 + 2) = Some (- 5)%float.
Proof.
  exact (proj1 convertIFCToThreeJS_axis_swap [1; 2; 3; 4; 5; 6]%float 1
           4%float 5%float 6%float eq_refl eq_refl eq_refl).
Defined.

End CoordinateConverterProps.

Section OrbitProps.
Import Three SimpleOrbitControls OrbitSpec.
Local Open Scope R_scope.

Lemma sub_add_cancel v c : sub (add v c) c = v.
Proof. destruct v, c. unfold sub, add. simpl. f_equal; ring. Qed.

Lemma lengthSq_nonneg v : 0 <= lengthSq v.
Proof. unfold lengthSq. nra. Qed.

Lemma lengthSq_setFromSpherical s :
  lengthSq (setFromSpherical s) = radius s * radius s.
Proof.
  unfold lengthSq, setFromSpherical. simpl.
  pose proof (sin2_cos2 (phi s)) as Hp. pose proof (sin2_cos2 (theta s)) as Ht.
  unfold Rsqr in Hp, Ht.
  transitivity (radius s * radius s *
                (sin (phi s) * sin (phi s) *
                   (sin (theta s) * sin (theta s) + cos (theta s) * cos (theta s))
                 + cos (phi s) * cos (phi s))); [ring|].
  rewrite Ht, Rmult_1_r, Hp. ring.
Qed.

Lemma length_setFromSpherical s :
  0 <= radius s -> length (setFromSpherical s) = radius s.
Proof.
  intros Hr. unfold length. rewrite lengthSq_setFromSpherical.
  by apply sqrt_square.
Qed.

Lemma radius_setFromVector3 v : radius (setFromVector3 v) = length v.
Proof. unfold setFromVector3, length, lengthSq. by case_decide. Qed.

Lemma radius_setFromVector3_nonneg v : 0 <= radius (setFromVector3 v).
Proof. rewrite radius_setFromVector3. apply sqrt_pos. Qed.

Lemma minPhi_lt_maxPhi : minPhi < maxPhi.
Proof. unfold minPhi, maxPhi. pose proof PI2_1. lra. Qed.

Lemma clampPhi_range p : minPhi <= clampPhi p <= maxPhi.
Proof.
  pose proof minPhi_lt_maxPhi. unfold clampPhi.
  repeat case_decide; lra.
Qed.

Lemma clampPhi_inside p : 0 < clampPhi p < PI.
Proof.
  pose proof (clampPhi_range p). unfold minPhi, maxPhi in *. lra.
Qed.

(** Reading back the spherical coordinates of a point placed at a positive
    radius and a polar angle in [0, PI] returns that radius and angle. *)
Lemma setFromVector3_setFromSpherical r p th :
  0 < r -> 0 <= p <= PI ->
  radius (setFromVector3 (setFromSpherical (mkSpherical r p th))) = r /\
  phi (setFromVector3 (setFromSpherical (mkSpherical r p th))) = p.
Proof.
  intros Hr Hp.
  pose proof (length_setFromSpherical (mkSpherical r p th)) as Hlen.
  simpl in Hlen. specialize (Hlen ltac:(lra)).
  split; [by rewrite radius_setFromVector3|].
  unfold setFromVector3.
  change (sqrt _) with (length (setFromSpherical (mkSpherical r p th))).
  rewrite Hlen. case_decide; [lra|]. simpl.
  replace (cos p * r / r) with (cos p) by (field; lra).
  pose proof (COS_bound p) as [Hlo Hhi].
  unfold clamp. rewrite Rmin_right by lra. rewrite Rmax_right by lra.
  by apply acos_cos.
Qed.

Lemma position_rotate center cam c dx dy :
  position (rotate center cam c dx dy).1 =
  add (setFromSpherical
         (mkSpherical (cameraRadius center cam)
                      (clampPhi (cameraPhi center cam - dy * 0.01))
                      (theta (cameraSpherical center cam) - dx * 0.01)))
      center.
Proof. reflexivity. Qed.

Lemma cameraRadius_rotate center cam c dx dy :
  cameraRadius center (rotate center cam c dx dy).1 = cameraRadius center cam.
Proof.
  unfold cameraRadius at 1, cameraSpherical at 1.
  rewrite position_rotate, sub_add_cancel, radius_setFromVector3.
  rewrite length_setFromSpherical; [done|].
  simpl. apply radius_setFromVector3_nonneg.
Qed.

Lemma cameraPhi_rotate center cam c dx dy :
  0 < cameraRadius center cam ->
  cameraPhi center (rotate center cam c dx dy).1 =
  clampPhi (cameraPhi center cam - dy * 0.01).
Proof.
  intros Hr. unfold cameraPhi at 1, cameraSpherical at 1.
  rewrite position_rotate, sub_add_cancel.
  apply setFromVector3_setFromSpherical; [done|].
  pose proof (clampPhi_inside (cameraPhi center cam - dy * 0.01)). lra.
Qed.

Lemma cameraRadius_pos center cam :
  position cam <> center -> 0 < cameraRadius center cam.
Proof.
  intros Hne. unfold cameraRadius, cameraSpherical.
  rewrite radius_setFromVector3. unfold length.
  apply sqrt_lt_R0.
  destruct (position cam) as [x y z] eqn:Hp, center as [a b c].
  unfold lengthSq, sub. simpl.
  assert (forall u v : R, u <> v -> 0 < (u - v) * (u - v)) as Hsq.
  { intros u v Huv. apply (Rsqr_pos_lt (u - v)). lra. }
  pose proof (Rle_0_sqr (x - a)) as Hx0. pose proof (Rle_0_sqr (y - b)) as Hy0.
  pose proof (Rle_0_sqr (z - c)) as Hz0. unfold Rsqr in Hx0, Hy0, Hz0.
  destruct (decide (x = a)) as [->|Hx]; [|specialize (Hsq x a Hx); lra].
  destruct (decide (y = b)) as [->|Hy]; [|specialize (Hsq y b Hy); lra].
  destruct (decide (z = c)) as [->|Hz]; [|specialize (Hsq z c Hz); lra].
  done.
Qed.

Lemma normalize_negate v : normalize (negate v) = negate (normalize v).
Proof.
  assert (length (negate v) = length v) as Hlen.
  { unfold length, lengthSq, negate. simpl. f_equal. ring. }
  unfold normalize. rewrite Hlen.
  unfold divideScalar, multiplyScalar, negate. simpl. f_equal; ring.
Qed.

Lemma sub_negate a b : sub b a = negate (sub a b).
Proof. unfold sub, negate. simpl. f_equal; ring. Qed.

(** After [rotate] the view direction is the unit vector from the camera to
    the pivot (Y-up camera away from the pivot: the clamp keeps it off the
    vertical axis, so [lookAt] is never degenerate). *)
Lemma rotate_aims_at_pivot center cam c dx dy :
  up cam = vec3 0 1 0 ->
  position cam <> center ->
  worldDirection (rotate center cam c dx dy).1 =
  normalize (sub center (position (rotate center cam c dx dy).1)).
Proof.
  intros Hup Hne.
  pose proof (cameraRadius_pos center cam Hne) as Hr.
  rewrite (sub_negate (position _) center), normalize_negate.
  rewrite position_rotate, sub_add_cancel.
  set (p := clampPhi (cameraPhi center cam - dy * 0.01)).
  set (th := theta (cameraSpherical center cam) - dx * 0.01).
  set (r := cameraRadius center cam) in *.
  set (v := setFromSpherical (mkSpherical r p th)).
  assert (worldDirection (rotate center cam c dx dy).1 =
          negate (lookAtZ (add v center) center (vec3 0 1 0))) as ->.
  { unfold rotate, lookAt. simpl. by rewrite Hup. }
  f_equal. unfold lookAtZ. rewrite sub_add_cancel.
  assert (lengthSq v = r * r) as HlenSq by apply lengthSq_setFromSpherical.
  assert (length v = r) as Hlen by (apply length_setFromSpherical; simpl; lra).
  pose proof (clampPhi_inside (cameraPhi center cam - dy * 0.01)) as Hp.
  fold p in Hp. pose proof (sin_gt_0 p ltac:(lra) ltac:(lra)) as Hs.
  pose proof (sin2_cos2 th) as Ht. unfold Rsqr in Ht.
  clearbody r p th.
  assert (0 < r * r) as Hrr by nra.
  destruct (decide (lengthSq v = 0)) as [Hz|_]; [lra|].
  case_decide as Hx; [|done]. exfalso.
  unfold normalize in Hx. rewrite Hlen in Hx.
  case_decide; [lra|].
  unfold cross, divideScalar, multiplyScalar, lengthSq, v, setFromSpherical in Hx.
  simpl in Hx.
  assert (sin p * sin p * (sin th * sin th + cos th * cos th) = 0) as H0.
  { rewrite <- Hx. field. lra. }
  rewrite Ht in H0. nra.
Qed.

(** C10: [rotate] keeps the camera-to-pivot distance.  Only the two angles
    change; the new position is the point at the old radius and the updated,
    clamped angles from the pivot; the camera is re-aimed at the pivot, and the
    pivot becomes the controls' target. *)
Theorem rotate_preserves_radius :
  forall (center : Vector3) (cam : Camera) (c : t) (dx dy : R),
    let sph := cameraSpherical center cam in
    let out := rotate center cam c dx dy in
    cameraRadius center out.1 = cameraRadius center cam /\
    distanceTo (position out.1) center = distanceTo (position cam) center /\
    position out.1 =
      add (setFromSpherical
             (mkSpherical (radius sph) (clampPhi (phi sph - dy * 0.01))
                          (theta sph - dx * 0.01)))
          center /\
    worldDirection out.1 = negate (lookAtZ (position out.1) center (up out.1)) /\
    target out.2 = center /\
    (up cam = vec3 0 1 0 -> position cam <> center ->
     cameraPhi center out.1 = clampPhi (phi sph - dy * 0.01) /\
     worldDirection out.1 = normalize (sub center (position out.1))).
Proof.
  intros center cam c dx dy sph out.
  pose proof (cameraRadius_rotate center cam c dx dy) as Hrad.
  split; [done|]. split.
  { unfold cameraRadius, cameraSpherical in Hrad.
    rewrite !radius_setFromVector3 in Hrad. done. }
  split; [apply position_rotate|].
  split; [done|]. split; [done|].
  intros Hup Hne. split.
  - apply cameraPhi_rotate. by apply cameraRadius_pos.
  - by apply rotate_aims_at_pivot.
Qed.

Lemma initialCamera_off_origin : position initialCamera <> vec3 0 0 0.
Proof. simpl. intros [=]. lra. Qed.

(** The viewer's initial camera, rotated about the origin by a (3, 4) pixel
    move. *)
Lemma rotate_preserves_radius_witness :
  let out := rotate (vec3 0 0 0) initialCamera heldControls 3 4 in
  cameraPhi (vec3 0 0 0) out.1 =
    clampPhi (phi (cameraSpherical (vec3 0 0 0) initialCamera) - 4 * 0.01) /\
  worldDirection out.1 = normalize (sub (vec3 0 0 0) (position out.1)).
Proof.
  exact (proj2 (proj2 (proj2 (proj2 (proj2
           (rotate_preserves_radius (vec3 0 0 0) initialCamera heldControls 3 4)))))
           eq_refl initialCamera_off_origin).
Defined.

(** The gate of [onMouseMove], as a function of the pre-update polar angle. *)
Lemma drag_rotating center cam c dx dy :
  rotating c ->
  (drag center (cam, c) (dx, dy)).1 =
    (if (if decide (cameraPhi center cam <= minPhi) then bool_decide (dy < 0)
         else if decide (maxPhi <= cameraPhi center cam) then bool_decide (0 < dy)
         else true)
     then (rotate center cam c dx dy).1 else cam) /\
  rotating (drag center (cam, c) (dx, dy)).2.
Proof.
  intros (Hl & Hr & He).
  destruct c as [tg [l r m pm mx my mxp myp] ez ep er ar ars mind maxd cw ch].
  simpl in Hl, Hr, He. subst l r er.
  unfold drag, onMouseMove, rotating, cameraPhi, cameraSpherical.
  cbn -[rotate setFromVector3 sub minPhi maxPhi].
  replace (mxp + dx - mxp) with dx by ring.
  replace (myp + dy - myp) with dy by ring.
  destruct (decide (phi (setFromVector3 (sub (position cam) center)) <= minPhi));
    [|destruct (decide (maxPhi <= phi (setFromVector3 (sub (position cam) center))))];
    repeat case_bool_decide; done.
Qed.

Lemma cameraPhi_bound center cam : 0 <= cameraPhi center cam <= PI.
Proof.
  unfold cameraPhi, cameraSpherical, setFromVector3.
  case_decide; simpl; [pose proof PI_RGT_0; lra | apply acos_bound].
Qed.

Lemma drag_radius center cam c d :
  rotating c ->
  cameraRadius center (drag center (cam, c) d).1 = cameraRadius center cam.
Proof.
  intros Hrot. destruct d as [dx dy].
  destruct (drag_rotating center cam c dx dy Hrot) as [-> _].
  destruct (if decide _ then _ else _); [apply cameraRadius_rotate | done].
Qed.

Lemma drag_in_range center cam c d :
  rotating c -> 0 < cameraRadius center cam ->
  minPhi <= cameraPhi center cam <= maxPhi ->
  minPhi <= cameraPhi center (drag center (cam, c) d).1 <= maxPhi.
Proof.
  intros Hrot Hr Hin. destruct d as [dx dy].
  destruct (drag_rotating center cam c dx dy Hrot) as [-> _].
  destruct (if decide _ then _ else _); [|done].
  rewrite cameraPhi_rotate by done. apply clampPhi_range.
Qed.

Lemma dragSeq_in_range center ds : forall cam c,
  rotating c -> 0 < cameraRadius center cam ->
  minPhi <= cameraPhi center cam <= maxPhi ->
  minPhi <= cameraPhi center (dragSeq center (cam, c) ds).1 <= maxPhi.
Proof.
  induction ds as [|d ds IH]; intros cam c Hrot Hr Hin; [done|].
  unfold dragSeq. simpl. fold (dragSeq center (drag center (cam, c) d) ds).
  destruct (drag center (cam, c) d) as [cam1 c1] eqn:Hd.
  apply IH.
  - destruct d as [dx dy].
    pose proof (drag_rotating center cam c dx dy Hrot) as [_ H]. by rewrite Hd in H.
  - pose proof (drag_radius center cam c d Hrot) as H. rewrite Hd in H. simpl in H. lra.
  - pose proof (drag_in_range center cam c d Hrot Hr Hin) as H. by rewrite Hd in H.
Qed.

(** One move with a large positive [dy] from at or above the lower limit
    leaves phi exactly at the lower limit. *)
Lemma drag_down_reaches_minPhi center cam c dx dy :
  rotating c -> 0 < cameraRadius center cam ->
  minPhi <= cameraPhi center cam -> 400 <= dy ->
  cameraPhi center (drag center (cam, c) (dx, dy)).1 = minPhi.
Proof.
  intros Hrot Hr Hlo Hdy.
  destruct (drag_rotating center cam c dx dy Hrot) as [-> _].
  pose proof (cameraPhi_bound center cam) as [_ Hpi]. pose proof PI_4.
  assert (clampPhi (cameraPhi center cam - dy * 0.01) = minPhi) as Hclamp.
  { unfold clampPhi. case_decide as Hc; [done|]. unfold minPhi in *. lra. }
  case_decide.
  - rewrite bool_decide_eq_false_2 by lra. lra.
  - case_decide.
    + rewrite bool_decide_eq_true_2 by lra. by rewrite cameraPhi_rotate.
    + by rewrite cameraPhi_rotate.
Qed.

(** Symmetrically, a large negative [dy] from at or below the upper limit
    leaves phi exactly at the upper limit. *)
Lemma drag_up_reaches_maxPhi center cam c dx dy :
  rotating c -> 0 < cameraRadius center cam ->
  cameraPhi center cam <= maxPhi -> dy <= -400 ->
  cameraPhi center (drag center (cam, c) (dx, dy)).1 = maxPhi.
Proof.
  intros Hrot Hr Hhi Hdy.
  destruct (drag_rotating center cam c dx dy Hrot) as [-> _].
  pose proof (cameraPhi_bound center cam) as [H0 _]. pose proof PI_4.
  pose proof minPhi_lt_maxPhi as Hmm.
  assert (clampPhi (cameraPhi center cam - dy * 0.01) = maxPhi) as Hclamp.
  { unfold clampPhi. unfold minPhi, maxPhi in *.
    case_decide; [lra|]. case_decide; [done|lra]. }
  case_decide.
  - rewrite bool_decide_eq_true_2 by lra. by rewrite cameraPhi_rotate.
  - case_decide.
    + rewrite bool_decide_eq_false_2 by lra. lra.
    + by rewrite cameraPhi_rotate.
Qed.

Lemma iter_drag_invariant center d n : forall cam c,
  rotating c -> 0 < cameraRadius center cam ->
  rotating (Nat.iter n (fun w => drag center w d) (cam, c)).2 /\
  0 < cameraRadius center (Nat.iter n (fun w => drag center w d) (cam, c)).1.
Proof.
  induction n as [|n IH]; intros cam c Hrot Hr; [done|].
  simpl. destruct (IH cam c Hrot Hr) as [Hrot' Hr'].
  destruct (Nat.iter n _ _) as [cam1 c1]. simpl in *. split.
  - destruct d as [dx dy]. by apply drag_rotating.
  - rewrite drag_radius; done.
Qed.

Lemma iter_drag_down_pinned center cam c dx dy n :
  rotating c -> 0 < cameraRadius center cam ->
  minPhi <= cameraPhi center cam -> 400 <= dy ->
  cameraPhi center (Nat.iter (S n) (fun w => drag center w (dx, dy)) (cam, c)).1 = minPhi.
Proof.
  intros Hrot Hr Hlo Hdy. induction n as [|n IH].
  - simpl. by apply drag_down_reaches_minPhi.
  - change (Nat.iter (S (S n)) ?f ?x) with (f (Nat.iter (S n) f x)).
    destruct (iter_drag_invariant center (dx, dy) (S n) cam c Hrot Hr) as [Hrot' Hr'].
    destruct (Nat.iter (S n) _ _) as [cam1 c1]. simpl in IH, Hrot', Hr'.
    apply drag_down_reaches_minPhi; try done. lra.
Qed.

Lemma iter_drag_up_pinned center cam c dx dy n :
  rotating c -> 0 < cameraRadius center cam ->
  cameraPhi center cam <= maxPhi -> dy <= -400 ->
  cameraPhi center (Nat.iter (S n) (fun w => drag center w (dx, dy)) (cam, c)).1 = maxPhi.
Proof.
  intros Hrot Hr Hhi Hdy. induction n as [|n IH].
  - simpl. by apply drag_up_reaches_maxPhi.
  - change (Nat.iter (S (S n)) ?f ?x) with (f (Nat.iter (S n) f x)).
    destruct (iter_drag_invariant center (dx, dy) (S n) cam c Hrot Hr) as [Hrot' Hr'].
    destruct (Nat.iter (S n) _ _) as [cam1 c1]. simpl in IH, Hrot', Hr'.
    apply drag_up_reaches_maxPhi; try done. lra.
Qed.

(** From outside the range, moves in the direction the gate refuses leave the
    camera where it is, however many follow. *)
Lemma iter_drag_refused center cam c dx dy n :
  rotating c ->
  (cameraPhi center cam < minPhi /\ 0 <= dy) \/ (maxPhi < cameraPhi center cam /\ dy <= 0) ->
  (Nat.iter n (fun w => drag center w (dx, dy)) (cam, c)).1 = cam /\
  rotating (Nat.iter n (fun w => drag center w (dx, dy)) (cam, c)).2.
Proof.
  intros Hrot Hout. induction n as [|n [IH1 IH2]]; [done|].
  simpl. destruct (Nat.iter n _ _) as [cam1 c1]. simpl in IH1, IH2. subst cam1.
  destruct (drag_rotating center cam c1 dx dy IH2) as [Hd Hrot'].
  split; [|done]. rewrite Hd. pose proof minPhi_lt_maxPhi.
  destruct Hout as [[Hlo Hdy]|[Hhi Hdy]].
  - rewrite decide_True by lra. by rewrite bool_decide_eq_false_2 by lra.
  - rewrite decide_False by lra. rewrite decide_True by lra.
    by rewrite bool_decide_eq_false_2 by lra.
Qed.

(** C1 (amended): while rotating about a pivot the camera is away from, the
    polar angle written by [rotate] lies in [minPhi, maxPhi] and every rotate
    input sequence keeps a phi of that range in it; at or below the lower limit
    a move is applied only if [dy < 0], at or above the upper limit only if
    [dy > 0].  Started at or above the lower limit, a large positive [dy]
    drives phi to the lower limit [minPhi] and keeps it there; started at or
    below the upper limit, a large negative [dy] does the same at the upper
    limit [maxPhi].  Started strictly outside the range, moves in the refused
    direction never move the camera. *)
Theorem orbit_phi_clamped :
  forall (center : Vector3) (cam : Camera) (c : t),
    rotating c -> 0 < cameraRadius center cam ->
    (forall dx dy,
        minPhi <= cameraPhi center (rotate center cam c dx dy).1 <= maxPhi) /\
    (forall ds, minPhi <= cameraPhi center cam <= maxPhi ->
        minPhi <= cameraPhi center (dragSeq center (cam, c) ds).1 <= maxPhi) /\
    (forall dx dy, cameraPhi center cam <= minPhi ->
        (drag center (cam, c) (dx, dy)).1 =
          if bool_decide (dy < 0) then (rotate center cam c dx dy).1 else cam) /\
    (forall dx dy, maxPhi <= cameraPhi center cam ->
        (drag center (cam, c) (dx, dy)).1 =
          if bool_decide (0 < dy) then (rotate center cam c dx dy).1 else cam) /\
    (forall dx dy n, minPhi <= cameraPhi center cam -> 400 <= dy ->
        cameraPhi center (Nat.iter (S n) (fun w => drag center w (dx, dy)) (cam, c)).1
          = minPhi) /\
    (forall dx dy n, cameraPhi center cam <= maxPhi -> dy <= -400 ->
        cameraPhi center (Nat.iter (S n) (fun w => drag center w (dx, dy)) (cam, c)).1
          = maxPhi) /\
    (forall dx dy n, cameraPhi center cam < minPhi -> 0 <= dy ->
        (Nat.iter n (fun w => drag center w (dx, dy)) (cam, c)).1 = cam) /\
    (forall dx dy n, maxPhi < cameraPhi center cam -> dy <= 0 ->
        (Nat.iter n (fun w => drag center w (dx, dy)) (cam, c)).1 = cam).
Proof.
  intros center cam c Hrot Hr.
  split; [|split; [|split; [|split; [|split; [|split; [|split]]]]]].
  - intros dx dy. rewrite cameraPhi_rotate by done. apply clampPhi_range.
  - intros ds Hin. by apply dragSeq_in_range.
  - intros dx dy Hlo.
    destruct (drag_rotating center cam c dx dy Hrot) as [-> _].
    by rewrite decide_True.
  - intros dx dy Hhi. pose proof minPhi_lt_maxPhi.
    destruct (drag_rotating center cam c dx dy Hrot) as [-> _].
    rewrite decide_False by lra. by rewrite decide_True.
  - intros dx dy n Hlo Hdy. by apply iter_drag_down_pinned.
  - intros dx dy n Hhi Hdy. by apply iter_drag_up_pinned.
  - intros dx dy n Hlo Hdy. apply iter_drag_refused; [done|]. by left.
  - intros dx dy n Hhi Hdy. apply iter_drag_refused; [done|]. by right.
Qed.

Lemma heldControls_rotating : rotating heldControls.
Proof. by repeat split. Qed.

Lemma levelCamera_phi : cameraPhi (vec3 0 0 0) levelCamera = PI / 2.
Proof.
  unfold cameraPhi, cameraSpherical, setFromVector3, levelCamera. simpl.
  replace (sqrt _) with 10.
  2:{ symmetry. replace (_ + _ + _) with (10 * 10) by ring. apply sqrt_square. lra. }
  case_decide; [lra|]. simpl.
  replace ((0 - 0) / 10) with 0 by (field; lra).
  unfold clamp. rewrite Rmin_right by lra. rewrite Rmax_right by lra.
  apply acos_0.
Qed.

Lemma levelCamera_off_origin : position levelCamera <> vec3 0 0 0.
Proof. simpl. intros [=]. lra. Qed.

Lemma orbit_phi_clamped_witness :
  minPhi <= cameraPhi (vec3 0 0 0)
              (rotate (vec3 0 0 0) initialCamera heldControls 3 4).1 <= maxPhi /\
  cameraPhi (vec3 0 0 0)
    (Nat.iter 3 (fun w => drag (vec3 0 0 0) w (0, 1000)) (levelCamera, heldControls)).1
  = minPhi.
Proof.
  split.
  - exact (proj1 (orbit_phi_clamped (vec3 0 0 0) initialCamera heldControls
                    heldControls_rotating
                    (cameraRadius_pos _ _ initialCamera_off_origin)) 3 4).
  - destruct (orbit_phi_clamped (vec3 0 0 0) levelCamera heldControls
                heldControls_rotating
                (cameraRadius_pos _ _ levelCamera_off_origin))
      as (_ & _ & _ & _ & Hdown & _).
    apply (Hdown 0 1000 2%nat).
    + rewrite levelCamera_phi. pose proof PI2_1. unfold minPhi. lra.
    + lra.
Defined.

(** Counterexample to C1 as stated: from a camera level with the pivot (phi =
    PI/2), one, two and three moves with [dy = +1000] leave phi at the lower
    limit [minPhi], never at [maxPhi]. *)
Lemma positive_dy_reaches_lower_limit :
  let step := fun w => drag (vec3 0 0 0) w (0, 1000) in
  cameraPhi (vec3 0 0 0) (Nat.iter 1 step (levelCamera, heldControls)).1 = minPhi /\
  cameraPhi (vec3 0 0 0) (Nat.iter 2 step (levelCamera, heldControls)).1 = minPhi /\
  cameraPhi (vec3 0 0 0) (Nat.iter 3 step (levelCamera, heldControls)).1 = minPhi /\
  minPhi <> maxPhi.
Proof.
  assert (minPhi <= cameraPhi (vec3 0 0 0) levelCamera) as Hlo.
  { rewrite levelCamera_phi. pose proof PI2_1. unfold minPhi. lra. }
  pose proof (cameraRadius_pos _ _ levelCamera_off_origin) as Hr.
  pose proof heldControls_rotating as Hrot.
  repeat split.
  - apply (iter_drag_down_pinned _ _ _ 0 1000 0); try done. lra.
  - apply (iter_drag_down_pinned _ _ _ 0 1000 1); try done. lra.
  - apply (iter_drag_down_pinned _ _ _ 0 1000 2); try done. lra.
  - pose proof minPhi_lt_maxPhi. lra.
Qed.

End OrbitProps.

Section ResizeProps.
Import Three ThreeJSViewer ResizeSpec.
Local Open Scope R_scope.

Lemma updateCameraFrustum_frustumSize container v :
  frustumSize (updateCameraFrustum container v) = frustumSize v.
Proof.
  unfold updateCameraFrustum.
  destruct (isOrthographicCamera (camera v)); simpl; [|done].
  destruct (_ || _); done.
Qed.

Lemma updateCameraFrustum_controls container v :
  controls (updateCameraFrustum container v) = controls v.
Proof.
  unfold updateCameraFrustum.
  destruct (isOrthographicCamera (camera v)); simpl; [|done].
  destruct (_ || _); done.
Qed.

(** The half-extents [updateCameraFrustum] writes for a positive viewport. *)
Lemma updateCameraFrustum_extents container v :
  isOrthographicCamera (camera v) = true ->
  0 < rectWidth container -> 0 < rectHeight container ->
  let s := if decide (frustumSize v = 0) then 20 else frustumSize v in
  let cam := camera (updateCameraFrustum container v) in
  isOrthographicCamera cam = true /\
  top cam = s * 0.5 /\ bottom cam = - (s * 0.5) /\
  right cam = s * 0.5 * (rectWidth container / rectHeight container) /\
  left cam = - (s * 0.5 * (rectWidth container / rectHeight container)).
Proof.
  intros Ho Hw Hh s cam. subst cam. unfold updateCameraFrustum.
  rewrite Ho. simpl.
  rewrite !bool_decide_eq_false_2 by lra. simpl. by rewrite Ho.
Qed.

(** What [onWindowResize] leaves in the camera when controls are attached. *)
Lemma onWindowResize_extents container v c :
  isOrthographicCamera (camera v) = true ->
  controls v = Some c ->
  0 < rectWidth container -> 0 < rectHeight container ->
  let v' := onWindowResize container v in
  let aspect := rectWidth container / rectHeight container in
  right (camera v') = top (camera v) * aspect /\
  left (camera v') = - (top (camera v) * aspect) /\
  top (camera v') = top (camera v) /\
  bottom (camera v') = - top (camera v) /\
  frustumSize v' = frustumSize v.
Proof.
  intros Ho Hc Hw Hh v' aspect. subst v'.
  destruct (updateCameraFrustum_extents container v Ho Hw Hh)
    as (Ho1 & Ht1 & _ & Hr1 & _).
  pose proof (updateCameraFrustum_frustumSize container v) as Hf.
  pose proof (updateCameraFrustum_controls container v) as Hc1.
  unfold onWindowResize. rewrite Hc1, Hc. simpl.
  unfold SimpleOrbitControls.setZoom, SimpleOrbitControls.getZoom.
  rewrite Ho1, Ho. simpl. rewrite Hr1, Ht1, Hf.
  set (s := if decide (frustumSize v = 0) then 20 else frustumSize v).
  assert (s <> 0) as Hs by (subst s; case_decide; lra).
  fold aspect.
  assert (s * 0.5 * aspect / (s * 0.5) = aspect) as -> by (field; lra).
  repeat split; ring.
Qed.

(** C2 (amended): a resize to a positive viewport recomputes the orthographic
    half-extents from the new aspect ratio and the zoom level in force: the
    half-width becomes (current half-height) x aspect, which is
    (frustumSize / 2) x aspect whenever the half-height is frustumSize / 2, and
    the half-height and the cached [frustumSize] are left unchanged. *)
Theorem resize_keeps_zoom :
  forall (container : Container) (v : t) (c : SimpleOrbitControls.t),
    isOrthographicCamera (camera v) = true ->
    controls v = Some c ->
    0 < rectWidth container -> 0 < rectHeight container ->
    let v' := onWindowResize container v in
    let aspect := rectWidth container / rectHeight container in
    right (camera v') = top (camera v) * aspect /\
    left (camera v') = - right (camera v') /\
    top (camera v') = top (camera v) /\
    bottom (camera v') = - top (camera v) /\
    frustumSize v' = frustumSize v /\
    (top (camera v) = frustumSize v / 2 ->
     right (camera v') = frustumSize v / 2 * aspect).
Proof.
  intros container v c Ho Hc Hw Hh v' aspect.
  destruct (onWindowResize_extents container v c Ho Hc Hw Hh)
    as (Hr & Hl & Ht & Hb & Hf).
  fold v' aspect in Hr, Hl, Ht, Hb, Hf.
  repeat split; try done.
  - rewrite Hl, Hr. done.
  - intros Htop. by rewrite Hr, Htop.
Qed.

Lemma resize_keeps_zoom_witness :
  let v' := onWindowResize resizedContainer freshViewer in
  right (camera v') = top (camera freshViewer) * (800 / 400) /\
  left (camera v') = - right (camera v') /\
  top (camera v') = top (camera freshViewer) /\
  bottom (camera v') = - top (camera freshViewer) /\
  frustumSize v' = frustumSize freshViewer /\
  (top (camera freshViewer) = frustumSize freshViewer / 2 ->
   right (camera v') = frustumSize freshViewer / 2 * (800 / 400)).
Proof.
  apply (resize_keeps_zoom resizedContainer freshViewer
           (SimpleOrbitControls.mkControls
              (vec3 0 0 0)
              (SimpleOrbitControls.mkState false false false false 0 0 0 0)
              true true true false 0.5 1 1000 900 600)).
  - reflexivity.
  - reflexivity.
  - simpl. lra.
  - simpl. lra.
Defined.

Lemma freshViewer_wheel_top :
  top (camera (onWheel freshViewer (-1))) = 9.5 /\
  frustumSize (onWheel freshViewer (-1)) = 20 /\
  isOrthographicCamera (camera (onWheel freshViewer (-1))) = true.
Proof.
  unfold onWheel, freshViewer. simpl.
  unfold SimpleOrbitControls.onWheel, SimpleOrbitControls.zoomOrthographic. simpl.
  rewrite decide_True by lra.
  rewrite !bool_decide_eq_true_2 by lra. simpl.
  repeat split; try done. lra.
Qed.

(** Counterexample to C2 as stated: after one wheel step towards the model
    (half-height 9.5 with [frustumSize] still 20), a resize to aspect 2 gives
    half-width 19, not (frustumSize / 2) x aspect = 20. *)
Lemma resize_after_wheel_zoom :
  let v := onWheel freshViewer (-1) in
  let v' := onWindowResize resizedContainer v in
  right (camera v') = 19 /\
  frustumSize v' / 2 * (rectWidth resizedContainer / rectHeight resizedContainer) = 20 /\
  right (camera v') <> frustumSize v' / 2 * (rectWidth resizedContainer / rectHeight resizedContainer).
Proof.
  intros v v'.
  destruct freshViewer_wheel_top as (Ht & Hf & Ho). fold v in Ht, Hf, Ho.
  assert (exists c, controls v = Some c) as [c Hc] by (eexists; reflexivity).
  destruct (onWindowResize_extents resizedContainer v c Ho Hc) as (Hr & _ & _ & _ & Hf');
    [simpl; lra | simpl; lra |].
  fold v' in Hr, Hf'. rewrite Hr, Hf', Hf, Ht. simpl.
  repeat split; try lra.
Qed.

End ResizeProps.

Section RendererProps.
Import Scene ModelRenderer RendererSpec.

Lemma colorMap_nonzero ty hex : colorMap !! ty = Some hex -> hex <> 0%N.
Proof.
  revert ty hex. change (map_Forall (fun _ hex => hex <> 0%N) colorMap).
  unfold colorMap.
  repeat (rewrite list_to_map_cons; apply map_Forall_insert_2; [done|]).
  rewrite list_to_map_nil. apply map_Forall_empty.
Qed.

(** The colour of a type is its table entry, or the default colour. *)
Lemma getColorByIfcType_lookup ty :
  getColorByIfcType ty = ColorHex (default defaultColor (colorMap !! ty)).
Proof.
  unfold getColorByIfcType.
  destruct (colorMap !! ty) as [hex|] eqn:Hty; [|done].
  apply colorMap_nonzero in Hty. by rewrite decide_False.
Qed.

Lemma createWireframe_scene st mesh sc :
  scene st = Some sc ->
  exists sc', scene (createWireframe st mesh) = Some sc' /\
              (forall r, r < nextId sc -> heap sc' !! r = heap sc !! r) /\
              (forall r, is_Some (heap sc !! r) -> is_Some (heap sc' !! r)) /\
              nextId sc <= nextId sc'.
Proof.
  intros Hsc. unfold createWireframe. rewrite Hsc.
  destruct (heap sc !! mesh) as [m|]; [|by exists sc].
  simpl. eexists. split; [done|]. simpl. split; [|split; [|lia]].
  - intros r Hr. by rewrite lookup_insert_ne by lia.
  - intros r Hr. destruct (decide (nextId sc = r)) as [<-|Hne].
    + by rewrite lookup_insert_eq.
    + by rewrite lookup_insert_ne.
Qed.

Lemma createWireframe_ifcObjects st mesh :
  ifcObjects (createWireframe st mesh) = ifcObjects st /\
  showWireframe (createWireframe st mesh) = showWireframe st.
Proof.
  unfold createWireframe.
  destruct (scene st) as [sc|]; [|done].
  destruct (heap sc !! mesh); done.
Qed.

(** [addIfcGeometry] on a descriptor whose material resolves: one new mesh,
    whatever its vertices and faces are. *)
Lemma addIfcGeometry_resolved st sc d m :
  scene st = Some sc -> resolveMaterial d = Some m ->
  (addIfcGeometry st d).2 = Some (nextId sc) /\
  ifcObjects (addIfcGeometry st d).1 = ifcObjects st ++ [nextId sc] /\
  objectAt (addIfcGeometry st d).1 (nextId sc) = Some (meshOf d m) /\
  is_Some (scene (addIfcGeometry st d).1) /\
  showWireframe (addIfcGeometry st d).1 = showWireframe st.
Proof.
  intros Hsc Hm. unfold addIfcGeometry, resolveMaterial in *. rewrite Hsc.
  cbv zeta in Hm |- *. rewrite Hm.
  cbn [alloc add Scene.heap Scene.children Scene.nextId fst snd].
  fold (meshOf d m).
  set (st1 := mkRenderer _ _ _ _).
  assert (scene st1 = Some (add (alloc sc (meshOf d m)).1 (nextId sc))) as Hst1 by done.
  destruct (showWireframe st1) eqn:Hshow.
  - destruct (createWireframe_scene st1 (nextId sc) _ Hst1) as (sc' & Hsc' & Hkeep & _ & _).
    destruct (createWireframe_ifcObjects st1 (nextId sc)) as [Hifc Hsw].
    cbn [fst snd]. rewrite Hifc, Hsw, Hsc'. repeat split; try done.
    unfold objectAt. rewrite Hsc'. simpl. rewrite Hkeep by (simpl; lia).
    simpl. by rewrite lookup_insert_eq.
  - cbn [fst snd]. repeat split; try done.
    unfold objectAt. simpl. by rewrite lookup_insert_eq.
Qed.

(** [addIfcGeometry] on a descriptor whose material resolution throws. *)
Lemma addIfcGeometry_unresolved st d :
  resolveMaterial d = None -> addIfcGeometry st d = (st, None).
Proof.
  intros Hm. unfold addIfcGeometry, resolveMaterial in *.
  destruct (scene st) as [sc|]; [|done].
  cbv zeta in Hm |- *. by rewrite Hm.
Qed.

Lemma resolveMaterial_ingestible d :
  ingestible d = true -> is_Some (resolveMaterial d).
Proof.
  unfold ingestible, hasColor, resolveMaterial. intros Hing.
  destruct (colorHEX d) as [hex|]; simpl in Hing.
  - destruct (JsString.truthy hex); simpl in Hing.
    + destruct (transparency d); [destruct (_ <? _)%float|]; done.
    + case_bool_decide as Hty; [|done]. destruct Hty as [ty ->].
      destruct (JsString.includes _ _); done.
  - case_bool_decide as Hty; [|done]. destruct Hty as [ty ->].
    destruct (JsString.includes _ _); done.
Qed.

Lemma resolveMaterial_not_ingestible d :
  ingestible d = false -> resolveMaterial d = None.
Proof.
  unfold ingestible, hasColor, resolveMaterial. intros Hing.
  apply orb_false_iff in Hing as [Hc Hty].
  apply bool_decide_eq_false in Hty.
  destruct (ifcType d) as [ty|]; [destruct Hty; eauto|].
  destruct (colorHEX d) as [hex|]; [|done].
  by rewrite Hc.
Qed.

Lemma addIfcGeometry_skipped st d :
  ingestible d = false -> addIfcGeometry st d = (st, None).
Proof.
  intros Hing. by apply addIfcGeometry_unresolved, resolveMaterial_not_ingestible.
Qed.

Lemma addIfcGeometry_keeps_scene st d :
  is_Some (scene st) -> is_Some (scene (addIfcGeometry st d).1).
Proof.
  intros [sc Hsc]. destruct (resolveMaterial d) as [m|] eqn:Hm.
  - by destruct (addIfcGeometry_resolved st sc d m Hsc Hm) as (_ & _ & _ & ? & _).
  - rewrite addIfcGeometry_unresolved by done. simpl. by rewrite Hsc.
Qed.

Lemma addIfcGeometries_unfold st ds :
  is_Some (scene st) ->
  addIfcGeometries st ds = fold_left (fun st d => (addIfcGeometry st d).1) ds st.
Proof. intros [sc Hsc]. unfold addIfcGeometries. by rewrite Hsc. Qed.

Lemma addIfcGeometries_cons st d ds :
  is_Some (scene st) ->
  addIfcGeometries st (d :: ds) = addIfcGeometries (addIfcGeometry st d).1 ds.
Proof.
  intros Hsc. rewrite !addIfcGeometries_unfold; [done| |done].
  by apply addIfcGeometry_keeps_scene.
Qed.

(** A batch adds one mesh per descriptor it can ingest. *)
Lemma addIfcGeometries_count ds : forall st,
  is_Some (scene st) ->
  length (ifcObjects (addIfcGeometries st ds)) =
  length (ifcObjects st) + length (List.filter ingestible ds).
Proof.
  induction ds as [|d ds IH]; intros st Hsc.
  - rewrite addIfcGeometries_unfold by done. simpl. lia.
  - rewrite addIfcGeometries_cons by done.
    rewrite IH by (by apply addIfcGeometry_keeps_scene).
    simpl. destruct (ingestible d) eqn:Hing.
    + destruct Hsc as [sc Hsc].
      destruct (resolveMaterial_ingestible d Hing) as [m Hm].
      destruct (addIfcGeometry_resolved st sc d m Hsc Hm) as (_ & -> & _).
      rewrite length_app. simpl. lia.
    + rewrite addIfcGeometry_skipped by done. simpl. lia.
Qed.

(** A descriptor that throws leaves no trace in the batch. *)
Lemma addIfcGeometries_skip ds1 bad ds2 : forall st,
  is_Some (scene st) -> ingestible bad = false ->
  addIfcGeometries st (ds1 ++ bad :: ds2) = addIfcGeometries st (ds1 ++ ds2).
Proof.
  induction ds1 as [|d ds1 IH]; intros st Hsc Hbad; simpl.
  - rewrite addIfcGeometries_cons by done.
    by rewrite addIfcGeometry_skipped.
  - rewrite !addIfcGeometries_cons by done.
    apply IH; [|done]. by apply addIfcGeometry_keeps_scene.
Qed.

(** C6 (amended): ingestion does not validate the vertex and index arrays: every
    descriptor with a colour or an element type yields one Drawable, whatever
    its arrays hold.  A descriptor whose ingestion throws (neither colour nor
    element type) is caught per item and skipped, no Drawable is added for it,
    and the remaining items of the batch are ingested as if it were not
    there. *)
Theorem ingestion_skips_throwing_items :
  forall (st : t) (sc : Scene.t),
    scene st = Some sc ->
    (forall d, ingestible d = true ->
       (addIfcGeometry st d).2 = Some (nextId sc) /\
       ifcObjects (addIfcGeometry st d).1 = ifcObjects st ++ [nextId sc] /\
       exists m, objectAt (addIfcGeometry st d).1 (nextId sc) = Some m /\
                 geometry m =
                   BufferGeometry
                     (CoordinateConverter.convertIFCToThreeJS (default [] (vertices d)))
                     (default [] (faces d))) /\
    (forall d, ingestible d = false -> addIfcGeometry st d = (st, None)) /\
    (forall ds1 bad ds2, ingestible bad = false ->
       addIfcGeometries st (ds1 ++ bad :: ds2) = addIfcGeometries st (ds1 ++ ds2)) /\
    (forall ds,
       length (ifcObjects (addIfcGeometries st ds)) =
       length (ifcObjects st) + length (List.filter ingestible ds)).
Proof.
  intros st sc Hsc. split; [|split; [|split]].
  - intros d Hing.
    destruct (resolveMaterial_ingestible d Hing) as [m Hm].
    destruct (addIfcGeometry_resolved st sc d m Hsc Hm) as (Hret & Hifc & Hobj & _).
    eauto.
  - intros d. apply addIfcGeometry_skipped.
  - intros ds1 bad ds2. by apply addIfcGeometries_skip.
  - intros ds. by apply addIfcGeometries_count.
Qed.

Lemma ingestion_skips_throwing_items_witness :
  addIfcGeometries emptyRenderer ([redTriangle] ++ untyped :: [plainWindow]) =
  addIfcGeometries emptyRenderer ([redTriangle] ++ [plainWindow]).
Proof.
  exact (proj1 (proj2 (proj2
           (ingestion_skips_throwing_items emptyRenderer Scene.empty eq_refl)))
           [redTriangle] untyped [plainWindow] eq_refl).
Defined.

(** Counterexample to C6 as stated: a descriptor with empty vertex and index
    arrays is not rejected; a Drawable with an empty geometry is added. *)
Lemma empty_descriptor_is_ingested :
  ifcObjects (addIfcGeometries emptyRenderer [emptyWall]) = [0] /\
  (geometry <$> objectAt (addIfcGeometries emptyRenderer [emptyWall]) 0)
    = Some (BufferGeometry [] []) /\
  childRefs (default Scene.empty (scene (addIfcGeometries emptyRenderer [emptyWall]))) = [0].
Proof. vm_compute. done. Qed.

Lemma prefix_app needle haystack :
  String.prefix needle haystack = true <-> exists post, haystack = (needle ++ post)%string.
Proof.
  revert haystack. induction needle as [|a needle IH]; intros [|b haystack]; simpl.
  - split; [by exists EmptyString|done].
  - split; [by exists (String b haystack)|done].
  - split; [done|]. by intros [post ?].
  - destruct (Ascii.ascii_dec a b) as [->|Hne].
    + rewrite IH. split; intros [post Hp]; exists post.
      * rewrite Hp. reflexivity.
      * change (String b needle +:+ post) with (String b (needle +:+ post)) in Hp.
        by injection Hp.
    + split; [done|]. intros [post Hp].
      change (String a needle +:+ post) with (String a (needle +:+ post)) in Hp.
      injection Hp as ? ?. done.
Qed.

(** [haystack.includes(needle)]: the needle occurs somewhere in it. *)
Lemma includes_occurs needle haystack :
  JsString.includes needle haystack = true <->
  exists pre post, haystack = (pre ++ needle ++ post)%string.
Proof.
  induction haystack as [|a haystack IH]; cbn [JsString.includes].
  - rewrite orb_false_r, prefix_app. split.
    + intros [post Hp]. by exists EmptyString, post.
    + intros (pre & post & Hp). destruct pre; [|done]. eauto.
  - rewrite orb_true_iff, prefix_app, IH. split.
    + intros [[post Hp]|(pre & post & Hp)].
      * by exists EmptyString, post.
      * exists (String a pre), post. rewrite Hp. reflexivity.
    + intros ([|b pre] & post & Hp).
      * left. eauto.
      * right.
        change (String b pre +:+ needle +:+ post)
          with (String b (pre +:+ needle +:+ post)) in Hp.
        injection Hp as _ Hp. eauto.
Qed.

(** A binary64 value that is at most 1 and not below 1 is 1. *)
Lemma leb_not_ltb_one (x : float) :
  (x <=? 1)%float = true -> (x <? 1)%float = false -> x = 1%float.
Proof.
  rewrite leb_spec, ltb_spec. unfold SFleb, SFltb.
  assert (Prim2SF 1 = S754_finite false 4503599627370496 (-52)) as H1
    by (vm_compute; reflexivity).
  intros Hle Hlt. apply Prim2SF_inj. rewrite H1 in *. clear H1.
  set (m1 := 4503599627370496%positive) in *. clearbody m1.
  set (e1 := (-52)%Z) in *. clearbody e1.
  destruct (Prim2SF x) as [s|s| |s m e]; cbn [SFcompare] in Hle, Hlt.
  - by destruct s.
  - by destruct s.
  - done.
  - destruct s; [done|].
    destruct (e ?= e1)%Z eqn:He; try done.
    apply Z.compare_eq in He as ->.
    change (PosDef.Pos.compare_cont Eq m m1) with (Pos.compare m m1) in *.
    destruct (Pos.compare m m1) eqn:Hm; try done.
    by apply Pos.compare_eq in Hm as ->.
Qed.

(** C7: material resolution.  With a colour present the fill colour is that
    hex string, and with a transparency [tr] too the opacity is [1 - tr]
    whenever that value is at most 1, the material being flagged translucent
    exactly when it is below 1 (a value above 1 is not taken: the opacity then
    stays 1).  Without a colour, an element type in which "Window" occurs gets
    the fixed translucent override, and every other type its entry in the
    table, which is the palette listed, or the default colour when the table has
    none. *)
Theorem material_resolution :
  forall (st : t) (sc : Scene.t) (d : GeometryData),
    scene st = Some sc ->
    (forall hex, colorHEX d = Some hex -> JsString.truthy hex = true ->
       exists m,
         (addIfcGeometry st d).2 = Some (nextId sc) /\
         material <$> objectAt (addIfcGeometry st d).1 (nextId sc) = Some m /\
         color m = ColorStyle ("#" ++ hex)%string /\
         (transparency d = None -> transparent m = false /\ opacity m = 1%float) /\
         (forall tr, transparency d = Some tr ->
            transparent m = (1 - tr <? 1)%float /\
            opacity m = (if (1 - tr <? 1)%float then (1 - tr)%float else 1%float) /\
            ((1 - tr <=? 1)%float = true ->
             opacity m = (1 - tr)%float /\ transparent m = (opacity m <? 1)%float))) /\
    (forall ty, hasColor d = false -> ifcType d = Some ty ->
       exists m,
         (addIfcGeometry st d).2 = Some (nextId sc) /\
         material <$> objectAt (addIfcGeometry st d).1 (nextId sc) = Some m /\
         ((exists pre post, ty = (pre ++ "Window" ++ post)%string) ->
          color m = ColorHex 0x54a000%N /\ transparent m = true /\
          opacity m = 0.7%float) /\
         ((~ exists pre post, ty = (pre ++ "Window" ++ post)%string) ->
          color m = ColorHex (default defaultColor (colorMap !! ty)) /\
          transparent m = false /\ opacity m = 1%float)) /\
    Forall (fun entry : string * N => colorMap !! entry.1 = Some entry.2)
      [ ("IfcWall", 0x4ecdc4%N); ("IfcWallStandardCase", 0x4ecdc4%N);
        ("IfcCurtainWall", 0x45b7d1%N);
        ("IfcWindow", 0x54a0ff%N); ("IfcWindowStyle", 0x54a0ff%N);
        ("IfcDoor", 0xfeca57%N); ("IfcDoorStyle", 0xfeca57%N);
        ("IfcRoof", 0xff6b6b%N); ("IfcSlab", 0xff6b6b%N); ("IfcRoofType", 0xff6b6b%N);
        ("IfcFloor", 0x96ceb4%N); ("IfcFloorType", 0x96ceb4%N);
        ("IfcColumn", 0xff9f43%N); ("IfcColumnType", 0xff9f43%N);
        ("IfcBeam", 0x5f27cd%N); ("IfcBeamType", 0x5f27cd%N);
        ("IfcStair", 0x00d2d3%N); ("IfcRailing", 0xff9ff3%N);
        ("IfcSpace", 0xddd6fe%N); ("IfcZone", 0xddd6fe%N);
        ("default", 0xee5a24%N) ]%string /\
    (forall ty : string,
       ty ∉ [ "IfcWall"; "IfcWallStandardCase"; "IfcCurtainWall"; "IfcWindow";
              "IfcWindowStyle"; "IfcDoor"; "IfcDoorStyle"; "IfcRoof"; "IfcSlab";
              "IfcRoofType"; "IfcFloor"; "IfcFloorType"; "IfcColumn"; "IfcColumnType";
              "IfcBeam"; "IfcBeamType"; "IfcStair"; "IfcRailing"; "IfcSpace"; "IfcZone";
              "default" ]%string ->
       colorMap !! ty = None) /\
    defaultColor = 0xee5a24%N.
Proof.
  intros st sc d Hsc. split; [|split; [|split; [|split]]].
  - intros hex Hhex Htruthy.
    assert (exists m, resolveMaterial d = Some m /\
              color m = ColorStyle ("#" ++ hex)%string /\
              (transparency d = None -> transparent m = false /\ opacity m = 1%float) /\
              (forall tr, transparency d = Some tr ->
                 transparent m = (1 - tr <? 1)%float /\
                 opacity m = if (1 - tr <? 1)%float then (1 - tr)%float else 1%float))
      as (m & Hm & Hcol & Hnone & Hsome).
    { unfold resolveMaterial. rewrite Hhex, Htruthy.
      destruct (transparency d) as [tr|]; [destruct (1 - tr <? 1)%float eqn:Hop|].
      all: eexists; split; [done|]; simpl.
      all: repeat split; try done.
      all: match goal with H : Some _ = Some _ |- _ => injection H as <- end.
      all: by rewrite Hop. }
    destruct (addIfcGeometry_resolved st sc d m Hsc Hm) as (Hret & _ & Hobj & _).
    exists m. rewrite Hobj. split; [done|]. split; [done|]. split; [done|].
    split; [done|]. intros tr Htr. destruct (Hsome tr Htr) as [Ht Ho].
    split; [done|]. split; [done|]. intros Hle.
    assert (opacity m = (1 - tr)%float) as Hop.
    { rewrite Ho. destruct (1 - tr <? 1)%float eqn:Hlt; [done|].
      symmetry. by apply leb_not_ltb_one. }
    split; [done|]. by rewrite Hop.
  - intros ty Hcol Hty.
    assert (exists m, resolveMaterial d = Some m /\
              if JsString.includes "Window" ty
              then color m = ColorHex 0x54a000%N /\ transparent m = true /\
                   opacity m = 0.7%float
              else color m = ColorHex (default defaultColor (colorMap !! ty)) /\
                   transparent m = false /\ opacity m = 1%float)
      as (m & Hm & Hprops).
    { unfold resolveMaterial. rewrite Hty. unfold hasColor in Hcol.
      rewrite <- getColorByIfcType_lookup.
      destruct (colorHEX d) as [hex|]; [rewrite Hcol|].
      all: destruct (JsString.includes "Window" ty); eexists; split; done. }
    destruct (addIfcGeometry_resolved st sc d m Hsc Hm) as (Hret & _ & Hobj & _).
    exists m. rewrite Hobj. split; [done|]. split; [done|].
    destruct (JsString.includes "Window" ty) eqn:Hinc.
    + split; [done|]. intros Hno. exfalso. apply Hno. by apply includes_occurs.
    + split; [|done]. intros Hocc. apply includes_occurs in Hocc. congruence.
  - repeat (apply List.Forall_cons; [vm_compute; reflexivity|]). apply List.Forall_nil.
  - intros ty Hty. unfold colorMap. by apply not_elem_of_list_to_map_1.
  - reflexivity.
Qed.

Lemma material_resolution_witness :
  (exists m,
     (addIfcGeometry emptyRenderer redTriangle).2 = Some (nextId Scene.empty) /\
     material <$> objectAt (addIfcGeometry emptyRenderer redTriangle).1 (nextId Scene.empty)
       = Some m /\
     color m = ColorStyle "#FF0000"%string /\
     transparent m = true /\ opacity m = 0.75%float) /\
  (exists m,
     material <$> objectAt (addIfcGeometry emptyRenderer (coloured 0)).1 (nextId Scene.empty)
       = Some m /\
     transparent m = false /\ opacity m = 1%float) /\
  (exists m,
     material <$> objectAt (addIfcGeometry emptyRenderer (coloured 1)).1 (nextId Scene.empty)
       = Some m /\
     transparent m = true /\ opacity m = 0%float) /\
  (exists m,
     (addIfcGeometry emptyRenderer plainWindow).2 = Some (nextId Scene.empty) /\
     material <$> objectAt (addIfcGeometry emptyRenderer plainWindow).1 (nextId Scene.empty)
       = Some m /\
     color m = ColorHex 0x54a000%N /\ transparent m = true /\ opacity m = 0.7%float) /\
  (exists m,
     material <$> objectAt (addIfcGeometry emptyRenderer emptyWall).1 (nextId Scene.empty)
       = Some m /\
     color m = ColorHex 0x4ecdc4%N /\ transparent m = false /\ opacity m = 1%float).
Proof.
  split; [|split; [|split; [|split]]].
  - destruct (proj1 (material_resolution emptyRenderer Scene.empty redTriangle eq_refl)
                "FF0000"%string eq_refl eq_refl) as (m & H1 & H2 & H3 & _ & H5).
    destruct (H5 0.25%float eq_refl) as (Ht & _ & Ho).
    exists m. split; [exact H1|]. split; [exact H2|]. split; [exact H3|].
    split; [exact Ht|]. apply Ho. reflexivity.
  - destruct (proj1 (material_resolution emptyRenderer Scene.empty (coloured 0) eq_refl)
                "808080"%string eq_refl eq_refl) as (m & _ & H2 & _ & _ & H5).
    destruct (H5 0%float eq_refl) as (Ht & _ & Ho).
    exists m. split; [exact H2|]. split; [exact Ht|]. apply Ho. reflexivity.
  - destruct (proj1 (material_resolution emptyRenderer Scene.empty (coloured 1) eq_refl)
                "808080"%string eq_refl eq_refl) as (m & _ & H2 & _ & _ & H5).
    destruct (H5 1%float eq_refl) as (Ht & _ & Ho).
    exists m. split; [exact H2|]. split; [exact Ht|]. apply Ho. reflexivity.
  - destruct (proj1 (proj2 (material_resolution emptyRenderer Scene.empty plainWindow eq_refl))
                "IfcWindow"%string eq_refl eq_refl) as (m & H1 & H2 & Hwin & _).
    exists m. split; [exact H1|]. split; [exact H2|].
    apply Hwin. by exists "Ifc"%string, EmptyString.
  - destruct (proj1 (proj2 (material_resolution emptyRenderer Scene.empty emptyWall eq_refl))
                "IfcWall"%string eq_refl eq_refl) as (m & _ & H2 & _ & Hplain).
    exists m. split; [exact H2|].
    assert (colorMap !! "IfcWall"%string = Some 0x4ecdc4%N) as Hwall
      by (vm_compute; reflexivity).
    rewrite Hwall in Hplain. apply Hplain.
    intros Hocc. apply includes_occurs in Hocc. vm_compute in Hocc. discriminate.
Defined.

(** *** Wireframe overlays *)

Lemma createWireframe_valid st sc mesh m :
  scene st = Some sc -> heap sc !! mesh = Some m ->
  exists sc' o,
    scene (createWireframe st mesh) = Some sc' /\
    wireframeObjects (createWireframe st mesh) = wireframeObjects st ++ [nextId sc] /\
    nextId sc' = S (nextId sc) /\
    childRefs sc' = childRefs sc ++ [nextId sc] /\
    heap sc' = <[nextId sc := o]> (heap sc) /\
    parentMesh (userData o) = Some mesh /\ isMesh o = false /\
    geometry o = EdgesGeometry (geometry m).
Proof.
  intros Hsc Hm. unfold createWireframe. rewrite Hsc, Hm. simpl.
  eexists _, _. repeat split; try done.
  unfold childRefs, nodeRefs. simpl. by rewrite omap_app.
Qed.

(** Enabling the overlays builds one per mesh of [ifcObjects], in order, at
    fresh references. *)
Lemma fold_createWireframe ms : forall st sc,
  scene st = Some sc -> allValid sc ms ->
  exists sc',
    scene (fold_left createWireframe ms st) = Some sc' /\
    wireframeObjects (fold_left createWireframe ms st)
      = wireframeObjects st ++ seq (nextId sc) (length ms) /\
    ifcObjects (fold_left createWireframe ms st) = ifcObjects st /\
    showWireframe (fold_left createWireframe ms st) = showWireframe st /\
    childRefs sc' = childRefs sc ++ seq (nextId sc) (length ms) /\
    (forall r, r < nextId sc -> heap sc' !! r = heap sc !! r) /\
    (forall r, is_Some (heap sc !! r) -> is_Some (heap sc' !! r)) /\
    (forall i mesh, ms !! i = Some mesh ->
       exists o, heap sc' !! (nextId sc + i) = Some o /\
                 parentMesh (userData o) = Some mesh /\ isMesh o = false).
Proof.
  induction ms as [|mesh ms IH]; intros st sc Hsc Hvalid.
  - exists sc. simpl. rewrite !app_nil_r. repeat split; done.
  - apply Forall_cons in Hvalid as [[m Hm] Hvalid].
    destruct (createWireframe_valid st sc mesh m Hsc Hm)
      as (sc1 & o & Hsc1 & Hw1 & Hn1 & Hc1 & Hh1 & Hp & Hl & _).
    destruct (createWireframe_ifcObjects st mesh) as [Hifc1 Hsw1].
    assert (allValid sc1 ms) as Hvalid1.
    { eapply Forall_impl; [exact Hvalid|]. intros r Hr. simpl in Hr. rewrite Hh1.
      destruct (decide (nextId sc = r)) as [<-|Hne].
      - by rewrite lookup_insert_eq.
      - by rewrite lookup_insert_ne. }
    destruct (IH (createWireframe st mesh) sc1 Hsc1 Hvalid1)
      as (sc' & Hsc' & Hw & Hifc & Hsw & Hc & Hkeep & Hsome & Hnew).
    exists sc'. simpl. rewrite Hw, Hifc, Hsw, Hc, Hw1, Hifc1, Hsw1, Hc1, Hn1.
    rewrite <- !app_assoc. simpl. repeat split; try done.
    + intros r Hr. rewrite Hkeep by lia. rewrite Hh1. by rewrite lookup_insert_ne by lia.
    + intros r Hr. apply Hsome. rewrite Hh1.
      destruct (decide (nextId sc = r)) as [<-|Hne].
      * by rewrite lookup_insert_eq.
      * by rewrite lookup_insert_ne.
    + intros [|i] mesh' Hi; simpl in Hi.
      * injection Hi as <-. rewrite Nat.add_0_r, Hkeep by lia.
        rewrite Hh1, lookup_insert_eq. eauto.
      * destruct (Hnew i mesh' Hi) as (o' & Ho' & Hrest).
        exists o'. split; [|done]. rewrite <- Ho'. f_equal. lia.
Qed.

Lemma nodeRefs_removeFirst_subset w cs r :
  r ∈ nodeRefs (removeFirst w cs) -> r ∈ nodeRefs cs.
Proof.
  induction cs as [|n cs IH]; [done|].
  destruct n as [r' cs'|cs']; unfold nodeRefs in *; simpl.
  - case_bool_decide; simpl; set_solver.
  - done.
Qed.

Lemma nodeRefs_removeFirst_NoDup w cs :
  NoDup (nodeRefs cs) -> NoDup (nodeRefs (removeFirst w cs)).
Proof.
  induction cs as [|n cs IH]; [done|].
  destruct n as [r' cs'|cs']; unfold nodeRefs in *; simpl.
  - intros [Hnotin Hnd]%NoDup_cons. case_bool_decide; simpl; [done|].
    apply NoDup_cons. split; [|by apply IH].
    intros Hin. by apply nodeRefs_removeFirst_subset in Hin.
  - done.
Qed.

Lemma nodeRefs_removeFirst_gone w cs :
  NoDup (nodeRefs cs) -> w ∉ nodeRefs (removeFirst w cs).
Proof.
  induction cs as [|n cs IH]; [set_solver|].
  destruct n as [r' cs'|cs']; unfold nodeRefs in *; simpl.
  - intros [Hnotin Hnd]%NoDup_cons. case_bool_decide; simpl; [by subst|].
    set_solver.
  - done.
Qed.

(** Disabling the overlays: the scene after the loop of [clearWireframes]. *)
Lemma fold_dispose ws : forall sc,
  let step := fun sc wireframe =>
    mkScene (alter dispose wireframe (heap (remove sc wireframe)))
            (children (remove sc wireframe)) (nextId (remove sc wireframe)) in
  let sc' := fold_left step ws sc in
  (forall r, heap sc' !! r =
             if decide (r ∈ ws) then dispose <$> heap sc !! r else heap sc !! r) /\
  (forall r, r ∈ childRefs sc' -> r ∈ childRefs sc) /\
  (NoDup (childRefs sc) -> NoDup (childRefs sc') /\ forall w, w ∈ ws -> w ∉ childRefs sc').
Proof.
  induction ws as [|w ws IH]; intros sc step sc'.
  - subst sc'. simpl. repeat split; try done.
    intros w Hw. by apply elem_of_nil in Hw.
  - subst sc'. simpl. fold step.
    destruct (IH (step sc w)) as (Hheap & Hsub & Hnd). fold step in Hheap, Hsub, Hnd.
    split; [|split].
    + intros r. rewrite Hheap.
      assert (heap (step sc w) !! r = alter dispose w (heap sc) !! r) as -> by done.
      rewrite lookup_alter.
      destruct (decide (r ∈ w :: ws)) as [Hin'|Hnin'];
        destruct (decide (r ∈ ws)) as [Hin|Hnin];
        destruct (decide (w = r)) as [Heq|Hne]; try done; try subst w.
      all: first [ by destruct (heap sc !! r) | exfalso; set_solver ].
    + intros r Hr. apply Hsub in Hr. unfold step, childRefs in Hr. simpl in Hr.
      by apply nodeRefs_removeFirst_subset in Hr.
    + intros Hnodup.
      assert (NoDup (childRefs (step sc w))) as Hnd1
        by (by apply nodeRefs_removeFirst_NoDup).
      destruct (Hnd Hnd1) as [Hnd' Hgone]. split; [done|].
      intros w' [->|Hin]%elem_of_cons; [|by apply Hgone].
      intros Hw. apply Hsub in Hw. revert Hw. by apply nodeRefs_removeFirst_gone.
Qed.

(** C5 (amended): [toggleWireframe(true)] builds one overlay per existing
    Drawable, bound to it, whether or not the Drawable already has one, and
    appends them to the overlays there are: calling it twice in a row leaves two
    overlays per Drawable.  [toggleWireframe(false)] disposes and detaches every
    overlay, and calling it again changes nothing. *)
Theorem toggleWireframe_effect :
  forall (st : t) (sc : Scene.t),
    scene st = Some sc ->
    allValid sc (ifcObjects st) ->
    NoDup (childRefs sc) ->
    (exists st1 sc1,
        toggleWireframe st true = Some st1 /\ scene st1 = Some sc1 /\
        showWireframe st1 = true /\
        wireframeObjects st1 =
          wireframeObjects st ++ seq (nextId sc) (length (ifcObjects st)) /\
        childRefs sc1 = childRefs sc ++ seq (nextId sc) (length (ifcObjects st)) /\
        (forall i mesh, ifcObjects st !! i = Some mesh ->
           exists o, heap sc1 !! (nextId sc + i) = Some o /\
                     parentMesh (userData o) = Some mesh /\ isMesh o = false) /\
        exists st2,
          toggleWireframe st1 true = Some st2 /\
          length (wireframeObjects st2) =
            length (wireframeObjects st) + 2 * length (ifcObjects st)) /\
    (exists st3 sc3,
        toggleWireframe st false = Some st3 /\ scene st3 = Some sc3 /\
        showWireframe st3 = false /\
        wireframeObjects st3 = [] /\
        (forall w, w ∈ wireframeObjects st ->
           (w ∉ childRefs sc3) /\
           forall o, heap sc !! w = Some o -> heap sc3 !! w = Some (dispose o)) /\
        toggleWireframe st3 false = Some st3).
Proof.
  intros st sc Hsc Hvalid Hnodup. split.
  - set (st0 := mkRenderer (scene st) (ifcObjects st) (wireframeObjects st) true).
    destruct (fold_createWireframe (ifcObjects st) st0 sc Hsc Hvalid)
      as (sc1 & Hsc1 & Hw & Hifc & Hsw & Hc & Hkeep & Hsome & Hnew).
    exists (fold_left createWireframe (ifcObjects st) st0), sc1.
    repeat split; try done.
    set (st1 := fold_left createWireframe (ifcObjects st) st0) in *.
    assert (allValid sc1 (ifcObjects st1)) as Hvalid1.
    { rewrite Hifc. simpl. eapply Forall_impl; [exact Hvalid|]. intros r. apply Hsome. }
    set (st1' := mkRenderer (scene st1) (ifcObjects st1) (wireframeObjects st1) true).
    destruct (fold_createWireframe (ifcObjects st1) st1' sc1 Hsc1 Hvalid1)
      as (sc2 & _ & Hw2 & _).
    exists (fold_left createWireframe (ifcObjects st1) st1'). split; [done|].
    rewrite Hw2. simpl. rewrite Hw, Hifc. simpl.
    rewrite !length_app, !length_seq. lia.
  - unfold toggleWireframe, clearWireframes. simpl. rewrite Hsc.
    destruct (wireframeObjects st) as [|w ws] eqn:Hws.
    + exists (mkRenderer (Some sc) (ifcObjects st) [] false), sc.
      split; [done|]. split; [done|]. split; [done|]. split; [done|].
      split; [|done]. by intros w ?%elem_of_nil.
    + destruct (fold_dispose (w :: ws) sc) as (Hheap & _ & Hgone).
      destruct (Hgone Hnodup) as [_ Hgone'].
      eexists _, _.
      split; [done|]. split; [done|]. split; [done|]. split; [done|].
      split; [|done]. intros w' Hw'. split.
      * by apply Hgone'.
      * intros o Ho. rewrite Hheap, decide_True by done. by rewrite Ho.
Qed.

Lemma oneMesh_valid :
  allValid (default Scene.empty (scene (addIfcGeometry emptyRenderer redTriangle).1))
           (ifcObjects (addIfcGeometry emptyRenderer redTriangle).1).
Proof.
  change (ifcObjects (addIfcGeometry emptyRenderer redTriangle).1) with [0].
  apply List.Forall_cons; [|apply List.Forall_nil].
  eexists. vm_compute. reflexivity.
Qed.

Lemma oneMesh_NoDup :
  NoDup (childRefs (default Scene.empty
                      (scene (addIfcGeometry emptyRenderer redTriangle).1))).
Proof.
  change (childRefs _) with [0]. apply NoDup_singleton.
Qed.

Lemma toggleWireframe_effect_witness :
  let st := (addIfcGeometry emptyRenderer redTriangle).1 in
  exists st3 sc3,
    toggleWireframe st false = Some st3 /\ scene st3 = Some sc3 /\
    showWireframe st3 = false /\
    wireframeObjects st3 = [] /\
    (forall w, w ∈ wireframeObjects st ->
       (w ∉ childRefs sc3) /\
       forall o, heap (default Scene.empty (scene st)) !! w = Some o ->
                 heap sc3 !! w = Some (dispose o)) /\
    toggleWireframe st3 false = Some st3.
Proof.
  exact (proj2 (toggleWireframe_effect
                  (addIfcGeometry emptyRenderer redTriangle).1
                  (default Scene.empty (scene (addIfcGeometry emptyRenderer redTriangle).1))
                  eq_refl oneMesh_valid oneMesh_NoDup)).
Defined.

(** Counterexample to C5 as stated: with one Drawable in the scene, enabling
    the overlays once leaves one overlay, enabling them twice leaves two. *)
Lemma toggleWireframe_twice_doubles :
  let st := (addIfcGeometry emptyRenderer redTriangle).1 in
  ifcObjects st = [0] /\
  (wireframeObjects <$> toggleWireframe st true) = Some [1] /\
  (wireframeObjects <$> (toggleWireframe st true ≫= fun st1 => toggleWireframe st1 true))
    = Some [1; 2] /\
  ((fun st2 => childRefs (default Scene.empty (scene st2)))
     <$> (toggleWireframe st true ≫= fun st1 => toggleWireframe st1 true))
    = Some [0; 1; 2].
Proof. vm_compute. done. Qed.

End RendererProps.

Section SelectionProps.
Import Scene EventManager SelectionSpec.

Lemma Node_nested_ind (P : Node -> Prop) :
  (forall ref cs, Forall P cs -> P (Drawable ref cs)) ->
  (forall cs, Forall P cs -> P (Group cs)) ->
  forall n, P n.
Proof.
  intros Hd Hg. fix IH 1. intros [ref cs|cs]; [apply Hd|apply Hg].
  all: induction cs as [|c cs IHcs]; constructor; [apply IH|apply IHcs].
Qed.

(** Altering along a list of references with an idempotent function. *)
Lemma fold_alter_lookup (f : Object3D -> Object3D) (refs : list nat) :
  (forall o, f (f o) = f o) ->
  forall (h : gmap nat Object3D) r,
    fold_left (fun h x => alter f x h) refs h !! r =
    if decide (r ∈ refs) then f <$> h !! r else h !! r.
Proof.
  intros Hidem. induction refs as [|x refs IH]; intros h r; cbn [fold_left].
  - by rewrite decide_False by (by intros ?%elem_of_nil).
  - rewrite IH, lookup_alter.
    destruct (decide (r ∈ x :: refs)) as [Hin'|Hnin'];
      destruct (decide (r ∈ refs)) as [Hin|Hnin];
      destruct (decide (x = r)) as [Heq|Hne]; try done; try subst x.
    all: first [ destruct (h !! r); simpl; by rewrite ?Hidem | exfalso; set_solver ].
Qed.

Lemma fold_left_app_flat {A B C} (f : A -> B -> A) (g : C -> list B) (l : list C) :
  forall a, fold_left f (flat_map g l) a = fold_left (fun a x => fold_left f (g x) a) l a.
Proof.
  induction l as [|x l IH]; intros a; simpl; [done|].
  by rewrite fold_left_app, IH.
Qed.

Lemma elem_of_flat_map {A B} (f : A -> list B) (l : list A) (y : B) :
  y ∈ flat_map f l <-> exists x, y ∈ f x /\ x ∈ l.
Proof.
  rewrite list_elem_of_In, in_flat_map. split.
  - intros (x & Hx & Hy). exists x. by rewrite !list_elem_of_In.
  - intros (x & Hy & Hx). exists x. by rewrite <- !list_elem_of_In.
Qed.

(** [clearInChildren] is one [clearObject] per reference below the node. *)
Lemma clearInChildren_fold n : forall h,
  clearInChildren n h = fold_left (fun h x => alter clearObject x h) (refsIn n) h.
Proof.
  induction n as [ref cs IH|cs IH] using Node_nested_ind; intros h; simpl.
  - generalize (alter clearObject ref h). clear h.
    induction IH as [|c cs Hc _ IHcs]; intros h; simpl; [done|].
    by rewrite fold_left_app, <- Hc, IHcs.
  - revert h. induction IH as [|c cs Hc _ IHcs]; intros h; simpl; [done|].
    by rewrite fold_left_app, <- Hc, IHcs.
Qed.

Lemma clearObject_idemp o : clearObject (clearObject o) = clearObject o.
Proof.
  unfold clearObject. destruct (isHighlighted (userData o)) eqn:Hh; [|by rewrite Hh].
  by destruct (originalMaterial (userData o)).
Qed.

Lemma highlightSingleObject_idemp b o :
  highlightSingleObject b (highlightSingleObject b o) = highlightSingleObject b o.
Proof.
  unfold highlightSingleObject.
  destruct b, (originalMaterial (userData o)) eqn:Ho; simpl; by rewrite ?Ho.
Qed.

Lemma clearObject_globalId o : globalId (userData (clearObject o)) = globalId (userData o).
Proof.
  unfold clearObject. destruct (isHighlighted (userData o)); [|done].
  by destruct (originalMaterial (userData o)).
Qed.

(** The store after [clearHighlight]. *)
Lemma clearHighlight_lookup sc r :
  exists sc', clearHighlight (Some sc) = Some sc' /\
    children sc' = children sc /\
    heap sc' !! r = if decide (r ∈ sceneRefs sc) then clearObject <$> heap sc !! r
                    else heap sc !! r.
Proof.
  eexists. split; [done|]. split; [done|]. simpl.
  rewrite <- (fold_alter_lookup clearObject (sceneRefs sc) clearObject_idemp).
  f_equal. unfold sceneRefs. rewrite fold_left_app_flat.
  generalize (heap sc). induction (children sc) as [|c cs IH]; intros h; simpl; [done|].
  by rewrite clearInChildren_fold, IH.
Qed.

(** What [findInChildren] collects. *)
Lemma elem_of_findInChildren h g n r :
  r ∈ findInChildren h g n <->
  r ∈ refsIn n /\ exists o, h !! r = Some o /\ globalId (userData o) = Some g.
Proof.
  induction n as [ref cs IH|cs IH] using Node_nested_ind; simpl.
  - rewrite elem_of_app, elem_of_cons, !elem_of_flat_map.
    assert ((exists c, r ∈ findInChildren h g c /\ c ∈ cs) <->
            (exists c, r ∈ refsIn c /\ c ∈ cs) /\
            exists o, h !! r = Some o /\ globalId (userData o) = Some g) as ->.
    { rewrite Forall_forall in IH. split.
      - intros (c & Hr & Hc). apply IH in Hr as [? ?]; [|done]. eauto.
      - intros [(c & Hr & Hc) Ho]. exists c. split; [|done]. by apply IH. }
    split.
    + intros [Hself|[Hcs Ho]]; [|by eauto].
      destruct (h !! ref) as [o|] eqn:Href; [|by apply elem_of_nil in Hself].
      case_decide as Hg; [|by apply elem_of_nil in Hself].
      apply list_elem_of_singleton in Hself as ->. eauto.
    + intros [[->|Hcs] (o & Ho & Hg)]; [left|right; split; [done|eauto]].
      rewrite Ho, decide_True by done. by apply list_elem_of_singleton.
  - rewrite !elem_of_flat_map. rewrite Forall_forall in IH. split.
    + intros (c & Hr & Hc). apply IH in Hr as [? ?]; [|done]. eauto.
    + intros [(c & Hr & Hc) Ho]. exists c. split; [|done]. by apply IH.
Qed.

Lemma elem_of_findAllObjectsByGlobalId sc g r :
  r ∈ findAllObjectsByGlobalId sc g <->
  r ∈ sceneRefs sc /\ exists o, heap sc !! r = Some o /\ globalId (userData o) = Some g.
Proof.
  unfold findAllObjectsByGlobalId, sceneRefs. rewrite !elem_of_flat_map. split.
  - intros (c & Hr & Hc). apply elem_of_findInChildren in Hr as [? ?]. eauto.
  - intros [(c & Hr & Hc) Ho]. exists c. split; [|done]. by apply elem_of_findInChildren.
Qed.

(** *** Highlight and restore *)

Lemma clearObject_consistent o :
  snapshotConsistent o -> snapshotConsistent (clearObject o).
Proof.
  unfold snapshotConsistent, clearObject. intros Hc.
  destruct (isHighlighted (userData o)) eqn:Hh; [|by rewrite Hh].
  destruct (originalMaterial (userData o)) as [m0|] eqn:Ho; simpl; intros _ m.
  - rewrite ?Ho. by intros [= ->].
  - rewrite ?Ho. done.
Qed.

Lemma highlightSingleObject_consistent b o :
  snapshotConsistent (highlightSingleObject b o).
Proof.
  unfold snapshotConsistent, highlightSingleObject.
  destruct b, (originalMaterial (userData o)); simpl; done.
Qed.

(** One object through clear, highlight and clear again. *)
Lemma object_roundtrip b o :
  snapshotConsistent o ->
  let o1 := highlightSingleObject b (clearObject o) in
  let o2 := clearObject o1 in
  isHighlighted (userData o1) = true /\
  color (material o1) = highlightColor /\
  transparent (material o1) = transparent (material (clearObject o)) /\
  opacity (material o1) = opacity (material (clearObject o)) /\
  originalMaterial (userData o1) = Some (material (clearObject o)) /\
  isHighlighted (userData o2) = false /\
  material o2 = material (clearObject o) /\
  (isHighlighted (userData o) = false -> material o2 = material o).
Proof.
  intros Hc o1 o2. subst o1 o2.
  unfold snapshotConsistent in Hc.
  unfold highlightSingleObject, clearObject.
  destruct (isHighlighted (userData o)) eqn:Hh;
    destruct (originalMaterial (userData o)) as [m0|] eqn:Ho;
    destruct b; simpl; rewrite ?Hh, ?Ho; simpl.
  all: try rewrite (Hc eq_refl m0 eq_refl).
  all: repeat split; done.
Qed.

(** The store after [highlightObject]. *)
Lemma highlightObject_lookup b sc g r :
  exists sc1, highlightObject b (Some sc) g = Some sc1 /\
    children sc1 = children sc /\
    heap sc1 !! r =
      (fun o =>
         if decide (r ∈ sceneRefs sc) then
           if decide (globalId (userData o) = Some g)
           then highlightSingleObject b (clearObject o)
           else clearObject o
         else o) <$> heap sc !! r.
Proof.
  destruct (clearHighlight_lookup sc r) as (sc0 & Hclear & Hch0 & Hh0).
  unfold highlightObject. rewrite Hclear. eexists. split; [done|]. split; [done|].
  cbn [heap].
  rewrite (fold_alter_lookup _ _ (highlightSingleObject_idemp b)).
  assert (sceneRefs sc0 = sceneRefs sc) as Hrefs by (unfold sceneRefs; by rewrite Hch0).
  destruct (decide (r ∈ findAllObjectsByGlobalId sc0 g)) as [Hin|Hnin].
  - apply elem_of_findAllObjectsByGlobalId in Hin as (Hr & o0 & Ho0 & Hg).
    rewrite Hrefs in Hr. rewrite Hh0 in *. rewrite decide_True in * by done.
    destruct (heap sc !! r) as [o|] eqn:Ho; [|done].
    injection Ho0 as <-. rewrite clearObject_globalId in Hg.
    simpl. by rewrite !decide_True.
  - rewrite Hh0. destruct (heap sc !! r) as [o|] eqn:Ho; [|by case_decide].
    simpl. case_decide as Hr; [|done]. simpl. case_decide as Hg; [|done].
    exfalso. apply Hnin.
    apply elem_of_findAllObjectsByGlobalId. rewrite Hrefs. split; [done|].
    exists (clearObject o). split; [by rewrite Hh0|].
    by rewrite clearObject_globalId.
Qed.

(** Highlighting and clearing keep every snapshot consistent. *)
Lemma clearHighlight_consistent sc sc' :
  map_Forall (fun _ o => snapshotConsistent o) (heap sc) ->
  clearHighlight (Some sc) = Some sc' ->
  map_Forall (fun _ o => snapshotConsistent o) (heap sc').
Proof.
  intros Hall Hclear r o Ho.
  destruct (clearHighlight_lookup sc r) as (sc0 & Hclear' & _ & Hh).
  rewrite Hclear in Hclear'. injection Hclear' as <-. rewrite Ho in Hh.
  case_decide; [|by eapply Hall].
  destruct (heap sc !! r) as [o0|] eqn:Ho0; [|done].
  injection Hh as ->. apply clearObject_consistent. by eapply Hall.
Qed.

Lemma highlightObject_consistent b sc g sc' :
  map_Forall (fun _ o => snapshotConsistent o) (heap sc) ->
  highlightObject b (Some sc) g = Some sc' ->
  map_Forall (fun _ o => snapshotConsistent o) (heap sc').
Proof.
  intros Hall Hhl r o Ho.
  destruct (highlightObject_lookup b sc g r) as (sc1 & Hhl' & _ & Hh).
  rewrite Hhl in Hhl'. injection Hhl' as <-. rewrite Ho in Hh.
  destruct (heap sc !! r) as [o0|] eqn:Ho0; [|done].
  simpl in Hh. repeat case_decide; injection Hh as ->.
  - apply highlightSingleObject_consistent.
  - apply clearObject_consistent. by eapply Hall.
  - by eapply Hall.
Qed.

(** C3: highlight / clear round trip.  For every Drawable of the scene tagged
    with the highlighted id (so for all N of them), one [highlightObject] gives
    it the highlight colour, leaving transparency and opacity alone, and keeps
    exactly one snapshot of its un-highlighted material; the following
    [clearHighlight] restores that material, which for a Drawable that was not
    highlighted before is the material it had. *)
Theorem highlight_clear_roundtrip :
  forall (isWireframeActive : bool) (sc : Scene.t) (elementId : string)
         (ref : nat) (o : Object3D),
    ref ∈ sceneRefs sc ->
    heap sc !! ref = Some o ->
    globalId (userData o) = Some elementId ->
    snapshotConsistent o ->
    exists sc1 sc2 o1 o2,
      highlightObject isWireframeActive (Some sc) elementId = Some sc1 /\
      clearHighlight (Some sc1) = Some sc2 /\
      heap sc1 !! ref = Some o1 /\
      isHighlighted (userData o1) = true /\
      color (material o1) = highlightColor /\
      transparent (material o1) = transparent (material (clearObject o)) /\
      opacity (material o1) = opacity (material (clearObject o)) /\
      originalMaterial (userData o1) = Some (material (clearObject o)) /\
      heap sc2 !! ref = Some o2 /\
      isHighlighted (userData o2) = false /\
      material o2 = material (clearObject o) /\
      (isHighlighted (userData o) = false ->
       material o2 = material o /\ color (material o2) = color (material o)).
Proof.
  intros b sc g r o Hr Ho Hg Hc.
  destruct (highlightObject_lookup b sc g r) as (sc1 & Hhl & Hch1 & Hh1).
  rewrite Ho in Hh1. simpl in Hh1. rewrite !decide_True in Hh1 by done.
  destruct (clearHighlight_lookup sc1 r) as (sc2 & Hclear & _ & Hh2).
  assert (sceneRefs sc1 = sceneRefs sc) as Hrefs by (unfold sceneRefs; by rewrite Hch1).
  rewrite Hrefs, decide_True, Hh1 in Hh2 by done. simpl in Hh2.
  destruct (object_roundtrip b o Hc) as (H1 & H2 & H3 & H4 & H5 & H6 & H7 & H8).
  exists sc1, sc2, (highlightSingleObject b (clearObject o)),
         (clearObject (highlightSingleObject b (clearObject o))).
  repeat split; try done.
  - by apply H8.
  - by rewrite H8.
Qed.

Lemma highlight_clear_roundtrip_witness :
  exists sc1 sc2 o1 o2,
    highlightObject false (Some sampleScene) "E1" = Some sc1 /\
    clearHighlight (Some sc1) = Some sc2 /\
    heap sc1 !! 2 = Some o1 /\
    isHighlighted (userData o1) = true /\
    color (material o1) = highlightColor /\
    transparent (material o1)
      = transparent (material (clearObject (taggedMesh "E1" 0xff6b6b%N))) /\
    opacity (material o1)
      = opacity (material (clearObject (taggedMesh "E1" 0xff6b6b%N))) /\
    originalMaterial (userData o1)
      = Some (material (clearObject (taggedMesh "E1" 0xff6b6b%N))) /\
    heap sc2 !! 2 = Some o2 /\
    isHighlighted (userData o2) = false /\
    material o2 = material (clearObject (taggedMesh "E1" 0xff6b6b%N)) /\
    (isHighlighted (userData (taggedMesh "E1" 0xff6b6b%N)) = false ->
     material o2 = material (taggedMesh "E1" 0xff6b6b%N) /\
     color (material o2) = color (material (taggedMesh "E1" 0xff6b6b%N))).
Proof.
  apply (highlight_clear_roundtrip false sampleScene "E1" 2
           (taggedMesh "E1" 0xff6b6b%N)).
  - unfold sceneRefs. simpl. set_solver.
  - reflexivity.
  - reflexivity.
  - intros _ m. simpl. discriminate.
Defined.

(** *** Picking *)

Lemma compareIntersections_le sc a b :
  (compareIntersections sc a b <= 0)%R <-> pickOrder sc a b.
Proof.
  unfold compareIntersections, pickOrder.
  destruct (isTransparent sc a), (isTransparent sc b); simpl; split; intros H.
  all: first [ lra
             | by left
             | right; split; [done|lra]
             | destruct H as [[? ?]|[? ?]]; first [done | lra] ].
Qed.

Lemma pickOrder_total sc a b : ~ pickOrder sc a b -> pickOrder sc b a.
Proof.
  unfold pickOrder.
  destruct (isTransparent sc a), (isTransparent sc b); intros Hn.
  all: first
    [ by left
    | exfalso; apply Hn; by left
    | right; split; [done|];
      destruct (Rle_dec (distance b) (distance a)) as [|Hgt]; [done|];
      exfalso; apply Hn; right; split; [done|lra] ].
Qed.

Lemma pickOrder_trans sc a b c :
  pickOrder sc a b -> pickOrder sc b c -> pickOrder sc a c.
Proof.
  unfold pickOrder.
  destruct (isTransparent sc a), (isTransparent sc b), (isTransparent sc c).
  all: intros [[? ?]|[? ?]] [[? ?]|[? ?]]; try done.
  all: first [ by left | right; split; [done|lra] ].
Qed.

Lemma insertSorted_perm {A} (cmp : A -> A -> R) x l :
  insertSorted cmp x l ≡ₚ x :: l.
Proof.
  induction l as [|y l IH]; simpl; [done|].
  case_decide; [done|]. rewrite IH. apply Permutation_swap.
Qed.

Lemma sort_perm {A} (cmp : A -> A -> R) l : sort cmp l ≡ₚ l.
Proof.
  induction l as [|x l IH]; simpl; [done|].
  by rewrite insertSorted_perm, IH.
Qed.

Lemma insertSorted_sorted sc x l :
  StronglySorted (pickOrder sc) l ->
  StronglySorted (pickOrder sc) (insertSorted (compareIntersections sc) x l).
Proof.
  induction 1 as [|y l Hl IH Hy]; simpl.
  - repeat constructor.
  - case_decide as Hc.
    + apply compareIntersections_le in Hc. constructor; [by constructor|].
      constructor; [done|].
      eapply Forall_impl; [exact Hy|]. intros z Hz. by eapply pickOrder_trans.
    + rewrite compareIntersections_le in Hc. apply pickOrder_total in Hc.
      constructor; [done|].
      rewrite insertSorted_perm. by constructor.
Qed.

Lemma sort_sorted sc l :
  StronglySorted (pickOrder sc) (sort (compareIntersections sc) l).
Proof.
  induction l as [|x l IH]; simpl; [constructor|]. by apply insertSorted_sorted.
Qed.

Lemma firstGlobalId_all_transparent sc l :
  Forall (fun i => isTransparent sc i = true) l -> firstGlobalId sc true l = None.
Proof.
  induction 1 as [|i l Hi _ IH]; simpl; [done|].
  rewrite Hi. simpl. by destruct (findGlobalId sc (object i)).
Qed.

(** On a sorted list the two loops of [handleModelClick] find the id of the
    first candidate that resolves one. *)
Lemma firstGlobalId_sorted sc l :
  StronglySorted (pickOrder sc) l ->
  match firstGlobalId sc true l with
  | Some g => Some g
  | None => firstGlobalId sc false l
  end = head (omap (fun i => findGlobalId sc (object i)) l).
Proof.
  induction 1 as [|i l Hl IH Hi]; simpl; [done|].
  destruct (findGlobalId sc (object i)) as [g|] eqn:Hg; simpl; [|done].
  destruct (isTransparent sc i) eqn:Ht; simpl; [|done].
  rewrite firstGlobalId_all_transparent; [done|].
  eapply Forall_impl; [exact Hi|]. intros j [[Hf _]|[Heq _]]; congruence.
Qed.

Lemma truthy_nonempty g : JsString.truthy g = true <-> g <> EmptyString.
Proof. destruct g; simpl; split; try done. Qed.

(** Walking up from a place finds the id of the nearest object, the place's
    own or an ancestor's, that carries one. *)
Lemma findGlobalId_nearest sc place g :
  findGlobalId sc place = Some g <->
  exists k, carriesId sc (drop k place) g /\
            forall j, j < k -> forall g', ~ carriesId sc (drop j place) g'.
Proof.
  assert (forall p g0,
            match objectAt sc p with
            | Some o => match globalId (userData o) with
                        | Some g1 => if JsString.truthy g1 then Some g1 else None
                        | None => None
                        end
            | None => None
            end = Some g0 <-> carriesId sc p g0) as Hown.
  { intros p g0. unfold carriesId.
    destruct (objectAt sc p) as [o|] eqn:Ho;
      [destruct (globalId (userData o)) as [g1|] eqn:Hg;
         [destruct (JsString.truthy g1) eqn:Ht|]|]; split; try done.
    - intros [= <-]. exists o. split; [done|]. split; [done|]. by apply truthy_nonempty.
    - intros (o' & [= <-] & Hg' & _). congruence.
    - intros (o' & [= <-] & Hg' & Hne). apply truthy_nonempty in Hne. congruence.
    - intros (o' & [= <-] & Hg' & _). congruence.
    - intros (o' & Ho' & _). congruence. }
  revert g. induction place as [|i parent IH]; intros g.
  - cbn [findGlobalId].
    destruct (match objectAt sc [] with
              | Some o => _
              | None => None
              end) as [g0|] eqn:Hhere.
    + apply Hown in Hhere. destruct Hhere as (o & Ho & _). done.
    + split; [done|]. intros (k & Hk & _). rewrite drop_nil in Hk.
      apply Hown in Hk. congruence.
  - cbn [findGlobalId].
    destruct (match objectAt sc (i :: parent) with
              | Some o => _
              | None => None
              end) as [g0|] eqn:Hhere.
    + apply Hown in Hhere. split.
      * intros [= <-]. exists 0. split; [done|]. intros j Hj. lia.
      * intros ([|k] & Hk & Hnone).
        -- destruct Hhere as (o & Ho & Hg & _), Hk as (o' & Ho' & Hg' & _).
           simpl in Ho'. congruence.
        -- exfalso. by apply (Hnone 0 ltac:(lia) g0).
    + assert (forall g', ~ carriesId sc (i :: parent) g') as Hnot.
      { intros g' Hc. apply Hown in Hc. congruence. }
      rewrite IH. split.
      * intros (k & Hk & Hnone). exists (S k). split; [done|].
        intros [|j] Hj; [done|]. simpl. apply Hnone. lia.
      * intros ([|k] & Hk & Hnone); [by apply Hnot in Hk|].
        exists k. split; [done|]. intros j Hj. apply (Hnone (S j)). lia.
Qed.

(** C4: the pick orders the candidates opaque before translucent and then by
    ascending distance (keeping exactly the candidates the raycaster returned),
    selects the id found by walking up from the first candidate that resolves
    one and highlights it, and with no intersection selects nothing and leaves
    the scene as it is.  Walking up from a candidate resolves the non-empty id
    of the nearest object, the candidate itself or one of its owners, that
    carries one; a candidate is translucent when its material is flagged so. *)
Theorem pick_selects_first_resolved :
  forall (isWireframeActive : bool) (sc : Scene.t)
         (intersectObjects : list Node -> list Intersection),
    let hits := intersectObjects (ifcObjectsOf sc) in
    let intersects := sort (compareIntersections sc) hits in
    let out := handleModelClick isWireframeActive (Some sc) intersectObjects in
    StronglySorted (pickOrder sc) intersects /\
    intersects ≡ₚ hits /\
    out.2 = head (omap (fun i => findGlobalId sc (object i)) intersects) /\
    out.1 = match out.2 with
            | Some g => highlightObject isWireframeActive (Some sc) g
            | None => Some sc
            end /\
    (hits = [] -> out = (Some sc, None)) /\
    (forall place g,
        findGlobalId sc place = Some g <->
        exists k, carriesId sc (drop k place) g /\
                  forall j, j < k -> forall g', ~ carriesId sc (drop j place) g') /\
    (forall a o, objectAt sc (object a) = Some o ->
        isTransparent sc a = transparent (material o)) /\
    (forall a, objectAt sc (object a) = None -> isTransparent sc a = false).
Proof.
  intros b sc raycast hits intersects out.
  pose proof (sort_sorted sc hits) as Hsorted. fold intersects in Hsorted.
  split; [done|]. split; [apply sort_perm|].
  pose proof (firstGlobalId_sorted sc intersects Hsorted) as Hfirst.
  assert ((forall place g,
              findGlobalId sc place = Some g <->
              exists k, carriesId sc (drop k place) g /\
                        forall j, j < k -> forall g', ~ carriesId sc (drop j place) g') /\
          (forall a o, objectAt sc (object a) = Some o ->
              isTransparent sc a = transparent (material o)) /\
          (forall a, objectAt sc (object a) = None -> isTransparent sc a = false))
    as Hwalk.
  { split; [intros place g; apply findGlobalId_nearest|].
    split; [intros a o Ho|intros a Ho]; unfold isTransparent; by rewrite Ho. }
  subst out. unfold handleModelClick. fold hits. fold intersects.
  destruct intersects as [|i l] eqn:Hint.
  - split; [done|]. split; [done|]. by split.
  - rewrite <- Hfirst.
    destruct (match firstGlobalId sc true (i :: l) with
              | Some g => Some g
              | None => firstGlobalId sc false (i :: l)
              end) as [g|]; simpl.
    + split; [done|]. split; [done|]. split; [|done].
      intros Hhits. subst intersects. rewrite Hhits in Hint. done.
    + split; [done|]. split; [done|]. by split.
Qed.

(** A ray through a translucent mesh onto an untagged part of "E1": the
    opaque part is tried first and resolves to its owner's id. *)
Lemma pick_selects_first_resolved_witness :
  (handleModelClick false (Some nestedScene) throughGlass).2 = Some "E1"%string /\
  findGlobalId nestedScene [0; 0] = Some "E1"%string.
Proof.
  pose proof (pick_selects_first_resolved false nestedScene throughGlass)
    as (_ & _ & Hout & _).
  split; [|reflexivity]. rewrite Hout.
  unfold throughGlass. cbn [sort foldr insertSorted].
  assert (compareIntersections nestedScene
            (mkIntersection [1] 1) (mkIntersection [0; 0] 5) = 1%R) as Hcmp
    by reflexivity.
  rewrite Hcmp. rewrite decide_False by lra. reflexivity.
Defined.

End SelectionProps.

Section LifecycleProps.
Import Lifecycle.

Lemma fold_domRemove ls : forall w,
  fold_left domRemove ls w =
  mkWorld (domListeners (fold_left domRemove ls w))
          (rafPending w) (rafNext w) (animationId w) (renderer w) (scene w)
          (rendererDisposals w) (sceneClears w) (frames w) (eventListeners w).
Proof.
  induction ls as [|l ls IH]; intros w; simpl.
  - by destruct w.
  - by rewrite IH.
Qed.

Lemma domListeners_fold_domRemove ls : forall w l,
  l ∈ domListeners (fold_left domRemove ls w) <-> l ∈ domListeners w /\ l ∉ ls.
Proof.
  induction ls as [|x ls IH]; intros w l; simpl.
  - split; [intros ?; split; [done|by intros ?%elem_of_nil] | by intros [? _]].
  - rewrite IH. simpl. rewrite list_elem_of_In, filter_In, <- list_elem_of_In.
    rewrite negb_true_iff, bool_decide_eq_false, not_elem_of_cons. naive_solver.
Qed.

(** [dispose()] twice is [dispose()] once: nothing is stopped, released or
    removed a second time. *)
Lemma dispose_idempotent w : dispose (dispose w) = dispose w.
Proof.
  unfold dispose, removeAllEventListeners.
  set (w1 := sceneManagerDispose w).
  rewrite (fold_domRemove (eventListeners w1) w1).
  set (dl := domListeners (fold_left domRemove (eventListeners w1) w1)).
  assert (renderer w1 = false /\ scene w1 = false /\
          (animationId w1 = None \/ animationId w1 = Some 0)) as (Hr & Hs & Ha).
  { subst w1. unfold sceneManagerDispose, stopAnimation.
    destruct (animationId w) as [id|] eqn:Hid; [destruct (decide (id = 0)) as [->|]|];
      destruct (renderer w) eqn:Hrw, (scene w) eqn:Hsw; simpl;
      rewrite ?Hid, ?Hrw, ?Hsw; auto. }
  unfold withEventListeners, sceneManagerDispose, stopAnimation. simpl.
  rewrite Hr, Hs. destruct Ha as [-> | ->]; simpl; by rewrite ?Hr, ?Hs.
Qed.

Lemma frameTick_idle w : rafPending w = [] -> frameTick w = w.
Proof. intros Hp. unfold frameTick. rewrite Hp. simpl. destruct w. simpl in Hp. by subst. Qed.

Lemma dispose_rafPending w : loopConsistent w -> rafPending (dispose w) = [].
Proof.
  intros (Hp & Hid & _). unfold dispose, removeAllEventListeners.
  rewrite fold_domRemove. simpl.
  unfold sceneManagerDispose, stopAnimation.
  destruct (animationId w) as [id|] eqn:Ha.
  - rewrite decide_False by (by apply Hid).
    simpl. rewrite Hp. simpl. rewrite bool_decide_eq_true_2 by done. simpl.
    by destruct (renderer w), (scene w).
  - rewrite Hp. by destruct (renderer w), (scene w).
Qed.

(** After [dispose()] the frame callback never runs again. *)
Lemma no_frame_after_dispose w n :
  loopConsistent w ->
  Nat.iter n frameTick (dispose w) = dispose w.
Proof.
  intros Hw. induction n as [|n IH]; [done|]. simpl. rewrite IH.
  apply frameTick_idle. by apply dispose_rafPending.
Qed.

Lemma init_loopConsistent : loopConsistent (init blank).
Proof.
  assert (rafPending (init blank) = [1]) as Hp by (vm_compute; reflexivity).
  assert (animationId (init blank) = Some 1) as Ha by (vm_compute; reflexivity).
  assert (rafNext (init blank) = 2) as Hn by (vm_compute; reflexivity).
  unfold loopConsistent. rewrite Hp, Ha, Hn.
  split; [reflexivity|]. split; [|discriminate].
  intros id Hid. injection Hid as <-. discriminate.
Qed.

Lemma frameTick_loopConsistent w : loopConsistent w -> loopConsistent (frameTick w).
Proof.
  intros (Hp & Hid & Hn). unfold frameTick. rewrite Hp.
  destruct (animationId w) as [id|] eqn:Ha; unfold loopConsistent; simpl.
  - repeat split; try done. by intros id' [= <-].
  - rewrite ?Ha. repeat split; try done.
Qed.

(** [dispose()] removes every listener the EventManager registered. *)
Lemma dispose_removes_registered w l :
  l ∈ eventListeners w -> l ∉ domListeners (dispose w).
Proof.
  intros Hl. unfold dispose, removeAllEventListeners. simpl.
  rewrite domListeners_fold_domRemove. intros [_ Hnot]. apply Hnot.
  unfold sceneManagerDispose, stopAnimation.
  destruct (animationId w) as [id|]; [destruct (decide (id = 0))|];
    destruct (renderer w), (scene w); done.
Qed.

(** C8: [dispose()] on a freshly initialised viewer.  The frame loop is
    stopped (no request is pending, further frame signals change nothing) and a
    second [dispose()] is a no-op, but the listeners SimpleOrbitControls put on
    the canvas and the document are still registered: a pointer event on the
    canvas, or a key release, still runs the controls' handler. *)
Theorem dispose_leaves_controls_listening :
  let w := dispose (init blank) in
  fires w Canvas mousedown = [mkListener Canvas mousedown OfControls] /\
  fires w Canvas mousemove = [mkListener Canvas mousemove OfControls] /\
  fires w Canvas mouseup = [mkListener Canvas mouseup OfControls] /\
  fires w Document keyup = [mkListener Document keyup OfControls] /\
  fires w Container mousedown = [] /\
  rafPending w = [] /\
  frames (Nat.iter 3 frameTick w) = frames w /\
  dispose w = w /\
  rendererDisposals w = 1.
Proof. vm_compute. repeat split; reflexivity. Qed.

End LifecycleProps.

Section ConverterProps.
Import TypedArray CoordinateConverter.

(** Every cell at or after the loop counter, whether or not its triple is
    complete. *)
Lemma convertLoop_cells fuel i m vertices converted :
  length converted = length vertices ->
  length vertices <= i + 3 * fuel ->
  i + 3 * m < length vertices ->
  let r := convertLoop fuel i vertices converted in
  r !! (i + 3 * m) = Some (get vertices (i + 3 * m)) /\
  (i + 3 * m + 1 < length vertices ->
   r !! (i + 3 * m + 1) = Some (get vertices (i + 3 * m + 2))) /\
  (i + 3 * m + 2 < length vertices ->
   r !! (i + 3 * m + 2) = Some (- get vertices (i + 3 * m + 1))%float).
Proof.
  revert i m converted.
  induction fuel as [|fuel IH]; intros i m converted Hlen Hfuel Hlt;
    cbn [convertLoop].
  - lia.
  - case_decide as Hi; [|lia].
    destruct m as [|m].
    + cbn zeta. rewrite !Nat.mul_0_r, !Nat.add_0_r in *.
      rewrite !convertLoop_below by lia.
      unfold set. split; [|split].
      * rewrite !list_lookup_insert_ne by lia.
        by rewrite list_lookup_insert_eq by lia.
      * intros H1. rewrite list_lookup_insert_ne by lia.
        by rewrite list_lookup_insert_eq by (rewrite length_insert; lia).
      * intros H2. by rewrite list_lookup_insert_eq by (rewrite !length_insert; lia).
    + replace (i + 3 * S m) with (i + 3 + 3 * m) in * by lia.
      cbn zeta.
      apply (IH (i + 3) m); try done.
      * unfold set. by rewrite !length_insert.
      * lia.
Qed.

(** X24: the conversion, cell by cell, for an array of any length.  The
    result has the length of the input; cell 3k is input cell 3k, cell 3k + 1
    is input cell 3k + 2 and cell 3k + 2 is the negated input cell 3k + 1.  When
    the array ends inside a triple, a last single value is copied and of a last
    pair (x, y) the x is copied and the second cell becomes NaN. *)
Theorem convertIFCToThreeJS_cells :
  forall (vertices : Float32Array) (k : nat),
    length (convertIFCToThreeJS vertices) = length vertices /\
    (3 * k < length vertices ->
     convertIFCToThreeJS vertices !! (3 * k) = vertices !! (3 * k)) /\
    (3 * k + 1 < length vertices ->
     convertIFCToThreeJS vertices !! (3 * k + 1)
       = Some (default nan (vertices !! (3 * k + 2)))) /\
    (3 * k + 2 < length vertices ->
     convertIFCToThreeJS vertices !! (3 * k + 2)
       = (fun y => (- y)%float) <$> vertices !! (3 * k + 1)).
Proof.
  intros vertices k.
  assert (length (alloc (length vertices)) = length vertices) as Hlen
    by (unfold alloc; by rewrite length_replicate).
  split.
  { unfold convertIFCToThreeJS. by rewrite convertLoop_length. }
  assert (3 * k < length vertices ->
          convertIFCToThreeJS vertices !! (3 * k) = Some (get vertices (3 * k)) /\
          (3 * k + 1 < length vertices ->
           convertIFCToThreeJS vertices !! (3 * k + 1) = Some (get vertices (3 * k + 2))) /\
          (3 * k + 2 < length vertices ->
           convertIFCToThreeJS vertices !! (3 * k + 2)
             = Some (- get vertices (3 * k + 1))%float)) as Hcells.
  { intros Hk. unfold convertIFCToThreeJS.
    apply (convertLoop_cells (length vertices) 0 k vertices (alloc (length vertices)));
      [done|lia|done]. }
  split; [|split].
  - intros Hk. destruct (Hcells Hk) as (-> & _). unfold get.
    by destruct (lookup_lt_is_Some_2 vertices (3 * k) Hk) as [x ->].
  - intros Hk. destruct (Hcells ltac:(lia)) as (_ & H1 & _). by apply H1.
  - intros Hk. destruct (Hcells ltac:(lia)) as (_ & _ & H2). rewrite (H2 Hk).
    unfold get.
    by destruct (lookup_lt_is_Some_2 vertices (3 * k + 1) ltac:(lia)) as [y ->].
Qed.

Lemma convertIFCToThreeJS_cells_witness :
  convertIFCToThreeJS [1; 2; 3; 4; 5]%float !! (3 * 1) = [1; 2; 3; 4; 5]%float !! (3 * 1) /\
  convertIFCToThreeJS [1; 2; 3; 4; 5]%float !! (3 * 1 + 1)
    = Some (default nan ([1; 2; 3; 4; 5]%float !! (3 * 1 + 2))).
Proof.
  destruct (convertIFCToThreeJS_cells [1; 2; 3; 4; 5]%float 1) as (_ & H0 & H1 & _).
  split; [apply H0; simpl; lia | apply H1; simpl; lia].
Defined.

Lemma opp_involutive (x : float) : (- - x)%float = x.
Proof.
  apply Prim2SF_inj. rewrite !opp_spec.
  destruct (Prim2SF x) as [[]|[]| |[] ? ?]; reflexivity.
Qed.

(** A converted array of whole triples, read triple by triple. *)
Lemma convertIFCToThreeJS_whole vertices n k :
  length vertices = 3 * n -> k < n ->
  exists x y z,
    vertices !! (3 * k) = Some x /\ vertices !! (3 * k + 1) = Some y /\
    vertices !! (3 * k + 2) = Some z /\
    convertIFCToThreeJS vertices !! (3 * k) = Some x /\
    convertIFCToThreeJS vertices !! (3 * k + 1) = Some z /\
    convertIFCToThreeJS vertices !! (3 * k + 2) = Some (- y)%float.
Proof.
  intros Hlen Hk.
  destruct (lookup_lt_is_Some_2 vertices (3 * k) ltac:(lia)) as [x Hx].
  destruct (lookup_lt_is_Some_2 vertices (3 * k + 1) ltac:(lia)) as [y Hy].
  destruct (lookup_lt_is_Some_2 vertices (3 * k + 2) ltac:(lia)) as [z Hz].
  exists x, y, z. split; [done|]. split; [done|]. split; [done|].
  unfold convertIFCToThreeJS.
  apply (convertLoop_triple (length vertices) 0 k vertices
           (alloc (length vertices)) x y z); try done.
  - unfold alloc. by rewrite length_replicate.
  - lia.
Qed.

Lemma convertIFCToThreeJS_length vertices :
  length (convertIFCToThreeJS vertices) = length vertices.
Proof.
  unfold convertIFCToThreeJS. rewrite convertLoop_length.
  unfold alloc. by rewrite length_replicate.
Qed.

(** X25: on an array of whole triples the conversion is a quarter turn about
    the x axis: applied twice it sends every (x, y, z) to (x, -y, -z), and
    applied four times it gives the array back, so no vertex data is lost and
    three further conversions undo one. *)
Theorem convertIFCToThreeJS_quarter_turn :
  forall (vertices : Float32Array) (n : nat),
    length vertices = 3 * n ->
    (forall k x y z,
       vertices !! (3 * k) = Some x -> vertices !! (3 * k + 1) = Some y ->
       vertices !! (3 * k + 2) = Some z ->
       convertIFCToThreeJS (convertIFCToThreeJS vertices) !! (3 * k) = Some x /\
       convertIFCToThreeJS (convertIFCToThreeJS vertices) !! (3 * k + 1) = Some (- y)%float /\
       convertIFCToThreeJS (convertIFCToThreeJS vertices) !! (3 * k + 2) = Some (- z)%float) /\
    convertIFCToThreeJS
      (convertIFCToThreeJS (convertIFCToThreeJS (convertIFCToThreeJS vertices)))
    = vertices.
Proof.
  intros vertices n Hlen.
  assert (forall v k x y z, length v = 3 * n ->
            v !! (3 * k) = Some x -> v !! (3 * k + 1) = Some y ->
            v !! (3 * k + 2) = Some z ->
            convertIFCToThreeJS (convertIFCToThreeJS v) !! (3 * k) = Some x /\
            convertIFCToThreeJS (convertIFCToThreeJS v) !! (3 * k + 1) = Some (- y)%float /\
            convertIFCToThreeJS (convertIFCToThreeJS v) !! (3 * k + 2) = Some (- z)%float)
    as Htwice.
  { intros v k x y z Hv Hx Hy Hz.
    assert (k < n) as Hk by (apply lookup_lt_Some in Hz; lia).
    destruct (convertIFCToThreeJS_whole v n k Hv Hk)
      as (x' & y' & z' & Hx' & Hy' & Hz' & H1x & H1y & H1z).
    assert (x' = x) as -> by congruence. assert (y' = y) as -> by congruence.
    assert (z' = z) as -> by congruence.
    destruct (convertIFCToThreeJS_whole (convertIFCToThreeJS v) n k
                ltac:(by rewrite convertIFCToThreeJS_length) Hk)
      as (x2 & y2 & z2 & Hx2 & Hy2 & Hz2 & H2x & H2y & H2z).
    assert (x2 = x) as -> by congruence. assert (y2 = z) as -> by congruence.
    assert (z2 = (- y)%float) as -> by congruence. done. }
  split; [intros k x y z; by apply Htwice|].
  apply list_eq. intros i.
  destruct (decide (i < length vertices)) as [Hi|Hi].
  2: { rewrite !lookup_ge_None_2; [done|lia|].
       rewrite !convertIFCToThreeJS_length. lia. }
  set (k := i / 3).
  assert (k < n) as Hk by (subst k; apply Nat.Div0.div_lt_upper_bound; lia).
  assert (i = 3 * k \/ i = 3 * k + 1 \/ i = 3 * k + 2) as Hcase.
  { subst k. pose proof (Nat.div_mod_eq i 3). pose proof (Nat.mod_upper_bound i 3). lia. }
  clearbody k.
  destruct (convertIFCToThreeJS_whole vertices n k Hlen Hk)
    as (x & y & z & Hx & Hy & Hz & _).
  destruct (Htwice vertices k x y z Hlen Hx Hy Hz) as (H2x & H2y & H2z).
  destruct (Htwice (convertIFCToThreeJS (convertIFCToThreeJS vertices)) k
              x (- y)%float (- z)%float
              ltac:(by rewrite !convertIFCToThreeJS_length) H2x H2y H2z)
    as (H4x & H4y & H4z).
  rewrite !opp_involutive in H4y, H4z.
  destruct Hcase as [->|[->| ->]]; congruence.
Qed.

Lemma convertIFCToThreeJS_quarter_turn_witness :
  convertIFCToThreeJS
    (convertIFCToThreeJS (convertIFCToThreeJS (convertIFCToThreeJS [1; 2; 3]%float)))
  = [1; 2; 3]%float.
Proof.
  exact (proj2 (convertIFCToThreeJS_quarter_turn [1; 2; 3]%float 1 eq_refl)).
Defined.

End ConverterProps.

Section NavigationProps.
Import Three SimpleOrbitControls OrbitSpec NavigationSpec.
Local Open Scope R_scope.

Lemma add_sub_cancel_l t v : sub (add t v) t = v.
Proof. destruct t, v. unfold sub, add. simpl. f_equal; ring. Qed.

Lemma length_nonneg v : 0 <= length v.
Proof. apply sqrt_pos. Qed.

Lemma length_multiplyScalar v s :
  0 <= s -> length (multiplyScalar v s) = s * length v.
Proof.
  intros Hs. unfold length.
  replace (lengthSq (multiplyScalar v s)) with (s * s * lengthSq v)
    by (unfold lengthSq, multiplyScalar; simpl; ring).
  rewrite sqrt_mult; [|nra|apply lengthSq_nonneg].
  by rewrite sqrt_square.
Qed.

Lemma length_normalize v : length v <> 0 -> length (normalize v) = 1.
Proof.
  intros Hv. pose proof (length_nonneg v) as Hpos.
  unfold normalize, divideScalar. rewrite decide_False by done.
  rewrite length_multiplyScalar.
  - field. done.
  - apply Rlt_le. apply Rdiv_lt_0_compat; lra.
Qed.

Lemma length_sub_pos p t : p <> t -> 0 < length (sub p t).
Proof.
  intros Hne. unfold length. apply sqrt_lt_R0.
  destruct p as [x y z], t as [a b c]. unfold lengthSq, sub. simpl.
  assert (forall u v : R, u <> v -> 0 < (u - v) * (u - v)) as Hsq.
  { intros u v Huv. apply (Rsqr_pos_lt (u - v)). lra. }
  pose proof (Rle_0_sqr (x - a)) as Hx0. pose proof (Rle_0_sqr (y - b)) as Hy0.
  pose proof (Rle_0_sqr (z - c)) as Hz0. unfold Rsqr in Hx0, Hy0, Hz0.
  destruct (decide (x = a)) as [->|Hx]; [|specialize (Hsq x a Hx); lra].
  destruct (decide (y = b)) as [->|Hy]; [|specialize (Hsq y b Hy); lra].
  destruct (decide (z = c)) as [->|Hz]; [|specialize (Hsq z c Hz); lra].
  done.
Qed.

Lemma length_eq_0 v : length v = 0 -> v = vec3 0 0 0.
Proof.
  intros H0. unfold length in H0. apply sqrt_eq_0 in H0; [|apply lengthSq_nonneg].
  destruct v as [x y z]. unfold lengthSq in H0. simpl in H0.
  assert (x = 0) as -> by nra. assert (y = 0) as -> by nra. assert (z = 0) as -> by nra.
  done.
Qed.

Lemma length_multiplyScalar_abs v s : length (multiplyScalar v s) = Rabs s * length v.
Proof.
  unfold length.
  replace (lengthSq (multiplyScalar v s)) with (s² * lengthSq v)
    by (unfold lengthSq, multiplyScalar, Rsqr; simpl; ring).
  rewrite sqrt_mult; [|apply Rle_0_sqr|apply lengthSq_nonneg].
  by rewrite sqrt_Rsqr_abs.
Qed.

(** X1: a wheel step on an orthographic camera.  With [f] = 0.95 for a
    negative wheel delta and 1.05 otherwise, the step multiplies the four
    half-extents by [f] when the new half-height [top * f] lies in the open
    range (0.1, 1000), and leaves the camera alone when it does not; position and
    view direction are never touched, and a half-height inside the range stays
    inside it. *)
Theorem zoomOrthographic_scales_within_range :
  forall (cam : Camera) (delta : R),
    let f := if decide (delta < 0) then 0.95 else 1.05 in
    let cam' := zoomOrthographic cam delta in
    (0.1 < top cam * f < 1000 ->
     top cam' = top cam * f /\ bottom cam' = bottom cam * f /\
     left cam' = left cam * f /\ right cam' = right cam * f) /\
    (~ 0.1 < top cam * f < 1000 -> cam' = cam) /\
    position cam' = position cam /\ worldDirection cam' = worldDirection cam /\
    (0.1 < top cam < 1000 -> 0.1 < top cam' < 1000).
Proof.
  intros cam delta f cam'. subst cam'. unfold zoomOrthographic.
  assert ((if decide (delta < 0) then 1 - 0.05 else 1 + 0.05) = f) as ->
    by (subst f; case_decide; lra).
  clearbody f.
  destruct (bool_decide (0.1 < top cam * f) && bool_decide (top cam * f < 1000)) eqn:Hin.
  - apply andb_true_iff in Hin as [H1%bool_decide_eq_true H2%bool_decide_eq_true].
    simpl. repeat split; try done. intros []. by split.
  - assert (~ 0.1 < top cam * f < 1000) as Hout.
    { intros [H1 H2].
      apply andb_false_iff in Hin as [Hin|Hin]; by apply bool_decide_eq_false in Hin. }
    repeat split; try done; tauto.
Qed.

Lemma zoomOrthographic_scales_within_range_witness :
  top (zoomOrthographic initialCamera (-1)) = top initialCamera * 0.95 /\
  right (zoomOrthographic initialCamera (-1)) = right initialCamera * 0.95.
Proof.
  pose proof (zoomOrthographic_scales_within_range initialCamera (-1)) as (H & _).
  rewrite decide_True in H by lra.
  destruct H as (Ht & _ & _ & Hr); [simpl; lra|].
  exact (conj Ht Hr).
Defined.

(** X2: a wheel step on a perspective camera moves it along the line through
    the target: the offset from the target keeps its direction and the new
    distance is the old one less [delta * 0.01], clamped to
    [minDistance, maxDistance]. *)
Theorem zoomPerspective_clamps_distance :
  forall (cam : Camera) (c : t) (delta : R),
    position cam <> target c ->
    0 <= minDistance c <= maxDistance c ->
    let cam' := zoomPerspective cam c delta in
    let d := distanceTo (position cam) (target c) in
    let d' := Rmax (minDistance c) (Rmin (maxDistance c) (d - delta * 0.01)) in
    distanceTo (position cam') (target c) = d' /\
    minDistance c <= distanceTo (position cam') (target c) <= maxDistance c /\
    sub (position cam') (target c) = multiplyScalar (sub (position cam) (target c)) (d' / d).
Proof.
  intros cam c delta Hne [Hmin Hmax] cam' d d'.
  pose proof (length_sub_pos _ _ Hne) as Hd.
  assert (d = length (sub (position cam) (target c))) as Hdeq by done.
  rewrite <- Hdeq in Hd.
  assert (minDistance c <= d' <= maxDistance c) as Hd'.
  { subst d'. split; [apply Rmax_l|]. apply Rmax_lub; [done|apply Rmin_l]. }
  assert (position cam' =
          add (target c) (multiplyScalar (normalize (sub (position cam) (target c))) d'))
    as Hpos by done.
  clearbody d d' cam'.
  assert (distanceTo (position cam') (target c) = d') as Hdist.
  { unfold distanceTo. rewrite Hpos, add_sub_cancel_l.
    rewrite length_multiplyScalar by lra.
    rewrite length_normalize; [ring|]. lra. }
  split; [done|]. split; [by rewrite Hdist|].
  rewrite Hpos, add_sub_cancel_l. unfold normalize, divideScalar.
  rewrite decide_False by lra. rewrite <- Hdeq.
  unfold multiplyScalar. simpl. f_equal; field; lra.
Qed.

Lemma perspectiveCamera_off_target : position perspectiveCamera <> target idleControls.
Proof. simpl. intros [=]. lra. Qed.

Lemma zoomPerspective_clamps_distance_witness :
  minDistance idleControls
    <= distanceTo (position (zoomPerspective perspectiveCamera idleControls 100))
                  (target idleControls)
    <= maxDistance idleControls.
Proof.
  exact (proj1 (proj2 (zoomPerspective_clamps_distance perspectiveCamera idleControls 100
                         perspectiveCamera_off_target
                         ltac:(simpl; lra)))).
Defined.

(** X3: what [setZoom] writes and [getZoom] reads back.  On an orthographic
    camera [setZoom] makes the half-height the given level and the frustum
    centred, with half-width the level times the old ratio [right / top], and
    leaves position and view direction alone; [getZoom] then returns that level.
    On a perspective camera away from the target it moves the camera along the
    ray from the target to the distance given (taken over the real numbers, as
    everywhere in this embedding), which [getZoom] returns for a non-negative
    level; a camera on the target stays there. *)
Theorem setZoom_getZoom_roundtrip :
  forall (cam : Camera) (c : t) (zoom : R),
    let cam' := setZoom cam c zoom in
    (isOrthographicCamera cam = true ->
     top cam' = zoom /\ bottom cam' = - zoom /\
     right cam' = zoom * (right cam / top cam) /\
     left cam' = - zoom * (right cam / top cam) /\
     position cam' = position cam /\ worldDirection cam' = worldDirection cam /\
     getZoom cam' c = zoom) /\
    (isOrthographicCamera cam = false ->
     frustum cam' = frustum cam /\ worldDirection cam' = worldDirection cam /\
     (position cam = target c -> position cam' = position cam) /\
     (position cam <> target c -> 0 <= zoom ->
      getZoom cam' c = zoom /\
      sub (position cam') (target c)
        = multiplyScalar (sub (position cam) (target c))
            (zoom / distanceTo (position cam) (target c)))).
Proof.
  intros cam c zoom cam'. subst cam'. unfold setZoom, getZoom. split; intros Ho; rewrite Ho.
  - simpl. rewrite Ho. repeat split; done.
  - split; [done|]. split; [done|]. split.
    + intros Heq. cbn [position withPosition]. rewrite Heq.
      destruct (target c) as [a b c']. unfold add, multiplyScalar, normalize, divideScalar, sub.
      simpl. f_equal; ring.
    + intros Hne Hzoom. pose proof (length_sub_pos _ _ Hne) as Hd.
      cbn [isOrthographicCamera withPosition position]. rewrite Ho.
      unfold distanceTo. rewrite add_sub_cancel_l. split.
      * rewrite length_multiplyScalar by done. rewrite length_normalize by lra. ring.
      * unfold normalize, divideScalar. rewrite decide_False by lra.
        unfold multiplyScalar. simpl. f_equal; field; lra.
Qed.

Lemma setZoom_getZoom_roundtrip_witness :
  getZoom (setZoom perspectiveCamera idleControls 25) idleControls = 25 /\
  getZoom (setZoom initialCamera idleControls 4) idleControls = 4.
Proof.
  split.
  - apply (proj2 (setZoom_getZoom_roundtrip perspectiveCamera idleControls 25) eq_refl).
    + exact perspectiveCamera_off_target.
    + lra.
  - apply (proj1 (setZoom_getZoom_roundtrip initialCamera idleControls 4) eq_refl).
Defined.

Lemma dot_cross_l a b : dot (cross a b) a = 0.
Proof. unfold dot, cross. simpl. ring. Qed.

Lemma dot_multiplyScalar a b s : dot (multiplyScalar a s) b = s * dot a b.
Proof. unfold dot, multiplyScalar. simpl. ring. Qed.

(** X4: panning moves the camera and the controls' target by one and the
    same vector, [sx] along the camera's right axis (the normalised cross
    product of view direction and up) plus [sy] along its up vector, where for
    an orthographic camera [sx] is the share [- dx / clientWidth] of the frustum
    width and [sy] the share [dy / clientHeight] of the frustum height, and for
    a perspective camera [- dx] and [dy] times a thousandth of the distance to
    the target.  The offset from target to camera, the zoom level, the frustum
    and the view direction are kept.  The sideways part is at right angles to
    the view direction and, when view direction and up are not parallel, [|sx|]
    long. *)
Theorem pan_translates_camera_and_target :
  forall (cam : Camera) (c : t) (dx dy : R),
    let out := pan cam c dx dy in
    let r := normalize (cross (worldDirection cam) (up cam)) in
    let sx := if isOrthographicCamera cam
              then - dx / clientWidth c * (right cam - left cam)
              else - dx * (distanceTo (position cam) (target c) * 0.001) in
    let sy := if isOrthographicCamera cam
              then dy / clientHeight c * (top cam - bottom cam)
              else dy * (distanceTo (position cam) (target c) * 0.001) in
    let move := add (multiplyScalar r sx) (multiplyScalar (up cam) sy) in
    sub (position out.1) (position cam) = move /\
    sub (target out.2) (target c) = move /\
    sub (position out.1) (target out.2) = sub (position cam) (target c) /\
    getZoom out.1 out.2 = getZoom cam c /\
    frustum out.1 = frustum cam /\
    worldDirection out.1 = worldDirection cam /\
    state out.2 = state c /\
    dot (multiplyScalar r sx) (worldDirection cam) = 0 /\
    (cross (worldDirection cam) (up cam) <> vec3 0 0 0 ->
     length (multiplyScalar r sx) = Rabs sx).
Proof.
  intros cam c dx dy out r sx sy move. subst out. unfold pan. cbn [fst snd].
  assert (calculatePanVector cam c dx dy = move) as ->.
  { unfold calculatePanVector. subst move sx sy r.
    destruct (isOrthographicCamera cam);
      unfold addScaledVector, add, multiplyScalar; simpl; f_equal; ring. }
  clearbody move.
  assert (sub (add (position cam) move) (add (target c) move) = sub (position cam) (target c))
    as Hoff by (unfold sub, add; simpl; f_equal; ring).
  split; [apply add_sub_cancel_l|].
  split; [apply add_sub_cancel_l|].
  split; [done|]. split.
  { unfold getZoom, distanceTo. simpl. by rewrite Hoff. }
  split; [done|]. split; [done|]. split; [done|]. split.
  - subst r. unfold normalize, divideScalar.
    rewrite !dot_multiplyScalar, dot_cross_l. ring.
  - intros Hne. rewrite length_multiplyScalar_abs. subst r.
    rewrite length_normalize; [ring|].
    intros H0. apply Hne. by apply length_eq_0.
Qed.

Lemma onMouseMove_released modelCenter cam c event :
  leftButton (state c) = false -> rightButton (state c) = false ->
  middleButton (state c) = false ->
  onMouseMove modelCenter cam c event = (cam, c).
Proof. intros Hl Hr Hm. unfold onMouseMove. by rewrite Hl, Hr, Hm. Qed.

(** X5: once the buttons are released ([onMouseUp]) pointer moves change
    neither the camera nor the controls, however many follow; and while the
    primary button is not held a move never rotates: it keeps the offset from
    target to camera and the view direction, and moves nothing at all unless the
    secondary button is held. *)
Theorem onMouseMove_needs_button :
  forall (modelCenter : Vector3) (cam : Camera) (c : t) (event : MouseEvent),
    leftButton (state c) = false ->
    let out := onMouseMove modelCenter cam c event in
    sub (position out.1) (target out.2) = sub (position cam) (target c) /\
    worldDirection out.1 = worldDirection cam /\
    frustum out.1 = frustum cam /\
    (if rightButton (state c) && enablePan c then True
     else out.1 = cam /\ target out.2 = target c) /\
    forall events, moves modelCenter (cam, onMouseUp c) events = (cam, onMouseUp c).
Proof.
  intros modelCenter cam c event Hl out. split; [|split; [|split; [|split]]].
  5: { intros events. induction events as [|e events IH]; [done|].
       unfold moves in *. cbn [fold_left fst snd].
       by rewrite onMouseMove_released. }
  all: subst out.
  all: destruct c as [tg [l r m pm mx my mxp myp] ez ep er ar ars mind maxd cw ch].
  all: simpl in Hl; subst l.
  all: unfold onMouseMove; destruct r, m, ep; cbn -[calculatePanVector sub add]; try done.
  all: match goal with
       | |- context [calculatePanVector ?a ?b ?x ?y] =>
           generalize (calculatePanVector a b x y); intros pv
       end.
  all: unfold sub, add; simpl; f_equal; ring.
Qed.

Lemma onMouseMove_needs_button_witness :
  let c := onMouseDown idleControls (mkMouseEvent 2 400 300) in
  let out := onMouseMove (vec3 0 0 0) initialCamera c (mkMouseEvent 2 410 300) in
  sub (position out.1) (target out.2) = sub (position initialCamera) (target c) /\
  worldDirection out.1 = worldDirection initialCamera.
Proof.
  intros c out.
  destruct (onMouseMove_needs_button (vec3 0 0 0) initialCamera c
              (mkMouseEvent 2 410 300) eq_refl) as (H1 & H2 & _).
  exact (conj H1 H2).
Defined.

Lemma vy_setFromVector3 v :
  cos (phi (setFromVector3 v)) * radius (setFromVector3 v) = vy v.
Proof.
  unfold setFromVector3.
  change (sqrt _) with (length v).
  pose proof (length_nonneg v) as Hpos.
  assert (vy v * vy v <= length v * length v) as Hy.
  { unfold length. rewrite sqrt_sqrt by apply lengthSq_nonneg.
    unfold lengthSq. nra. }
  destruct (decide (length v = 0)) as [H0|Hn]; simpl.
  - rewrite H0 in *. rewrite cos_0. nra.
  - assert (0 < length v) as Hlt by lra.
    assert (-1 <= vy v / length v <= 1) as Hb.
    { split.
      - apply Rmult_le_reg_r with (length v); [done|].
        unfold Rdiv. rewrite Rmult_assoc, Rinv_l by done. nra.
      - apply Rmult_le_reg_r with (length v); [done|].
        unfold Rdiv. rewrite Rmult_assoc, Rinv_l by done. nra. }
    unfold clamp. rewrite Rmin_right by lra. rewrite Rmax_right by lra.
    rewrite cos_acos by done. field. done.
Qed.

(** The polar form [Math.atan2] stands for: with [rho] the length of (a, b),
    the angle [atan2 a b] has sine [a / rho] and cosine [b / rho]. *)
Lemma atan2_polar a b :
  sqrt (a * a + b * b) * sin (atan2 a b) = a /\
  sqrt (a * a + b * b) * cos (atan2 a b) = b.
Proof.
  assert (forall t, 0 < sqrt (1 + t²)) as Hpos.
  { intros t. apply sqrt_lt_R0. pose proof (Rle_0_sqr t). lra. }
  assert (b <> 0 -> sqrt (a * a + b * b) = Rabs b * sqrt (1 + (a / b)²)) as Hrho.
  { intros Hb. rewrite <- sqrt_Rsqr_abs. rewrite <- sqrt_mult.
    - f_equal. unfold Rsqr. field. done.
    - apply Rle_0_sqr.
    - pose proof (Rle_0_sqr (a / b)). lra. }
  unfold atan2. destruct (decide (0 < b)) as [Hb|Hb].
  - rewrite Hrho by lra. rewrite Rabs_right by lra.
    rewrite sin_atan, cos_atan. pose proof (Hpos (a / b)).
    split; field; repeat split; lra.
  - destruct (decide (b < 0)) as [Hb'|Hb'].
    + rewrite Hrho by lra. rewrite Rabs_left by lra. pose proof (Hpos (a / b)).
      destruct (decide (0 <= a)).
      * rewrite neg_sin, neg_cos, sin_atan, cos_atan. split; field; repeat split; lra.
      * rewrite sin_minus, cos_minus, sin_PI, cos_PI, sin_atan, cos_atan.
        split; field; repeat split; lra.
    + assert (b = 0) as -> by lra.
      replace (a * a + 0 * 0) with (a²) by (unfold Rsqr; ring).
      rewrite sqrt_Rsqr_abs.
      destruct (decide (0 < a)) as [Ha|Ha].
      * rewrite Rabs_right by lra. rewrite sin_PI2, cos_PI2. split; ring.
      * destruct (decide (a < 0)) as [Ha'|Ha'].
        -- rewrite Rabs_left by lra. rewrite sin_neg, cos_neg, sin_PI2, cos_PI2.
           split; ring.
        -- assert (a = 0) as -> by lra. rewrite Rabs_R0. split; ring.
Qed.

(** The horizontal radius of the spherical form: [sin(phi) * radius] is the
    length of the offset's projection on the ground plane. *)
Lemma sinPhi_radius v :
  sin (phi (setFromVector3 v)) * radius (setFromVector3 v)
  = sqrt (vx v * vx v + vz v * vz v).
Proof.
  unfold setFromVector3.
  change (sqrt (vx v * vx v + vy v * vy v + vz v * vz v)) with (length v).
  pose proof (length_nonneg v) as Hpos.
  assert (length v * length v = vx v * vx v + vy v * vy v + vz v * vz v) as Hsq.
  { unfold length. rewrite sqrt_sqrt by apply lengthSq_nonneg. done. }
  destruct (decide (length v = 0)) as [H0|Hn]; simpl.
  - rewrite H0 in *. rewrite sin_0.
    assert (vx v * vx v + vz v * vz v = 0) as -> by nra.
    rewrite sqrt_0. ring.
  - assert (0 < length v) as Hlt by lra.
    assert (-1 <= vy v / length v <= 1) as Hb.
    { split.
      - apply Rmult_le_reg_r with (length v); [done|].
        unfold Rdiv. rewrite Rmult_assoc, Rinv_l by done. nra.
      - apply Rmult_le_reg_r with (length v); [done|].
        unfold Rdiv. rewrite Rmult_assoc, Rinv_l by done. nra. }
    unfold clamp. rewrite Rmin_right by lra. rewrite Rmax_right by lra.
    rewrite sin_acos by done.
    rewrite <- (sqrt_square (length v)) at 2 by done.
    rewrite <- sqrt_mult.
    + f_equal. unfold Rsqr.
      replace (vx v * vx v + vz v * vz v) with (length v * length v - vy v * vy v) by lra.
      field. done.
    + destruct Hb as [Hb1 Hb2]. unfold Rsqr.
      assert (vy v / length v * (vy v / length v) <= 1) by nra. lra.
    + nra.
Qed.

(** X6: the auto-rotation step of [update] turns the camera about the
    vertical axis through the target by the angle [autoRotateSpeed * 0.01]: with
    (x, y, z) the offset from target to camera and [d] that angle, the new
    offset is (x cos d + z sin d, y, z cos d - x sin d).  The camera so keeps
    its height and its distance to the target, keeps its frustum and looks at
    the target again; with auto-rotation off (as the viewer configures it)
    [update] changes nothing. *)
Theorem update_orbits_at_constant_height :
  forall (cam : Camera) (c : t),
    let cam' := update cam c in
    let v := sub (position cam) (target c) in
    let d := autoRotateSpeed c * 0.01 in
    (autoRotate c = true ->
     sub (position cam') (target c)
       = vec3 (vx v * cos d + vz v * sin d) (vy v) (vz v * cos d - vx v * sin d) /\
     worldDirection cam' = negate (lookAtZ (position cam') (target c) (up cam))) /\
    (autoRotate c = false -> cam' = cam) /\
    vy (position cam') = vy (position cam) /\
    distanceTo (position cam') (target c) = distanceTo (position cam) (target c) /\
    frustum cam' = frustum cam.
Proof.
  intros cam c cam' v d. subst cam'. unfold update.
  destruct (autoRotate c); [|done].
  fold v. fold d.
  cbn [lookAt position withPosition withWorldDirection frustum left right top bottom
       worldDirection up].
  split; [|split; [done|split; [|split; [|done]]]].
  - intros _. split; [|done]. rewrite sub_add_cancel.
    unfold setFromSpherical. cbn [phi radius theta].
    rewrite vy_setFromVector3, sinPhi_radius.
    assert (theta (setFromVector3 v) = atan2 (vx v) (vz v) \/
            (theta (setFromVector3 v) = 0 /\ vx v * vx v + vz v * vz v = 0)) as Hth.
    { unfold setFromVector3.
      change (sqrt (vx v * vx v + vy v * vy v + vz v * vz v)) with (length v).
      destruct (decide (length v = 0)) as [H0|Hn]; [right|by left].
      split; [done|]. apply length_eq_0 in H0. rewrite H0. simpl. ring. }
    destruct Hth as [->|[-> H0]].
    + destruct (atan2_polar (vx v) (vz v)) as [Hs Hc].
      rewrite sin_plus, cos_plus.
      set (rho := sqrt (vx v * vx v + vz v * vz v)) in *.
      set (s := sin (atan2 (vx v) (vz v))) in *.
      set (co := cos (atan2 (vx v) (vz v))) in *.
      clearbody rho s co. rewrite <- Hs, <- Hc. f_equal; ring.
    + rewrite H0, sqrt_0.
      assert (vx v = 0) as -> by nra. assert (vz v = 0) as -> by nra.
      f_equal; ring.
  - unfold add, setFromSpherical. cbn [vy phi radius].
    rewrite vy_setFromVector3. unfold v, sub. simpl. ring.
  - unfold distanceTo. rewrite sub_add_cancel.
    rewrite length_setFromSpherical by (simpl; apply radius_setFromVector3_nonneg).
    simpl. by rewrite radius_setFromVector3.
Qed.

End NavigationProps.

Section CameraProps.
Import Three ThreeJSViewer CameraSpec.
Local Open Scope R_scope.

(** Over the real numbers, writing back the zoom level just read gives the
    same camera. *)
Lemma setZoom_getZoom cam c :
  (isOrthographicCamera cam = true -> symmetricFrustum cam) ->
  SimpleOrbitControls.setZoom cam c (SimpleOrbitControls.getZoom cam c) = cam.
Proof.
  intros Hsym. unfold SimpleOrbitControls.setZoom, SimpleOrbitControls.getZoom.
  destruct cam as [o p u l r t b wd]. simpl in *. destruct o.
  - destruct (Hsym eq_refl) as (Hl & Hb & Ht). simpl in *. subst l b.
    unfold withFrustum. simpl. f_equal; field; done.
  - unfold withPosition. simpl. f_equal.
    set (tg := SimpleOrbitControls.target c).
    unfold distanceTo, normalize, divideScalar.
    destruct (decide (length (sub p tg) = 0)) as [H0|Hn].
    + pose proof (length_eq_0 _ H0) as Hv. rewrite H0.
      destruct p as [x y z], tg as [a b' c']. unfold sub in Hv. simpl in Hv.
      injection Hv as Hx Hy Hz. unfold add, multiplyScalar, sub. simpl.
      f_equal; lra.
    + destruct p as [x y z], tg as [a b' c'].
      unfold add, multiplyScalar, sub in *. simpl in *. f_equal; field; done.
Qed.

Lemma updateCameraFrustum_skipped container v :
  (isOrthographicCamera (camera v) = true -> degenerate container = true) ->
  updateCameraFrustum container v = v.
Proof.
  intros Hd. unfold updateCameraFrustum.
  destruct (isOrthographicCamera (camera v)); [|done]. simpl.
  unfold degenerate in Hd. by rewrite Hd.
Qed.

(** X7: a resize while the viewport is degenerate (zero or negative width or
    height), or with a perspective camera, skips the frustum update: it records
    the new renderer size and keeps [frustumSize], the controls and the view
    direction.  Without controls the camera is not touched.  With controls the
    zoom level is read before and written back after: an orthographic camera
    keeps its half-height [top], and its frustum is rewritten centred on the
    view axis with half-width [top * (right / top)]; a perspective camera is put
    on the ray from the target through its position, at the distance it was
    read at. *)
Theorem onWindowResize_degenerate_viewport :
  forall (container : Container) (v : t),
    (isOrthographicCamera (camera v) = true -> degenerate container = true) ->
    let v' := onWindowResize container v in
    let cam := camera v in
    rendererSize v' = (clientWidth container, clientHeight container) /\
    frustumSize v' = frustumSize v /\
    controls v' = controls v /\
    worldDirection (camera v') = worldDirection cam /\
    (controls v = None -> camera v' = cam) /\
    (forall c, controls v = Some c -> isOrthographicCamera cam = true ->
       camera v' = withFrustum cam (- top cam * (right cam / top cam))
                     (top cam * (right cam / top cam)) (top cam) (- top cam)) /\
    (forall c, controls v = Some c -> isOrthographicCamera cam = false ->
       camera v' =
       withPosition cam
         (add (SimpleOrbitControls.target c)
            (multiplyScalar (normalize (sub (position cam) (SimpleOrbitControls.target c)))
               (distanceTo (position cam) (SimpleOrbitControls.target c))))).
Proof.
  intros container v H v' cam. subst v' cam. unfold onWindowResize.
  rewrite updateCameraFrustum_skipped by done.
  unfold SimpleOrbitControls.setZoom, SimpleOrbitControls.getZoom.
  destruct (controls v) as [c|] eqn:Hc.
  - destruct (isOrthographicCamera (camera v)) eqn:Ho; cbn; rewrite ?Hc.
    all: repeat split; try done.
    all: by intros c' [= <-] _.
  - cbn. rewrite ?Hc. repeat split; done.
Qed.

Lemma onWindowResize_degenerate_viewport_witness :
  rendererSize (onWindowResize hiddenContainer ResizeSpec.freshViewer) = (0, 0) /\
  frustumSize (onWindowResize hiddenContainer ResizeSpec.freshViewer) = 20 /\
  top (camera (onWindowResize hiddenContainer ResizeSpec.freshViewer)) = 20 * 0.5.
Proof.
  assert (isOrthographicCamera (camera ResizeSpec.freshViewer) = true ->
          degenerate hiddenContainer = true) as Hdeg.
  { intros _. unfold degenerate. simpl. apply orb_true_iff. left.
    apply bool_decide_eq_true. lra. }
  destruct (onWindowResize_degenerate_viewport hiddenContainer ResizeSpec.freshViewer Hdeg)
    as (Hsize & Hf & _ & _ & _ & Hortho & _).
  split; [exact Hsize|]. split; [exact Hf|].
  rewrite (Hortho _ eq_refl eq_refl). reflexivity.
Defined.

(** The camera a resize to a positive viewport leaves. *)
Lemma onWindowResize_camera container v :
  isOrthographicCamera (camera v) = true ->
  0 < rectWidth container -> 0 < rectHeight container ->
  let aspect := rectWidth container / rectHeight container in
  let s := if decide (frustumSize v = 0) then 20 else frustumSize v in
  onWindowResize container v =
  mkViewer
    (match controls v with
     | Some _ =>
         withFrustum (camera v)
           (- top (camera v) * (s * 0.5 * aspect / (s * 0.5)))
           (top (camera v) * (s * 0.5 * aspect / (s * 0.5)))
           (top (camera v)) (- top (camera v))
     | None =>
         withFrustum (camera v) (- (s * 0.5 * aspect)) (s * 0.5 * aspect)
                     (s * 0.5) (- (s * 0.5))
     end)
    (frustumSize v) (controls v) (clientWidth container, clientHeight container).
Proof.
  intros Ho Hw Hh aspect s.
  unfold onWindowResize, updateCameraFrustum. rewrite Ho. simpl.
  rewrite !bool_decide_eq_false_2 by lra. simpl.
  destruct (controls v) as [c|] eqn:Hc.
  - unfold SimpleOrbitControls.setZoom, SimpleOrbitControls.getZoom,
      withRendererSize, withCamera.
    simpl. rewrite Ho, ?Hc. simpl. done.
  - unfold withRendererSize, withCamera. simpl. by rewrite Hc.
Qed.

(** X8: resizes do not accumulate: after any earlier resize, a resize to a
    positive viewport gives exactly the viewer that this resize alone would have
    given. *)
Theorem onWindowResize_last_wins :
  forall (first last : Container) (v : t),
    0 < rectWidth last -> 0 < rectHeight last ->
    onWindowResize last (onWindowResize first v) = onWindowResize last v.
Proof.
  intros c1 c2 v Hw Hh.
  destruct (isOrthographicCamera (camera v)) eqn:Ho.
  - rewrite (onWindowResize_camera c2 v Ho Hw Hh).
    assert (exists cam1,
               onWindowResize c1 v =
               mkViewer cam1 (frustumSize v) (controls v) (clientWidth c1, clientHeight c1) /\
               isOrthographicCamera cam1 = true /\
               (is_Some (controls v) -> top cam1 = top (camera v)) /\
               position cam1 = position (camera v) /\ up cam1 = up (camera v) /\
               worldDirection cam1 = worldDirection (camera v)) as (cam1 & -> & Ho1 & Ht & Hp & Hu & Hd).
    { unfold onWindowResize, updateCameraFrustum. rewrite Ho. simpl.
      destruct (bool_decide (rectWidth c1 <= 0) || bool_decide (rectHeight c1 <= 0));
        unfold withRendererSize, withCamera, SimpleOrbitControls.setZoom,
          SimpleOrbitControls.getZoom; simpl; rewrite ?Ho; simpl;
        destruct (controls v) as [c|] eqn:Hc; simpl; rewrite ?Ho.
      all: rewrite ?Hc; eexists; split; [reflexivity|]; simpl; rewrite ?Ho.
      all: repeat split; try done; by intros [? ?]. }
    rewrite (onWindowResize_camera c2 (mkViewer cam1 _ _ _) Ho1 Hw Hh). simpl.
    f_equal. destruct (controls v) as [c|].
    + rewrite Ht by eauto. unfold withFrustum. by rewrite Ho1, Ho, Hp, Hu, Hd.
    + unfold withFrustum. by rewrite Ho1, Ho, Hp, Hu, Hd.
  - assert (forall c v, isOrthographicCamera (camera v) = false ->
              onWindowResize c v = withRendererSize v (clientWidth c, clientHeight c)) as Hp.
    { intros c v0 Hv0. unfold onWindowResize.
      rewrite updateCameraFrustum_skipped by (by rewrite Hv0).
      destruct (controls v0); [|done].
      rewrite setZoom_getZoom by (by rewrite Hv0). by destruct v0. }
    rewrite (Hp c1 v Ho). rewrite !Hp by done. done.
Qed.

Lemma onWindowResize_last_wins_witness :
  onWindowResize ResizeSpec.resizedContainer
    (onWindowResize hiddenContainer ResizeSpec.freshViewer)
  = onWindowResize ResizeSpec.resizedContainer ResizeSpec.freshViewer.
Proof.
  apply (onWindowResize_last_wins hiddenContainer ResizeSpec.resizedContainer
           ResizeSpec.freshViewer); simpl; lra.
Defined.

(** X9: [createOrthographicCamera] always yields an orthographic camera at
    (10, 10, 10) with a centred frustum of half-height [frustumSize / 2] and
    half-width that times the aspect ratio, 16 / 9 standing in for the aspect
    ratio of a degenerate viewport.  Only for a proper viewport does the manager
    record the requested [frustumSize]; otherwise it keeps the size it had.  For
    a proper viewport and a non-zero size the viewer's [updateCameraFrustum]
    agrees with it and leaves the camera as created. *)
Theorem createOrthographicCamera_frustum :
  forall (container : Container) (cm : CameraManager.t) (size : R),
    let cm' := CameraManager.createOrthographicCamera container cm size in
    exists cam,
      CameraManager.camera cm' = Some cam /\
      isOrthographicCamera cam = true /\
      position cam = vec3 10 10 10 /\
      top cam = size / 2 /\ bottom cam = - top cam /\
      right cam = size / 2 * aspectOf container /\ left cam = - right cam /\
      CameraManager.frustumSize cm' =
        (if degenerate container then CameraManager.frustumSize cm else size) /\
      (size <> 0 -> degenerate container = false ->
       forall ctrl sz,
         updateCameraFrustum container (mkViewer cam size ctrl sz)
         = mkViewer cam size ctrl sz).
Proof.
  intros container cm size cm'. subst cm'.
  unfold CameraManager.createOrthographicCamera, aspectOf, degenerate.
  destruct (bool_decide (rectWidth container <= 0) || bool_decide (rectHeight container <= 0))
    eqn:Hdeg.
  - eexists. split; [reflexivity|]. simpl.
    repeat split; try lra; try done.
  - eexists. split; [reflexivity|]. simpl.
    repeat split; try lra. intros Hs _ ctrl sz.
    unfold updateCameraFrustum. simpl. rewrite Hdeg.
    rewrite decide_False by done.
    unfold withCamera, withFrustum, lookAt, withWorldDirection, withPosition. simpl.
    done.
Qed.

Lemma createOrthographicCamera_frustum_witness :
  exists cam,
    CameraManager.camera
      (CameraManager.createOrthographicCamera ResizeSpec.resizedContainer
         CameraManager.create 20) = Some cam /\
    top cam = 20 / 2 /\
    right cam = 20 / 2 * aspectOf ResizeSpec.resizedContainer /\
    updateCameraFrustum ResizeSpec.resizedContainer (mkViewer cam 20 None (800, 400))
    = mkViewer cam 20 None (800, 400).
Proof.
  destruct (createOrthographicCamera_frustum ResizeSpec.resizedContainer
              CameraManager.create 20)
    as (cam & Hcam & _ & _ & Ht & _ & Hr & _ & _ & Hagree).
  exists cam. split; [exact Hcam|]. split; [exact Ht|]. split; [exact Hr|].
  apply Hagree; [lra|].
  unfold degenerate. simpl. rewrite !bool_decide_eq_false_2 by lra. reflexivity.
Defined.

Lemma Rmax_5_pos x : 5 <= Rmax x 5.
Proof. apply Rmax_r. Qed.

(** X10: [fitToModel] on an orthographic camera sizes the frustum from the
    largest side of the bounds, never below 5: the recorded [frustumSize] is
    max(1.5 maxDim, 5), the frustum is centred with half-height [frustumSize / 2]
    and half-width that times the aspect ratio, the camera sits at 3 maxDim on
    each axis and the target becomes the model centre.  Without bounds nothing
    changes. *)
Theorem fitToModel_orthographic :
  forall (container : Container) (cm : CameraManager.t) (cam : Camera)
         (modelCenter : Vector3) (bounds : Box3.t) (target : Vector3),
    CameraManager.camera cm = Some cam ->
    isOrthographicCamera cam = true ->
    let out := CameraManager.fitToModel container cm modelCenter (Some bounds) target in
    CameraManager.fitToModel container cm modelCenter None target = (cm, target) /\
    CameraManager.frustumSize out.1 = Rmax (maxDim bounds * 1.5) 5 /\
    5 <= CameraManager.frustumSize out.1 /\
    out.2 = modelCenter /\
    exists cam',
      CameraManager.camera out.1 = Some cam' /\
      isOrthographicCamera cam' = true /\
      symmetricFrustum cam' /\
      top cam' = CameraManager.frustumSize out.1 / 2 /\
      right cam' = top cam' * aspectOf container /\
      position cam' = vec3 (maxDim bounds * 3) (maxDim bounds * 3) (maxDim bounds * 3) /\
      worldDirection cam' = negate (lookAtZ (position cam') modelCenter (up cam)).
Proof.
  intros container cm cam modelCenter bounds target Hcam Ho out. subst out.
  unfold CameraManager.fitToModel. rewrite Hcam, Ho.
  fold (maxDim bounds). fold (degenerate container). fold (aspectOf container).
  cbn [fst snd CameraManager.frustumSize CameraManager.camera].
  pose proof (Rmax_5_pos (maxDim bounds * 1.5)) as H5.
  split; [done|]. split; [done|]. split; [done|]. split; [done|].
  eexists. split; [reflexivity|]. unfold symmetricFrustum. simpl.
  rewrite Ho. repeat split; try lra; done.
Qed.

Lemma fitToModel_orthographic_witness :
  CameraManager.frustumSize
    (CameraManager.fitToModel hiddenContainer
       (CameraManager.mkCameraManager (Some OrbitSpec.initialCamera) 20)
       (vec3 2 1.5 1) (Some smallBox) (vec3 0 0 0)).1
  = Rmax (maxDim smallBox * 1.5) 5.
Proof.
  exact (proj1 (proj2
    (fitToModel_orthographic hiddenContainer
       (CameraManager.mkCameraManager (Some OrbitSpec.initialCamera) 20)
       OrbitSpec.initialCamera (vec3 2 1.5 1) smallBox (vec3 0 0 0) eq_refl eq_refl))).
Defined.

Lemma fitCameraToModel_unfold container box v c :
  Box3.isEmpty box = false ->
  isOrthographicCamera (camera (ViewerFit.viewer v)) = true ->
  controls (ViewerFit.viewer v) = Some c ->
  SimpleOrbitControls.autoRotate c = false ->
  let size := Rmax (maxDim box * 1.5) 5 in
  ViewerFit.fitCameraToModel container box v =
  ViewerFit.mkViewerFit
    (mkViewer
       (withFrustum
          (lookAt (withPosition (camera (ViewerFit.viewer v))
                     (vec3 (maxDim box * 3) (maxDim box * 3) (maxDim box * 3)))
                  (scaledCenter box))
          (- (size * 0.5 * aspectOf container)) (size * 0.5 * aspectOf container)
          (size * 0.5) (- (size * 0.5)))
       size
       (Some (SimpleOrbitControls.withTarget c (scaledCenter box)))
       (rendererSize (ViewerFit.viewer v)))
    size (scaledCenter box).
Proof.
  intros He Ho Hc Ha size.
  pose proof (Rmax_5_pos (maxDim box * 1.5)) as H5. fold size in H5.
  unfold ViewerFit.fitCameraToModel. rewrite He.
  fold (maxDim box). fold (scaledCenter box).
  unfold CameraManager.fitToModel.
  cbn [CameraManager.camera]. rewrite Ho.
  fold (maxDim box). fold (degenerate container). fold (aspectOf container). fold size.
  cbn [fst snd CameraManager.camera CameraManager.frustumSize default
       CameraManager.getFrustumSize].
  unfold updateCameraFrustum, Datatypes.id. cbn [camera frustumSize].
  assert (isOrthographicCamera
            (withFrustum
               (lookAt (withPosition (camera (ViewerFit.viewer v))
                          (vec3 (maxDim box * 3) (maxDim box * 3) (maxDim box * 3)))
                       (scaledCenter box))
               (- (size * 0.5 * aspectOf container)) (size * 0.5 * aspectOf container)
               (size * 0.5) (- (size * 0.5))) = true) as -> by done.
  cbn [negb]. fold (degenerate container).
  unfold aspectOf. destruct (degenerate container) eqn:Hd.
  - cbn [controls]. rewrite Hc. unfold SimpleOrbitControls.update.
    cbn [SimpleOrbitControls.autoRotate SimpleOrbitControls.withTarget]. rewrite Ha.
    reflexivity.
  - rewrite decide_False by lra.
    cbn [controls withCamera]. rewrite Hc. unfold SimpleOrbitControls.update.
    cbn [SimpleOrbitControls.autoRotate SimpleOrbitControls.withTarget]. rewrite Ha.
    reflexivity.
Qed.

(** X11: [fitCameraToModel] on a non-empty box frames the model whatever the
    zoom was before: the viewer and its CameraManager both record
    [frustumSize] = max(1.5 maxDim, 5), with maxDim the largest side of the box
    as found (also when the centre is scaled by 0.001), the frustum is centred
    with half-height [frustumSize / 2], and the viewer's target and the
    controls' target become the scaled centre. *)
Theorem fitCameraToModel_frames_model :
  forall (container : Container) (box : Box3.t) (v : ViewerFit.t)
         (c : SimpleOrbitControls.t),
    Box3.isEmpty box = false ->
    isOrthographicCamera (camera (ViewerFit.viewer v)) = true ->
    controls (ViewerFit.viewer v) = Some c ->
    SimpleOrbitControls.autoRotate c = false ->
    let v' := ViewerFit.fitCameraToModel container box v in
    let size := Rmax (maxDim box * 1.5) 5 in
    frustumSize (ViewerFit.viewer v') = size /\
    ViewerFit.cameraManagerFrustumSize v' = size /\
    top (camera (ViewerFit.viewer v')) = size / 2 /\
    symmetricFrustum (camera (ViewerFit.viewer v')) /\
    right (camera (ViewerFit.viewer v')) = size / 2 * aspectOf container /\
    position (camera (ViewerFit.viewer v'))
      = vec3 (maxDim box * 3) (maxDim box * 3) (maxDim box * 3) /\
    ViewerFit.target v' = scaledCenter box /\
    controls (ViewerFit.viewer v')
      = Some (SimpleOrbitControls.withTarget c (scaledCenter box)).
Proof.
  intros container box v c He Ho Hc Ha v' size. subst v'.
  pose proof (Rmax_5_pos (maxDim box * 1.5)) as H5. fold size in H5.
  pose proof (fitCameraToModel_unfold container box v c He Ho Hc Ha) as Hv.
  cbv zeta in Hv. fold size in Hv. rewrite Hv.
  unfold symmetricFrustum. cbn [ViewerFit.viewer ViewerFit.cameraManagerFrustumSize
    ViewerFit.target frustumSize camera controls top bottom left right position
    withFrustum lookAt withWorldDirection withPosition].
  repeat split; try lra; done.
Qed.

Lemma smallBox_not_empty : Box3.isEmpty smallBox = false.
Proof.
  unfold Box3.isEmpty. simpl. rewrite !bool_decide_eq_false_2 by lra. reflexivity.
Qed.

Lemma fitCameraToModel_frames_model_witness :
  frustumSize (ViewerFit.viewer
                 (ViewerFit.fitCameraToModel ResizeSpec.resizedContainer smallBox freshFit))
    = Rmax (maxDim smallBox * 1.5) 5 /\
  ViewerFit.target (ViewerFit.fitCameraToModel ResizeSpec.resizedContainer smallBox freshFit)
    = scaledCenter smallBox.
Proof.
  destruct (fitCameraToModel_frames_model ResizeSpec.resizedContainer smallBox freshFit
              _ smallBox_not_empty eq_refl eq_refl eq_refl)
    as (H1 & _ & _ & _ & _ & _ & H7 & _).
  exact (conj H1 H7).
Defined.

(** X12: the first wheel step after a fit.  The fitted half-height
    [size / 2] is at least 2.5, so the lower zoom limit never blocks the step;
    the step applies exactly when the scaled half-height stays below 1000, and
    otherwise the wheel does nothing. *)
Theorem wheel_after_fit :
  forall (container : Container) (box : Box3.t) (v : ViewerFit.t)
         (c : SimpleOrbitControls.t) (delta : R),
    Box3.isEmpty box = false ->
    isOrthographicCamera (camera (ViewerFit.viewer v)) = true ->
    controls (ViewerFit.viewer v) = Some c ->
    SimpleOrbitControls.autoRotate c = false ->
    SimpleOrbitControls.enableZoom c = true ->
    let v' := ViewerFit.fitCameraToModel container box v in
    let half := Rmax (maxDim box * 1.5) 5 / 2 in
    let k := if decide (delta < 0) then 0.95 else 1.05 in
    top (camera (onWheel (ViewerFit.viewer v') delta))
      = if decide (half * k < 1000) then half * k else half.
Proof.
  intros container box v c delta He Ho Hc Ha Hz v' half k.
  pose proof (Rmax_5_pos (maxDim box * 1.5)) as H5.
  subst v'. rewrite (fitCameraToModel_unfold container box v c He Ho Hc Ha).
  unfold onWheel. cbn [ViewerFit.viewer controls camera withCamera].
  unfold SimpleOrbitControls.onWheel.
  cbn [SimpleOrbitControls.enableZoom SimpleOrbitControls.withTarget]. rewrite Hz.
  cbn [negb]. cbn [isOrthographicCamera withFrustum lookAt withWorldDirection withPosition].
  rewrite Ho. unfold SimpleOrbitControls.zoomOrthographic.
  cbn [top withFrustum].
  set (size := Rmax (maxDim box * 1.5) 5) in *.
  assert (half = size * 0.5) as Hh by (subst half; lra).
  assert ((if decide (delta < 0) then 1 - 0.05 else 1 + 0.05) = k) as ->
    by (subst k; case_decide; lra).
  assert (0.95 <= k <= 1.05) as Hk by (subst k; case_decide; lra).
  rewrite <- Hh. clearbody half k size.
  rewrite (bool_decide_eq_true_2 (0.1 < half * k)) by nra.
  cbn [andb]. destruct (decide (half * k < 1000)) as [Hlt|Hge].
  - rewrite bool_decide_eq_true_2 by done. done.
  - rewrite bool_decide_eq_false_2 by done. simpl. lra.
Qed.

Lemma wheel_after_fit_witness :
  top (camera (onWheel
                 (ViewerFit.viewer
                    (ViewerFit.fitCameraToModel ResizeSpec.resizedContainer smallBox
                       freshFit)) (-1)))
  = if decide (Rmax (maxDim smallBox * 1.5) 5 / 2 * (if decide (-1 < 0) then 0.95 else 1.05)
               < 1000)
    then Rmax (maxDim smallBox * 1.5) 5 / 2 * (if decide (-1 < 0) then 0.95 else 1.05)
    else Rmax (maxDim smallBox * 1.5) 5 / 2.
Proof.
  exact (wheel_after_fit ResizeSpec.resizedContainer smallBox freshFit _ (-1)
           smallBox_not_empty eq_refl eq_refl eq_refl eq_refl).
Defined.

End CameraProps.

Section MaintenanceProps.
Import Scene ModelRenderer RendererSpec ModelRendererMaintenance OverlaySpec.

Lemma nodeRefs_removeFirst_kept w cs r :
  r <> w -> r ∈ nodeRefs cs -> r ∈ nodeRefs (removeFirst w cs).
Proof.
  intros Hne. induction cs as [|n cs IH]; [done|].
  destruct n as [r' cs'|cs']; unfold nodeRefs in *; simpl.
  - case_bool_decide; simpl; set_solver.
  - done.
Qed.

(** The loop that detaches and disposes a list of objects keeps the other
    children and the reference counter. *)
Lemma fold_dispose_kept ws : forall sc,
  let step := fun sc object =>
    mkScene (alter dispose object (heap (remove sc object)))
            (children (remove sc object)) (nextId (remove sc object)) in
  let sc' := fold_left step ws sc in
  nextId sc' = nextId sc /\
  (forall r, r ∈ childRefs sc -> r ∉ ws -> r ∈ childRefs sc').
Proof.
  induction ws as [|w ws IH]; intros sc step sc'; subst sc'; simpl; [done|].
  fold step. destruct (IH (step sc w)) as [Hn Hk]. fold step in Hn, Hk.
  split; [by rewrite Hn|].
  intros r Hr Hnot. apply not_elem_of_cons in Hnot as [Hne Hnot].
  apply Hk; [|done]. unfold step, childRefs. simpl.
  by apply nodeRefs_removeFirst_kept.
Qed.

Lemma elem_of_collectIfcMeshes h n r :
  r ∈ collectIfcMeshes h n <->
  r ∈ SelectionSpec.refsIn n /\ exists o, h !! r = Some o /\ isIfcMesh o = true.
Proof.
  induction n as [ref cs IH|cs IH] using Node_nested_ind; simpl.
  - rewrite elem_of_app, elem_of_cons, !elem_of_flat_map.
    assert ((exists c, r ∈ collectIfcMeshes h c /\ c ∈ cs) <->
            (exists c, r ∈ SelectionSpec.refsIn c /\ c ∈ cs) /\
            exists o, h !! r = Some o /\ isIfcMesh o = true) as ->.
    { rewrite Forall_forall in IH. split.
      - intros (c & Hr & Hc). apply IH in Hr as [? ?]; [|done]. eauto.
      - intros [(c & Hr & Hc) Ho]. exists c. split; [|done]. by apply IH. }
    split.
    + intros [Hself|[Hcs Ho]]; [|by eauto].
      destruct (h !! ref) as [o|] eqn:Href; [|by apply elem_of_nil in Hself].
      destruct (isIfcMesh o) eqn:Hm; [|by apply elem_of_nil in Hself].
      apply list_elem_of_singleton in Hself as ->. eauto.
    + intros [[->|Hcs] (o & Ho & Hm)]; [left|right; split; [done|eauto]].
      rewrite Ho, Hm. by apply list_elem_of_singleton.
  - rewrite !elem_of_flat_map. rewrite Forall_forall in IH. split.
    + intros (c & Hr & Hc). apply IH in Hr as [? ?]; [|done]. eauto.
    + intros [(c & Hr & Hc) Ho]. exists c. split; [|done]. by apply IH.
Qed.

Lemma childRefs_sceneRefs sc r : r ∈ childRefs sc -> r ∈ SelectionSpec.sceneRefs sc.
Proof.
  unfold childRefs, nodeRefs, SelectionSpec.sceneRefs.
  rewrite list_elem_of_omap, elem_of_flat_map.
  intros (n & Hn & Hr). exists n. split; [|done].
  destruct n as [r' cs|cs]; [|done]. injection Hr as ->. simpl. set_solver.
Qed.

Lemma dispose_idemp o : dispose (dispose o) = dispose o.
Proof. done. Qed.

(** X13: [clearIfcObjects] empties the renderer's two lists and keeps the
    overlay switch.  Every tagged mesh that is a child of the scene is detached
    and disposed, every overlay is detached, and a child that is neither (a
    helper such as the origin marker) stays in the scene untouched.  A batch
    ingested afterwards is counted from zero. *)
Theorem clearIfcObjects_removes_model :
  forall (st : t) (sc : Scene.t),
    scene st = Some sc ->
    NoDup (childRefs sc) ->
    exists st' sc',
      clearIfcObjects st = Some st' /\ scene st' = Some sc' /\
      ifcObjects st' = [] /\ wireframeObjects st' = [] /\
      showWireframe st' = showWireframe st /\
      (forall r o, r ∈ childRefs sc -> heap sc !! r = Some o -> isIfcMesh o = true ->
         (r ∉ childRefs sc') /\ heap sc' !! r = Some (dispose o)) /\
      (forall w, w ∈ wireframeObjects st -> w ∉ childRefs sc') /\
      (forall r o, r ∈ childRefs sc -> heap sc !! r = Some o -> isIfcMesh o = false ->
         r ∉ wireframeObjects st ->
         r ∈ childRefs sc' /\ heap sc' !! r = Some o) /\
      (forall ds, length (ifcObjects (addIfcGeometries st' ds))
                  = length (List.filter ingestible ds)).
Proof.
  intros st sc Hsc Hnd.
  set (gone := flat_map (collectIfcMeshes (heap sc)) (children sc)).
  set (step := fun (sc : Scene.t) (object : nat) =>
    mkScene (alter dispose object (heap (remove sc object)))
            (children (remove sc object)) (nextId (remove sc object))).
  set (sc1 := fold_left step gone sc).
  set (sc2 := fold_left step (wireframeObjects st) sc1).
  destruct (fold_dispose gone sc) as (Hh1 & Hsub1 & Hnd1). fold step sc1 in Hh1, Hsub1, Hnd1.
  destruct (Hnd1 Hnd) as [Hnd1' Hgone1].
  destruct (fold_dispose (wireframeObjects st) sc1) as (Hh2 & Hsub2 & Hnd2).
  fold step sc2 in Hh2, Hsub2, Hnd2.
  destruct (Hnd2 Hnd1') as [_ Hgone2].
  destruct (fold_dispose_kept gone sc) as [_ Hk1]. fold step sc1 in Hk1.
  destruct (fold_dispose_kept (wireframeObjects st) sc1) as [_ Hk2]. fold step sc2 in Hk2.
  assert (clearIfcObjects st =
          Some (mkRenderer (Some sc2) [] [] (showWireframe st))) as Hclear.
  { unfold clearIfcObjects, clearWireframes. rewrite Hsc. fold gone.
    change (fold_left _ gone sc) with sc1. cbn [wireframeObjects scene ifcObjects showWireframe].
    destruct (wireframeObjects st) as [|w ws] eqn:Hws; done. }
  assert (forall r, r ∈ gone <->
            r ∈ SelectionSpec.sceneRefs sc /\
            exists o, heap sc !! r = Some o /\ isIfcMesh o = true) as Hin_gone.
  { intros r. unfold gone, SelectionSpec.sceneRefs. rewrite !elem_of_flat_map. split.
    - intros (c & Hr & Hc). apply elem_of_collectIfcMeshes in Hr as [? ?]. eauto.
    - intros [(c & Hr & Hc) Ho]. exists c. split; [|done].
      by apply elem_of_collectIfcMeshes. }
  exists (mkRenderer (Some sc2) [] [] (showWireframe st)), sc2.
  split; [done|]. split; [done|]. split; [done|]. split; [done|]. split; [done|].
  split; [|split; [|split]].
  - intros r o Hr Ho Hm.
    assert (r ∈ gone) as Hrg.
    { apply Hin_gone. split; [by apply childRefs_sceneRefs|eauto]. }
    split.
    + intros Hr2. apply Hsub2 in Hr2. by apply (Hgone1 r Hrg).
    + rewrite Hh2, Hh1. rewrite (decide_True (P := r ∈ gone)) by done.
      rewrite Ho. simpl. by case_decide.
  - intros w Hw. by apply Hgone2.
  - intros r o Hr Ho Hm Hw.
    assert (r ∉ gone) as Hrg.
    { intros (_ & o' & Ho' & Hm')%Hin_gone. congruence. }
    split.
    + apply Hk2; [|done]. by apply Hk1.
    + rewrite Hh2, Hh1. rewrite (decide_False (P := r ∈ gone)) by done.
      by rewrite decide_False.
  - intros ds. rewrite addIfcGeometries_count by (simpl; eauto). done.
Qed.

Lemma clearIfcObjects_removes_model_witness :
  exists st' sc',
    clearIfcObjects (addIfcGeometry emptyRenderer redTriangle).1 = Some st' /\
    scene st' = Some sc' /\ ifcObjects st' = [] /\ wireframeObjects st' = [].
Proof.
  destruct (clearIfcObjects_removes_model
              (addIfcGeometry emptyRenderer redTriangle).1
              (default Scene.empty (scene (addIfcGeometry emptyRenderer redTriangle).1))
              eq_refl oneMesh_NoDup)
    as (st' & sc' & H1 & H2 & H3 & H4 & _).
  exists st', sc'. exact (conj H1 (conj H2 (conj H3 H4))).
Defined.

(** *** Overlays under ingestion and the page's toggle *)

Lemma overlayOf_insert sc sc' w m o :
  heapFresh sc -> heap sc' = <[nextId sc := o]> (heap sc) ->
  overlayOf sc w m -> overlayOf sc' w m.
Proof.
  intros Hf Hh (o' & Ho' & Hrest). exists o'. split; [|done].
  rewrite Hh, lookup_insert_ne; [done|].
  assert (w < nextId sc) by (apply Hf; eauto). lia.
Qed.

Lemma heapFresh_insert sc sc' o :
  heapFresh sc -> heap sc' = <[nextId sc := o]> (heap sc) -> nextId sc' = S (nextId sc) ->
  heapFresh sc'.
Proof.
  intros Hf Hh Hn r. rewrite Hh, Hn.
  destruct (decide (nextId sc = r)) as [<-|Hne]; [lia|].
  rewrite lookup_insert_ne by done. intros Hr%Hf. lia.
Qed.

Lemma allValid_insert sc sc' o ms :
  heap sc' = <[nextId sc := o]> (heap sc) -> allValid sc ms -> allValid sc' ms.
Proof.
  intros Hh Hv. eapply Forall_impl; [exact Hv|]. intros r Hr. simpl in Hr. rewrite Hh.
  destruct (decide (nextId sc = r)) as [<-|Hne].
  - by rewrite lookup_insert_eq.
  - by rewrite lookup_insert_ne.
Qed.

Lemma fold_createWireframe_fresh ms : forall st sc,
  scene st = Some sc -> heapFresh sc -> allValid sc ms ->
  exists sc', scene (fold_left createWireframe ms st) = Some sc' /\ heapFresh sc'.
Proof.
  induction ms as [|mesh ms IH]; intros st sc Hsc Hf Hvalid; simpl; [eauto|].
  apply Forall_cons in Hvalid as [[m Hm] Hvalid].
  destruct (createWireframe_valid st sc mesh m Hsc Hm)
    as (sc1 & o & Hsc1 & _ & Hn1 & _ & Hh1 & _).
  apply (IH _ sc1 Hsc1).
  - by eapply heapFresh_insert.
  - by eapply allValid_insert.
Qed.

Lemma addIfcGeometry_inStep st d :
  overlaysInStep st -> overlaysInStep (addIfcGeometry st d).1.
Proof.
  intros (sc & Hsc & Hf & Hvalid & Hov).
  destruct (resolveMaterial d) as [m|] eqn:Hm.
  2: { rewrite addIfcGeometry_unresolved by done. by exists sc. }
  unfold addIfcGeometry, resolveMaterial in *. rewrite Hsc.
  cbv zeta in Hm |- *. rewrite Hm.
  cbn [alloc add Scene.heap Scene.children Scene.nextId fst snd].
  fold (meshOf d m).
  set (sc1 := mkScene (<[nextId sc:=meshOf d m]> (heap sc))
                      (children sc ++ [Drawable (nextId sc) []]) (S (nextId sc))).
  set (st1 := mkRenderer _ _ _ _).
  assert (scene st1 = Some sc1) as Hst1 by done.
  assert (heapFresh sc1) as Hf1 by (by eapply heapFresh_insert).
  assert (allValid sc1 (ifcObjects st ++ [nextId sc])) as Hvalid1.
  { apply Forall_app. split; [by eapply allValid_insert|].
    apply List.Forall_cons; [|done]. simpl. by rewrite lookup_insert_eq. }
  assert (showWireframe st1 = showWireframe st) as Hsw by done.
  rewrite Hsw. destruct (showWireframe st) eqn:Hshow; cbn [fst].
  - assert (heap sc1 !! nextId sc = Some (meshOf d m)) as Hmesh
      by (simpl; by rewrite lookup_insert_eq).
    destruct (createWireframe_valid st1 sc1 (nextId sc) _ Hst1 Hmesh)
      as (sc2 & o & Hsc2 & Hw & Hn2 & _ & Hh2 & Hp & Hl & _).
    destruct (createWireframe_ifcObjects st1 (nextId sc)) as [Hifc Hsw2].
    exists sc2. split; [done|]. split; [by eapply heapFresh_insert|].
    rewrite Hifc, Hsw2, Hw. cbn [ifcObjects showWireframe st1 wireframeObjects].
    rewrite ?Hshow.
    split; [by eapply allValid_insert|].
    apply Forall2_app.
    + eapply Forall2_impl; [exact Hov|]. intros w m' Hwm.
      eapply overlayOf_insert; [exact Hf1|exact Hh2|].
      by apply (overlayOf_insert sc sc1 w m' (meshOf d m) Hf eq_refl).
    + constructor; [|constructor]. exists o. split; [|done].
      rewrite Hh2. by rewrite lookup_insert_eq.
  - exists sc1. cbn [scene ifcObjects showWireframe wireframeObjects st1].
    rewrite ?Hshow. done.
Qed.

Lemma addIfcGeometries_inStep ds : forall st,
  overlaysInStep st -> overlaysInStep (addIfcGeometries st ds).
Proof.
  induction ds as [|d ds IH]; intros st Hst.
  - destruct Hst as (sc & Hsc & Hrest). rewrite addIfcGeometries_unfold by eauto.
    by exists sc.
  - assert (is_Some (scene st)) by (destruct Hst as (sc & Hsc & _); eauto).
    rewrite addIfcGeometries_cons by done. by apply IH, addIfcGeometry_inStep.
Qed.

Lemma toggleWireframe_inStep st :
  overlaysInStep st ->
  exists st', WebIFCViewerApp.toggleWireframe st = Some st' /\
    overlaysInStep st' /\
    showWireframe st' = negb (showWireframe st) /\
    ifcObjects st' = ifcObjects st.
Proof.
  intros (sc & Hsc & Hf & Hvalid & Hov).
  unfold WebIFCViewerApp.toggleWireframe, toggleWireframe.
  destruct (showWireframe st) eqn:Hshow; cbn [negb].
  - (* switching off *)
    set (step := fun (sc : Scene.t) (object : nat) =>
      mkScene (alter dispose object (heap (remove sc object)))
              (children (remove sc object)) (nextId (remove sc object))).
    destruct (fold_dispose (wireframeObjects st) sc) as (Hh & _ & _).
    destruct (fold_dispose_kept (wireframeObjects st) sc) as [Hn _].
    fold step in Hh, Hn.
    assert (forall r, is_Some (heap (fold_left step (wireframeObjects st) sc) !! r)
                      <-> is_Some (heap sc !! r)) as Hsome.
    { intros r. rewrite Hh. case_decide; [|done]. by rewrite fmap_is_Some. }
    exists (mkRenderer (Some (fold_left step (wireframeObjects st) sc))
                       (ifcObjects st) [] false).
    split.
    { unfold clearWireframes. cbn [wireframeObjects scene ifcObjects showWireframe].
      rewrite Hsc. destruct (wireframeObjects st); done. }
    split; [|done].
    eexists. split; [done|]. split; [|split; [|done]].
    + intros r Hr. rewrite Hn. apply Hf. by apply Hsome.
    + eapply Forall_impl; [exact Hvalid|]. intros r Hr. by apply Hsome.
  - (* switching on *)
    subst. set (st1 := mkRenderer (scene st) (ifcObjects st) (wireframeObjects st) true).
    assert (scene st1 = Some sc) as Hsc1 by done.
    destruct (fold_createWireframe (ifcObjects st) st1 sc Hsc1 Hvalid)
      as (sc' & Hsc' & Hw & Hifc & Hsw & _ & _ & Hsome & Hnew).
    destruct (fold_createWireframe_fresh (ifcObjects st) st1 sc Hsc1 Hf Hvalid)
      as (sc'' & Hsc'' & Hf').
    rewrite Hsc' in Hsc''. injection Hsc'' as <-.
    eexists. split; [done|].
    assert (ifcObjects st1 = ifcObjects st) as -> by done.
    split; [|by rewrite Hsw, Hifc].
    exists sc'. split; [done|]. split; [done|]. rewrite Hifc, Hsw, Hw.
    cbn [ifcObjects showWireframe wireframeObjects st1]. rewrite Hov.
    split.
    + eapply Forall_impl; [exact Hvalid|]. intros r. apply Hsome.
    + cbn [app]. apply Forall2_same_length_lookup_2; [by rewrite length_seq|].
      intros i w mesh [-> _]%lookup_seq Hmesh.
      destruct (Hnew i mesh Hmesh) as (o & Ho & Hp & Hl). by exists o.
Qed.

(** X14: through the buttons of the page the overlays stay in step with the
    meshes.  From a renderer whose overlays are in step (none while switched
    off, one per mesh in order while switched on, as on a fresh renderer), every
    ingestion and every press of the page's overlay button leaves them in step,
    and the button flips the switch; so the number of overlays is the number of
    meshes or zero. *)
Theorem overlays_stay_in_step :
  forall (st : t),
    overlaysInStep st ->
    (forall d, overlaysInStep (addIfcGeometry st d).1) /\
    (forall ds, overlaysInStep (addIfcGeometries st ds)) /\
    (exists st', WebIFCViewerApp.toggleWireframe st = Some st' /\
                 overlaysInStep st' /\
                 showWireframe st' = negb (showWireframe st) /\
                 ifcObjects st' = ifcObjects st) /\
    length (wireframeObjects st)
      = if showWireframe st then length (ifcObjects st) else 0.
Proof.
  intros st Hst. split; [|split; [|split]].
  - intros d. by apply addIfcGeometry_inStep.
  - intros ds. by apply addIfcGeometries_inStep.
  - by apply toggleWireframe_inStep.
  - destruct Hst as (sc & _ & _ & _ & Hov).
    destruct (showWireframe st); [by eapply Forall2_length|by rewrite Hov].
Qed.

Lemma emptyRenderer_inStep : overlaysInStep emptyRenderer.
Proof.
  exists Scene.empty. split; [done|]. split; [|split; [|done]].
  - intros r [o Ho]. simpl in Ho. by rewrite lookup_empty in Ho.
  - apply List.Forall_nil.
Qed.

Lemma overlays_stay_in_step_witness :
  overlaysInStep (addIfcGeometries emptyRenderer [redTriangle; untyped; plainWindow]) /\
  length (wireframeObjects emptyRenderer)
    = if showWireframe emptyRenderer then length (ifcObjects emptyRenderer) else 0.
Proof.
  destruct (overlays_stay_in_step emptyRenderer emptyRenderer_inStep)
    as (_ & Hds & _ & Hlen).
  exact (conj (Hds [redTriangle; untyped; plainWindow]) Hlen).
Defined.

(** *** Overlay style *)

Lemma withLinewidth_idemp width o :
  withLinewidth (withLinewidth o width) width = withLinewidth o width.
Proof.
  unfold withLinewidth, withMaterial, withUserData. cbn.
  destruct (isHighlighted (userData o)); [done|].
  by destruct (originalMaterial (userData o)).
Qed.

Lemma setWireframeWidth_lookup st sc width r :
  scene st = Some sc ->
  exists sc1, scene (setWireframeWidth st width) = Some sc1 /\
    nextId sc1 = nextId sc /\ children sc1 = children sc /\
    heap sc1 !! r = if decide (r ∈ wireframeObjects st)
                    then (fun o => withLinewidth o width) <$> heap sc !! r
                    else heap sc !! r.
Proof.
  intros Hsc. unfold setWireframeWidth. rewrite Hsc. eexists. split; [done|].
  split; [done|]. split; [done|]. cbn [heap].
  apply (fold_alter_lookup (fun o => withLinewidth o width)). intros o.
  apply withLinewidth_idemp.
Qed.

Lemma setWireframeWidth_inStep st width :
  overlaysInStep st -> overlaysInStep (setWireframeWidth st width).
Proof.
  intros (sc & Hsc & Hf & Hvalid & Hov).
  assert (forall r, exists sc1, scene (setWireframeWidth st width) = Some sc1 /\
            nextId sc1 = nextId sc /\
            heap sc1 !! r = if decide (r ∈ wireframeObjects st)
                            then (fun o => withLinewidth o width) <$> heap sc !! r
                            else heap sc !! r) as Hall.
  { intros r. destruct (setWireframeWidth_lookup st sc width r Hsc)
      as (sc1 & H1 & H2 & _ & H4). eauto. }
  destruct (Hall 0) as (sc1 & Hsc1 & Hn1 & _).
  assert (forall r, heap sc1 !! r = if decide (r ∈ wireframeObjects st)
                            then (fun o => withLinewidth o width) <$> heap sc !! r
                            else heap sc !! r) as Hh.
  { intros r. destruct (Hall r) as (sc1' & Hsc1' & _ & Hr). congruence. }
  assert (forall r, is_Some (heap sc1 !! r) <-> is_Some (heap sc !! r)) as Hsome.
  { intros r. rewrite Hh. case_decide; [|done]. by rewrite fmap_is_Some. }
  assert (ifcObjects (setWireframeWidth st width) = ifcObjects st /\
          wireframeObjects (setWireframeWidth st width) = wireframeObjects st /\
          showWireframe (setWireframeWidth st width) = showWireframe st) as (Hi & Hw & Hs).
  { unfold setWireframeWidth. by rewrite Hsc. }
  exists sc1. split; [done|]. rewrite Hi, Hw, Hs. split; [|split].
  - intros r Hr. rewrite Hn1. apply Hf. by apply Hsome.
  - eapply Forall_impl; [exact Hvalid|]. intros r Hr. by apply Hsome.
  - destruct (showWireframe st); [|done].
    eapply Forall2_impl; [exact Hov|]. intros w m (o & Ho & Hp & Hl).
    unfold overlayOf. rewrite Hh, Ho.
    case_decide; eexists; (split; [reflexivity|done]).
Qed.

Lemma createWireframe_style st sc mesh m :
  scene st = Some sc -> heap sc !! mesh = Some m ->
  exists sc' o,
    scene (createWireframe st mesh) = Some sc' /\
    nextId sc' = S (nextId sc) /\
    heap sc' = <[nextId sc := o]> (heap sc) /\
    linewidth (material o) = 1%float /\ color (material o) = ColorHex 0%N.
Proof.
  intros Hsc Hm. unfold createWireframe. rewrite Hsc, Hm. simpl.
  eexists _, _. repeat split; done.
Qed.

(** Overlays are built in the default style. *)
Lemma fold_createWireframe_style ms : forall st sc,
  scene st = Some sc -> allValid sc ms ->
  exists sc',
    scene (fold_left createWireframe ms st) = Some sc' /\
    forall i, i < length ms ->
      exists o, heap sc' !! (nextId sc + i) = Some o /\
                linewidth (material o) = 1%float /\ color (material o) = ColorHex 0%N.
Proof.
  induction ms as [|mesh ms IH]; intros st sc Hsc Hvalid.
  - exists sc. split; [done|]. simpl. intros i Hi. lia.
  - apply Forall_cons in Hvalid as [[m Hm] Hvalid].
    destruct (createWireframe_style st sc mesh m Hsc Hm)
      as (sc1 & o & Hsc1 & Hn1 & Hh1 & Hlw & Hcol).
    assert (allValid sc1 ms) as Hvalid1 by (by eapply allValid_insert).
    destruct (IH (createWireframe st mesh) sc1 Hsc1 Hvalid1) as (sc' & Hsc' & Hnew).
    destruct (fold_createWireframe ms (createWireframe st mesh) sc1 Hsc1 Hvalid1)
      as (sc'' & Hsc'' & _ & _ & _ & _ & Hkeep & _).
    rewrite Hsc' in Hsc''. injection Hsc'' as <-.
    exists sc'. split; [done|]. intros [|i] Hi.
    + exists o. split; [|done]. rewrite Nat.add_0_r, Hkeep by lia.
      rewrite Hh1. by rewrite lookup_insert_eq.
    + destruct (Hnew i) as (o' & Ho' & Hrest); [simpl in Hi; lia|].
      exists o'. split; [|done]. rewrite <- Ho'. f_equal. lia.
Qed.

(** The material after the write, and what the write does to the snapshot. *)
Lemma withLinewidth_spec o width :
  let o' := withLinewidth o width in
  linewidth (material o') = width /\
  kind (material o') = kind (material o) /\
  color (material o') = color (material o) /\
  transparent (material o') = transparent (material o) /\
  opacity (material o') = opacity (material o) /\
  isHighlighted (userData o') = isHighlighted (userData o) /\
  originalMaterial (userData o') =
    (if isHighlighted (userData o) then originalMaterial (userData o)
     else (fun _ => material o') <$> originalMaterial (userData o)) /\
  (SelectionSpec.snapshotConsistent o -> SelectionSpec.snapshotConsistent o') /\
  (isHighlighted (userData o) = true ->
   forall m, originalMaterial (userData o) = Some m ->
             material (EventManager.clearObject o') = m).
Proof.
  intros o'. subst o'. unfold withLinewidth.
  cbn [material withMaterial withUserData userData linewidth kind color transparent opacity
       isHighlighted originalMaterial].
  split; [done|]. split; [done|]. split; [done|]. split; [done|]. split; [done|].
  split; [done|]. split; [done|]. split.
  - unfold SelectionSpec.snapshotConsistent. cbn. intros _ Hh m. rewrite Hh.
    destruct (originalMaterial (userData o)); by intros [= <-].
  - intros Hh m Hm. unfold EventManager.clearObject. cbn. rewrite Hh, Hm. done.
Qed.

(** X15: [setWireframeWidth] writes the new line width into the material of
    every overlay, in place, and touches no other object.  An overlay that is
    not highlighted shares its material with the snapshot an earlier highlight
    left, so the snapshot gets the width too; the snapshot of a highlighted
    overlay is left alone, so clearing the highlight brings the old material
    back.  The width is not kept either: once the overlays are switched off and
    on again from the page, every overlay is a new object with line width 1 and
    the black default colour. *)
Theorem setWireframeWidth_not_kept :
  forall (st : t) (sc : Scene.t) (width : float),
    scene st = Some sc ->
    overlaysInStep st ->
    showWireframe st = true ->
    (exists sc1,
        scene (setWireframeWidth st width) = Some sc1 /\
        (forall w o, w ∈ wireframeObjects st -> heap sc !! w = Some o ->
           exists o',
             heap sc1 !! w = Some o' /\
             linewidth (material o') = width /\
             kind (material o') = kind (material o) /\
             color (material o') = color (material o) /\
             transparent (material o') = transparent (material o) /\
             opacity (material o') = opacity (material o) /\
             isHighlighted (userData o') = isHighlighted (userData o) /\
             originalMaterial (userData o') =
               (if isHighlighted (userData o) then originalMaterial (userData o)
                else (fun _ => material o') <$> originalMaterial (userData o)) /\
             (isHighlighted (userData o) = true ->
              forall m, originalMaterial (userData o) = Some m ->
                        material (EventManager.clearObject o') = m)) /\
        (forall r, r ∉ wireframeObjects st -> heap sc1 !! r = heap sc !! r)) /\
    exists st2 st3 sc3,
      WebIFCViewerApp.toggleWireframe (setWireframeWidth st width) = Some st2 /\
      WebIFCViewerApp.toggleWireframe st2 = Some st3 /\
      scene st3 = Some sc3 /\
      length (wireframeObjects st3) = length (ifcObjects st) /\
      forall w, w ∈ wireframeObjects st3 ->
        exists o, heap sc3 !! w = Some o /\
                  linewidth (material o) = 1%float /\ color (material o) = ColorHex 0%N.
Proof.
  intros st sc width Hsc Hst Hshow. split.
  - destruct (setWireframeWidth_lookup st sc width 0 Hsc) as (sc1 & Hsc1 & _).
    exists sc1. split; [done|]. split.
    + intros w o Hw Ho.
      destruct (setWireframeWidth_lookup st sc width w Hsc) as (sc1' & Hsc1' & _ & _ & Hh).
      assert (sc1' = sc1) as -> by congruence.
      exists (withLinewidth o width). split; [by rewrite Hh, decide_True, Ho|].
      destruct (withLinewidth_spec o width) as (H1 & H2 & H3 & H4 & H5 & H6 & H7 & _ & H9).
      done.
    + intros r Hr.
      destruct (setWireframeWidth_lookup st sc width r Hsc) as (sc1' & Hsc1' & _ & _ & Hh).
      assert (sc1' = sc1) as -> by congruence.
      by rewrite Hh, decide_False.
  - pose proof (setWireframeWidth_inStep st width Hst) as Hst1.
    assert (showWireframe (setWireframeWidth st width) = true /\
            ifcObjects (setWireframeWidth st width) = ifcObjects st) as [Hs1 Hi1].
    { unfold setWireframeWidth. by rewrite Hsc. }
    destruct (toggleWireframe_inStep _ Hst1) as (st2 & Ht2 & Hst2 & Hs2 & Hi2).
    rewrite Hs1 in Hs2. simpl in Hs2.
    destruct Hst2 as (sc2 & Hsc2 & Hf2 & Hvalid2 & Hov2). rewrite Hs2 in Hov2.
    set (st2' := mkRenderer (scene st2) (ifcObjects st2) (wireframeObjects st2) true).
    assert (scene st2' = Some sc2) as Hsc2' by done.
    destruct (fold_createWireframe (ifcObjects st2) st2' sc2 Hsc2' Hvalid2)
      as (sc3 & Hsc3 & Hw3 & _).
    destruct (fold_createWireframe_style (ifcObjects st2) st2' sc2 Hsc2' Hvalid2)
      as (sc3' & Hsc3' & Hstyle).
    rewrite Hsc3 in Hsc3'. injection Hsc3' as <-.
    exists st2, (fold_left createWireframe (ifcObjects st2) st2'), sc3.
    split; [done|]. split.
    { unfold WebIFCViewerApp.toggleWireframe, toggleWireframe. by rewrite Hs2. }
    split; [done|]. rewrite Hw3. cbn [wireframeObjects st2']. rewrite Hov2. cbn [app].
    split; [by rewrite length_seq, Hi2, Hi1|].
    intros w Hw. apply list_elem_of_lookup in Hw as [i Hi].
    apply lookup_seq in Hi as [-> Hi]. by apply Hstyle.
Qed.

Lemma oneOverlay_inStep :
  overlaysInStep
    (addIfcGeometry (mkRenderer (Some Scene.empty) [] [] true) redTriangle).1.
Proof.
  apply addIfcGeometry_inStep. exists Scene.empty.
  split; [done|]. split; [|split; [apply List.Forall_nil|constructor]].
  intros r [o Ho]. simpl in Ho. by rewrite lookup_empty in Ho.
Qed.

Lemma setWireframeWidth_not_kept_witness :
  let st := (addIfcGeometry (mkRenderer (Some Scene.empty) [] [] true) redTriangle).1 in
  (exists sc1 o',
     scene (setWireframeWidth st 3%float) = Some sc1 /\
     heap sc1 !! 1 = Some o' /\ linewidth (material o') = 3%float) /\
  exists st2 st3 sc3,
    WebIFCViewerApp.toggleWireframe (setWireframeWidth st 3%float) = Some st2 /\
    WebIFCViewerApp.toggleWireframe st2 = Some st3 /\
    scene st3 = Some sc3 /\
    length (wireframeObjects st3) = length (ifcObjects st) /\
    forall w, w ∈ wireframeObjects st3 ->
      exists o, heap sc3 !! w = Some o /\
                linewidth (material o) = 1%float /\ color (material o) = ColorHex 0%N.
Proof.
  intros st.
  destruct (setWireframeWidth_not_kept st (default Scene.empty (scene st)) 3%float
              eq_refl oneOverlay_inStep eq_refl) as [(sc1 & Hsc1 & Hover & _) Hagain].
  split; [|exact Hagain].
  assert (1 ∈ wireframeObjects st) as Hw by (vm_compute; apply list_elem_of_here).
  assert (exists o, heap (default Scene.empty (scene st)) !! 1 = Some o) as [o Ho]
    by (eexists; vm_compute; reflexivity).
  destruct (Hover 1 o Hw Ho) as (o' & Ho' & Hwidth & _).
  by exists sc1, o'.
Defined.

End MaintenanceProps.

Section GestureProps.
Import Scene EventManager SelectionSpec EventManagerInput GestureSpec.

Lemma isHighlighted_clearObject o : isHighlighted (userData (clearObject o)) = false.
Proof.
  unfold clearObject. destruct (isHighlighted (userData o)) eqn:Hh; [|done].
  by destruct (originalMaterial (userData o)).
Qed.

Lemma highlightSingleObject_tagged b o :
  isHighlighted (userData (highlightSingleObject b o)) = true /\
  globalId (userData (highlightSingleObject b o)) = globalId (userData o).
Proof.
  unfold highlightSingleObject.
  destruct b, (originalMaterial (userData o)); done.
Qed.

Lemma selected_globalId b g o :
  globalId (userData (selected b g o)) = globalId (userData o).
Proof.
  unfold selected. case_decide.
  - destruct (highlightSingleObject_tagged b (clearObject o)) as [_ ->].
    apply clearObject_globalId.
  - apply clearObject_globalId.
Qed.

Lemma selected_isHighlighted b g o :
  isHighlighted (userData (selected b g o)) = bool_decide (globalId (userData o) = Some g).
Proof.
  unfold selected. case_decide.
  - rewrite bool_decide_eq_true_2 by done.
    by destruct (highlightSingleObject_tagged b (clearObject o)) as [-> _].
  - rewrite bool_decide_eq_false_2 by done. apply isHighlighted_clearObject.
Qed.

(** The scene after [clearHighlight], all at once. *)
Lemma clearHighlight_spec sc :
  exists sc', clearHighlight (Some sc) = Some sc' /\
    children sc' = children sc /\ nextId sc' = nextId sc /\
    forall r, heap sc' !! r = if decide (r ∈ sceneRefs sc) then clearObject <$> heap sc !! r
                              else heap sc !! r.
Proof.
  eexists. split; [reflexivity|]. split; [done|]. split; [done|]. intros r.
  destruct (clearHighlight_lookup sc r) as (sc' & Hsc' & _ & Hh).
  injection Hsc' as <-. exact Hh.
Qed.

(** The scene after [highlightObject], all at once. *)
Lemma highlightObject_spec b sc g :
  exists sc1, highlightObject b (Some sc) g = Some sc1 /\
    children sc1 = children sc /\ nextId sc1 = nextId sc /\
    forall r, heap sc1 !! r =
      (fun o =>
         if decide (r ∈ sceneRefs sc) then
           if decide (globalId (userData o) = Some g)
           then highlightSingleObject b (clearObject o)
           else clearObject o
         else o) <$> heap sc !! r.
Proof.
  destruct (highlightObject_lookup b sc g 0) as (sc1 & Hsc1 & Hch & _).
  exists sc1. split; [done|]. split; [done|]. split.
  - unfold highlightObject in Hsc1. simpl in Hsc1. by injection Hsc1 as <-.
  - intros r. destruct (highlightObject_lookup b sc g r) as (sc1' & Hsc1' & _ & Hh).
    rewrite Hsc1 in Hsc1'. by injection Hsc1' as <-.
Qed.

Lemma scene_eq (sc sc' : Scene.t) :
  children sc' = children sc -> nextId sc' = nextId sc ->
  (forall r, heap sc' !! r = heap sc !! r) -> sc' = sc.
Proof.
  destruct sc, sc'. simpl. intros -> -> Hh. f_equal. by apply map_eq.
Qed.

(** X16: one selection at a time.  After [highlightObject] the highlighted
    objects of the scene graph are exactly those that carry the selected id, and
    no object changes its id; selecting a second id therefore un-highlights the
    first selection, and gives an object of the first selection that was shown
    plainly before its plain material back. *)
Theorem highlightObject_exclusive :
  forall (isWireframeActive : bool) (sc : Scene.t) (first second : string),
    first <> second ->
    exists sc1 sc2,
      highlightObject isWireframeActive (Some sc) first = Some sc1 /\
      highlightObject isWireframeActive (Some sc1) second = Some sc2 /\
      (forall r o, r ∈ sceneRefs sc -> heap sc !! r = Some o ->
         exists o1 o2,
           heap sc1 !! r = Some o1 /\ heap sc2 !! r = Some o2 /\
           globalId (userData o1) = globalId (userData o) /\
           globalId (userData o2) = globalId (userData o) /\
           isHighlighted (userData o1)
             = bool_decide (globalId (userData o) = Some first) /\
           isHighlighted (userData o2)
             = bool_decide (globalId (userData o) = Some second) /\
           (globalId (userData o) = Some first ->
            isHighlighted (userData o) = false -> snapshotConsistent o ->
            material o2 = material o)).
Proof.
  intros b sc g1 g2 Hne.
  destruct (highlightObject_spec b sc g1) as (sc1 & Hsc1 & Hch1 & _ & Hh1).
  destruct (highlightObject_spec b sc1 g2) as (sc2 & Hsc2 & Hch2 & _ & Hh2).
  exists sc1, sc2. split; [done|]. split; [done|].
  intros r o Hr Ho.
  assert (sceneRefs sc1 = sceneRefs sc) as Hrefs by (unfold sceneRefs; by rewrite Hch1).
  specialize (Hh1 r). specialize (Hh2 r).
  rewrite Ho in Hh1. simpl in Hh1. rewrite decide_True in Hh1 by done.
  rewrite Hh1, Hrefs in Hh2. simpl in Hh2. rewrite decide_True in Hh2 by done.
  fold (selected b g1 o) in Hh1, Hh2.
  fold (selected b g2 (selected b g1 o)) in Hh2.
  exists (selected b g1 o), (selected b g2 (selected b g1 o)).
  split; [done|]. split; [done|].
  rewrite !selected_isHighlighted, !selected_globalId.
  repeat split; try done.
  intros Hg1 Hplain Hcons.
  unfold selected at 1. rewrite selected_globalId, Hg1.
  rewrite decide_False by congruence.
  unfold selected. rewrite Hg1, decide_True by done.
  destruct (object_roundtrip b o Hcons) as (_ & _ & _ & _ & _ & _ & _ & Hm).
  by apply Hm.
Qed.

Lemma highlightObject_exclusive_witness :
  exists sc1 sc2,
    highlightObject false (Some sampleScene) "E1" = Some sc1 /\
    highlightObject false (Some sc1) "E2" = Some sc2 /\
    (isHighlighted <$> (userData <$> heap sc1 !! 0)) = Some true /\
    (isHighlighted <$> (userData <$> heap sc2 !! 0)) = Some false /\
    (isHighlighted <$> (userData <$> heap sc2 !! 1)) = Some true.
Proof.
  destruct (highlightObject_exclusive false sampleScene "E1" "E2" ltac:(discriminate))
    as (sc1 & sc2 & H1 & H2 & _).
  exists sc1, sc2. split; [exact H1|]. split; [exact H2|].
  injection H1 as <-. injection H2 as <-. vm_compute. done.
Defined.

(** X17: highlighting an id that no object of the scene graph carries only
    clears the current highlight; on a scene with nothing highlighted it
    changes nothing at all. *)
Theorem highlightObject_unknown_id :
  forall (isWireframeActive : bool) (sc : Scene.t) (g : string),
    untagged sc g ->
    highlightObject isWireframeActive (Some sc) g = clearHighlight (Some sc) /\
    (noneHighlighted sc ->
     highlightObject isWireframeActive (Some sc) g = Some sc /\
     clearHighlight (Some sc) = Some sc).
Proof.
  intros b sc g Hun.
  destruct (highlightObject_spec b sc g) as (sc1 & Hsc1 & Hch1 & Hn1 & Hh1).
  destruct (clearHighlight_spec sc) as (sc0 & Hsc0 & Hch0 & Hn0 & Hh0).
  assert (sc1 = sc0) as Heq.
  { apply scene_eq; [congruence|congruence|]. intros r. rewrite Hh1, Hh0.
    destruct (heap sc !! r) as [o|] eqn:Ho; [|by case_decide]. simpl.
    case_decide as Hr; [|done]. by rewrite decide_False by (by eapply Hun). }
  split; [congruence|]. intros Hnone.
  assert (sc0 = sc) as Heq0.
  { apply scene_eq; [done|done|]. intros r. rewrite Hh0.
    case_decide as Hr; [|done].
    destruct (heap sc !! r) as [o|] eqn:Ho; [|done]. simpl.
    unfold clearObject. by rewrite (Hnone r o Hr Ho). }
  split; congruence.
Qed.

Lemma sampleScene_untagged : untagged sampleScene "E9".
Proof.
  intros r o Hr Ho. unfold sceneRefs, sampleScene in Hr. simpl in Hr.
  apply elem_of_cons in Hr as [->|Hr]; [|apply elem_of_cons in Hr as [->|Hr];
    [|apply list_elem_of_singleton in Hr as ->]].
  all: vm_compute in Ho; injection Ho as <-; discriminate.
Qed.

Lemma sampleScene_noneHighlighted : noneHighlighted sampleScene.
Proof.
  intros r o Hr Ho. unfold sceneRefs, sampleScene in Hr. simpl in Hr.
  apply elem_of_cons in Hr as [->|Hr]; [|apply elem_of_cons in Hr as [->|Hr];
    [|apply list_elem_of_singleton in Hr as ->]].
  all: vm_compute in Ho; injection Ho as <-; reflexivity.
Qed.

Lemma highlightObject_unknown_id_witness :
  highlightObject true (Some sampleScene) "E9" = Some sampleScene /\
  clearHighlight (Some sampleScene) = Some sampleScene.
Proof.
  exact (proj2 (highlightObject_unknown_id true sampleScene "E9" sampleScene_untagged)
           sampleScene_noneHighlighted).
Defined.

Lemma highlight_clear_highlight b o :
  isHighlighted (userData o) = false -> snapshotConsistent o ->
  highlightSingleObject b (clearObject (highlightSingleObject b o))
  = highlightSingleObject b o.
Proof.
  intros Hh Hc. unfold snapshotConsistent in Hc. specialize (Hc Hh).
  unfold highlightSingleObject, clearObject.
  destruct (originalMaterial (userData o)) as [m0|] eqn:Ho; destruct b;
    cbn [userData withUserData withMaterial isHighlighted originalMaterial material
         globalId ifcType parentMesh isMesh geometry scale geometryDisposed
         materialDisposed]; rewrite ?Ho;
    cbn [userData withUserData withMaterial isHighlighted originalMaterial material
         globalId ifcType parentMesh isMesh geometry scale geometryDisposed
         materialDisposed].
  all: try rewrite (Hc m0 eq_refl); reflexivity.
Qed.

Lemma selected_idemp b g o :
  snapshotConsistent o -> selected b g (selected b g o) = selected b g o.
Proof.
  intros Hc. unfold selected at 1. rewrite selected_globalId. unfold selected.
  case_decide as Hg.
  - apply highlight_clear_highlight.
    + apply isHighlighted_clearObject.
    + by apply clearObject_consistent.
  - apply clearObject_idemp.
Qed.

(** X18: selecting is idempotent.  [clearHighlight] twice is [clearHighlight]
    once, and, when every object of the scene graph that is not highlighted
    holds no stale snapshot, highlighting the id that is already highlighted
    leaves the scene exactly as it is. *)
Theorem highlightObject_idempotent :
  forall (isWireframeActive : bool) (sc : Scene.t) (g : string),
    (forall r o, r ∈ sceneRefs sc -> heap sc !! r = Some o -> snapshotConsistent o) ->
    clearHighlight (clearHighlight (Some sc)) = clearHighlight (Some sc) /\
    highlightObject isWireframeActive (highlightObject isWireframeActive (Some sc) g) g
      = highlightObject isWireframeActive (Some sc) g.
Proof.
  intros b sc g Hcons. split.
  - destruct (clearHighlight_spec sc) as (sc0 & Hsc0 & Hch0 & Hn0 & Hh0).
    destruct (clearHighlight_spec sc0) as (sc1 & Hsc1 & Hch1 & Hn1 & Hh1).
    rewrite Hsc0, Hsc1. f_equal. apply scene_eq; [done|done|].
    intros r. rewrite Hh1.
    assert (sceneRefs sc0 = sceneRefs sc) as -> by (unfold sceneRefs; by rewrite Hch0).
    rewrite Hh0. case_decide; [|done].
    destruct (heap sc !! r); [|done]. simpl. by rewrite clearObject_idemp.
  - destruct (highlightObject_spec b sc g) as (sc1 & Hsc1 & Hch1 & Hn1 & Hh1).
    destruct (highlightObject_spec b sc1 g) as (sc2 & Hsc2 & Hch2 & Hn2 & Hh2).
    rewrite Hsc1, Hsc2. f_equal. apply scene_eq; [done|done|].
    intros r. rewrite Hh2.
    assert (sceneRefs sc1 = sceneRefs sc) as -> by (unfold sceneRefs; by rewrite Hch1).
    rewrite Hh1. destruct (heap sc !! r) as [o|] eqn:Ho; [|done]. simpl.
    case_decide as Hr; [|done]. f_equal.
    apply (selected_idemp b g o). by eapply Hcons.
Qed.

Lemma sampleScene_consistent :
  forall r o, r ∈ sceneRefs sampleScene -> heap sampleScene !! r = Some o ->
              snapshotConsistent o.
Proof.
  intros r o Hr Ho. unfold sceneRefs, sampleScene in Hr. simpl in Hr.
  apply elem_of_cons in Hr as [->|Hr]; [|apply elem_of_cons in Hr as [->|Hr];
    [|apply list_elem_of_singleton in Hr as ->]].
  all: vm_compute in Ho; injection Ho as <-; intros _ m; discriminate.
Qed.

Lemma highlightObject_idempotent_witness :
  highlightObject false (highlightObject false (Some sampleScene) "E1") "E1"
  = highlightObject false (Some sampleScene) "E1".
Proof.
  exact (proj2 (highlightObject_idempotent false sampleScene "E1" sampleScene_consistent)).
Defined.

Lemma head_app_l {A} (l1 l2 : list A) :
  head (l1 ++ l2) = match head l1 with Some x => Some x | None => head l2 end.
Proof. by destruct l1. Qed.

Lemma firstInChildren_head h g cs :
  Forall (fun n => EventManagerInput.findInChildren h g n
                   = head (EventManager.findInChildren h g n)) cs ->
  firstInChildren h g cs = head (flat_map (EventManager.findInChildren h g) cs).
Proof.
  induction 1 as [|c cs Hc _ IH]; [done|].
  simpl. by rewrite head_app_l, <- Hc, IH.
Qed.

Lemma findInChildren_unfold h g n :
  EventManagerInput.findInChildren h g n =
  match n with
  | Drawable ref cs =>
      match h !! ref with
      | Some o =>
          if decide (globalId (userData o) = Some g) then Some ref
          else firstInChildren h g cs
      | None => firstInChildren h g cs
      end
  | Group cs => firstInChildren h g cs
  end.
Proof.
  assert (forall cs,
            (fix firstOf (cs : list Node) : option nat :=
               match cs with
               | [] => None
               | child :: cs' =>
                   match EventManagerInput.findInChildren h g child with
                   | Some found => Some found
                   | None => firstOf cs'
                   end
               end) cs = firstInChildren h g cs) as Hfix.
  { induction cs as [|c cs IH]; [done|]. cbn [firstInChildren]. by rewrite <- IH. }
  destruct n as [ref cs|cs]; cbn [EventManagerInput.findInChildren]; by rewrite Hfix.
Qed.

Lemma findInChildren_head h g n :
  EventManagerInput.findInChildren h g n = head (EventManager.findInChildren h g n).
Proof.
  induction n as [ref cs IH|cs IH] using Node_nested_ind.
  - pose proof (firstInChildren_head h g cs IH) as Hcs.
    rewrite findInChildren_unfold. cbn [EventManager.findInChildren].
    rewrite head_app_l.
    destruct (h !! ref) as [o|]; [case_decide|]; cbn [head]; done.
  - rewrite findInChildren_unfold. exact (firstInChildren_head h g cs IH).
Qed.

(** X19: [findObjectByGlobalId] returns the first of the objects
    [findAllObjectsByGlobalId] returns, in the same traversal order, and it
    finds an object exactly when one of the scene graph carries the id. *)
Theorem findObjectByGlobalId_first :
  forall (sc : Scene.t) (g : string),
    findObjectByGlobalId sc g = head (findAllObjectsByGlobalId sc g) /\
    (is_Some (findObjectByGlobalId sc g) <->
     exists r o, r ∈ sceneRefs sc /\ heap sc !! r = Some o /\
                 globalId (userData o) = Some g) /\
    (forall r, findObjectByGlobalId sc g = Some r ->
       r ∈ sceneRefs sc /\
       exists o, heap sc !! r = Some o /\ globalId (userData o) = Some g).
Proof.
  intros sc g.
  assert (findObjectByGlobalId sc g = head (findAllObjectsByGlobalId sc g)) as Hhead.
  { unfold findObjectByGlobalId, findAllObjectsByGlobalId.
    apply firstInChildren_head. apply Forall_forall. intros n _.
    apply findInChildren_head. }
  split; [done|]. rewrite Hhead. split.
  - split.
    + intros [r Hr]. apply head_Some_elem_of in Hr.
      apply elem_of_findAllObjectsByGlobalId in Hr as (? & o & ? & ?). eauto.
    + intros (r & o & Hr & Ho & Hg).
      assert (r ∈ findAllObjectsByGlobalId sc g) as Hin
        by (apply elem_of_findAllObjectsByGlobalId; eauto).
      destruct (findAllObjectsByGlobalId sc g); [by apply elem_of_nil in Hin|].
      simpl. eauto.
  - intros r Hr. apply head_Some_elem_of in Hr.
    by apply elem_of_findAllObjectsByGlobalId in Hr.
Qed.

(** *** Click or drag *)

Lemma onMouseMove_state modelCenter em v event :
  mouseDownPosition (EventManagerInput.onMouseMove modelCenter em v event).1
    = mouseDownPosition em /\
  isDragging (EventManagerInput.onMouseMove modelCenter em v event).1
    = isDragging em || leavesClickZone (mouseDownPosition em) event /\
  EventManagerInput.scene (EventManagerInput.onMouseMove modelCenter em v event).2
    = EventManagerInput.scene v.
Proof.
  unfold EventManagerInput.onMouseMove, leavesClickZone. cbn [fst snd].
  split; [|split].
  - destruct (bool_decide (buttons event = 1%Z) && negb (isDragging em)); [|done].
    by destruct (_ || _).
  - destruct (bool_decide (buttons event = 1%Z)); destruct (isDragging em) eqn:Hd;
      cbn [andb negb orb]; rewrite ?Hd; try done.
    destruct (_ || _); cbn [isDragging]; by rewrite ?Hd.
  - destruct (EventManagerInput.controls v) as [c|]; [|done].
    by destruct (SimpleOrbitControls.onMouseMove _ _ _ _).
Qed.

Lemma moves_state modelCenter events : forall em v,
  mouseDownPosition (moves modelCenter (em, v) events).1 = mouseDownPosition em /\
  isDragging (moves modelCenter (em, v) events).1
    = isDragging em || existsb (leavesClickZone (mouseDownPosition em)) events /\
  EventManagerInput.scene (moves modelCenter (em, v) events).2 = EventManagerInput.scene v.
Proof.
  induction events as [|event events IH]; intros em v.
  - unfold moves. simpl. by rewrite orb_false_r.
  - unfold moves in *. cbn [fold_left fst snd].
    destruct (onMouseMove_state modelCenter em v event) as (Hp & Hd & Hs).
    destruct (EventManagerInput.onMouseMove modelCenter em v event) as [em1 v1].
    cbn [fst snd] in *.
    destruct (IH em1 v1) as (Hp' & Hd' & Hs').
    rewrite Hp', Hd', Hs', Hp, Hd, Hs. cbn [existsb].
    by rewrite orb_assoc.
Qed.

(** X20: click or drag.  After the primary button goes down, the release
    picks (runs [handleModelClick] on the scene, with the camera as the moves in
    between left it) exactly when it is a release of the primary button and no
    move in between, made with the primary button alone held, went more than 5
    pixels from the press position on either axis; otherwise the scene is left
    alone and nothing is selected.  The moves themselves never change the scene,
    and the drag state is reset by the release. *)
Theorem click_or_drag :
  forall (isWireframeActive : bool)
         (raycast : Three.Camera -> MouseEvent -> list Node -> list Intersection)
         (modelCenter : Three.Vector3) (em : EventManagerInput.t) (v : Viewer)
         (down : MouseEvent) (events : list MouseEvent) (up : MouseEvent),
    button down = 0%Z ->
    let pressed := EventManagerInput.onMouseDown em v down in
    let moved := moves modelCenter pressed events in
    let out := EventManagerInput.onMouseUp isWireframeActive raycast moved.1 moved.2 up in
    EventManagerInput.scene moved.2 = EventManagerInput.scene v /\
    (EventManagerInput.scene out.1.2, out.2)
      = (if bool_decide (button up = 0%Z)
            && negb (existsb (leavesClickZone (clientX down, clientY down)) events)
         then handleModelClick isWireframeActive (EventManagerInput.scene v)
                (raycast (EventManagerInput.camera moved.2) up)
         else (EventManagerInput.scene v, None)) /\
    isDragging out.1.1 = false.
Proof.
  intros b raycast modelCenter em v down events up Hdown pressed moved out.
  assert (mouseDownPosition pressed.1 = (clientX down, clientY down) /\
          isDragging pressed.1 = false /\
          EventManagerInput.scene pressed.2 = EventManagerInput.scene v) as (Hp0 & Hd0 & Hs0).
  { subst pressed. unfold EventManagerInput.onMouseDown. rewrite decide_True by done.
    cbn [fst snd]. by destruct (EventManagerInput.controls v). }
  destruct (moves_state modelCenter events pressed.1 pressed.2) as (Hp & Hd & Hs).
  rewrite <- surjective_pairing in Hp, Hd, Hs. fold moved in Hp, Hd, Hs.
  rewrite Hp0, Hd0 in Hd. rewrite Hs0 in Hs. cbn [orb] in Hd.
  split; [done|]. subst out. unfold EventManagerInput.onMouseUp.
  rewrite Hd, Hs.
  destruct (bool_decide (button up = 0%Z)
            && negb (existsb (leavesClickZone (clientX down, clientY down)) events));
    [|done].
  by destruct (handleModelClick b (EventManagerInput.scene v)
                 (raycast (EventManagerInput.camera moved.2) up)).
Qed.

Lemma click_or_drag_witness :
  let pressed :=
    EventManagerInput.onMouseDown EventManagerInput.create sampleViewer
      (mkMouseEvent 0 1 100 100) in
  let moved :=
    moves (Three.vec3 0 0 0) pressed [mkMouseEvent 0 1 110 100] in
  let out := EventManagerInput.onMouseUp false hitFirst moved.1 moved.2
               (mkMouseEvent 0 0 110 100) in
  EventManagerInput.scene moved.2 = EventManagerInput.scene sampleViewer /\
  isDragging out.1.1 = false.
Proof.
  intros pressed moved out.
  destruct (click_or_drag false hitFirst (Three.vec3 0 0 0) EventManagerInput.create
              sampleViewer (mkMouseEvent 0 1 100 100) [mkMouseEvent 0 1 110 100]
              (mkMouseEvent 0 0 110 100) eq_refl) as (H1 & _ & H3).
  exact (conj H1 H3).
Defined.

End GestureProps.

Section TeardownProps.
Import Lifecycle ListenerRegistry.

Lemma sceneManagerDispose_listeners w :
  domListeners (sceneManagerDispose w) = domListeners w /\
  eventListeners (sceneManagerDispose w) = eventListeners w /\
  renderer (sceneManagerDispose w) = false /\
  scene (sceneManagerDispose w) = false /\
  frames (sceneManagerDispose w) = frames w /\
  rendererDisposals (sceneManagerDispose w)
    = (if renderer w then S (rendererDisposals w) else rendererDisposals w).
Proof.
  unfold sceneManagerDispose, stopAnimation.
  destruct (animationId w) as [id|]; [destruct (decide (id = 0))|];
    destruct (renderer w) eqn:Hr, (scene w) eqn:Hs; simpl; rewrite ?Hr, ?Hs; done.
Qed.

(** X21: what [dispose()] does to any viewer whose frame loop is the only user
    of [requestAnimationFrame].  No frame request is left and no frame runs
    again however often the browser signals one; the renderer and the scene are
    released, the renderer being disposed once if it was there; the listeners
    taken off the page are exactly those the EventManager had registered, every
    other listener staying attached; and a second [dispose()] changes
    nothing. *)
Theorem dispose_releases :
  forall (w : t),
    loopConsistent w ->
    rafPending (dispose w) = [] /\
    (forall n, Nat.iter n frameTick (dispose w) = dispose w) /\
    renderer (dispose w) = false /\ scene (dispose w) = false /\
    rendererDisposals (dispose w)
      = (if renderer w then S (rendererDisposals w) else rendererDisposals w) /\
    eventListeners (dispose w) = [] /\
    (forall l, l ∈ domListeners (dispose w) <->
               l ∈ domListeners w /\ l ∉ eventListeners w) /\
    dispose (dispose w) = dispose w.
Proof.
  intros w Hw.
  destruct (sceneManagerDispose_listeners w) as (Hd & He & Hr & Hs & _ & Hrd).
  split; [by apply dispose_rafPending|].
  split; [intros n; by apply no_frame_after_dispose|].
  split; [|split; [|split; [|split; [|split]]]].
  6: apply dispose_idempotent.
  all: unfold dispose, removeAllEventListeners.
  all: rewrite (fold_domRemove _ (sceneManagerDispose w)); simpl; try done.
  intros l. rewrite domListeners_fold_domRemove. by rewrite Hd, He.
Qed.

Lemma dispose_releases_witness :
  rafPending (dispose (init blank)) = [] /\
  forall l, l ∈ domListeners (dispose (init blank)) <->
            l ∈ domListeners (init blank) /\ l ∉ eventListeners (init blank).
Proof.
  destruct (dispose_releases (init blank) init_loopConsistent)
    as (H1 & _ & _ & _ & _ & _ & H7 & _).
  exact (conj H1 H7).
Defined.

Lemma frameTick_running w id :
  loopConsistent w -> animationId w = Some id ->
  frames (frameTick w) = S (frames w) /\
  animationId (frameTick w) = Some (rafNext w) /\
  domListeners (frameTick w) = domListeners w /\
  eventListeners (frameTick w) = eventListeners w.
Proof.
  intros (Hp & _ & _) Ha. unfold frameTick. rewrite Hp, Ha. done.
Qed.

(** X22: while the loop runs, every frame signal runs the frame callback
    exactly once and leaves exactly one request pending: after [n] signals [n]
    more frames have run, and the listeners are as they were. *)
Theorem frame_loop_runs_once_per_signal :
  forall (w : t) (id : nat) (n : nat),
    loopConsistent w ->
    animationId w = Some id ->
    let w' := Nat.iter n frameTick w in
    frames w' = frames w + n /\
    length (rafPending w') = 1 /\
    is_Some (animationId w') /\
    loopConsistent w' /\
    domListeners w' = domListeners w.
Proof.
  intros w id n Hw Ha. revert id Ha. induction n as [|n IH]; intros id Ha w'; subst w'.
  - simpl. pose proof Hw as (Hp & _). rewrite Nat.add_0_r, Hp, Ha.
    split; [done|]. split; [done|]. split; [by eexists|]. by split.
  - destruct (IH id Ha) as (Hf & Hlen & [id' Hid'] & Hc & Hd).
    simpl. destruct (frameTick_running _ id' Hc Hid') as (Hf' & Ha' & Hd' & _).
    pose proof (frameTick_loopConsistent _ Hc) as Hc'.
    pose proof Hc' as (Hp' & _).
    rewrite Hf', Hf, Hd', Hd, Hp', Ha'.
    split; [lia|]. split; [done|]. split; [by eexists|]. by split.
Qed.

Lemma frame_loop_runs_once_per_signal_witness :
  frames (Nat.iter 5 frameTick (init blank)) = frames (init blank) + 5 /\
  length (rafPending (Nat.iter 5 frameTick (init blank))) = 1.
Proof.
  destruct (frame_loop_runs_once_per_signal (init blank) 1 5 init_loopConsistent eq_refl)
    as (H1 & H2 & _).
  exact (conj H1 H2).
Defined.

(** X23: [removeEventListener(element, event)] takes the handler registered
    for that pair off the page and out of the map and leaves every other
    listener alone; for a pair that was never registered it does nothing. *)
Theorem removeEventListener_one :
  forall (w : t) (element : EventTarget) (ev : EventType),
    let w' := removeEventListener w element ev in
    match List.find (fun l => bool_decide (target l = element /\ event l = ev))
                    (eventListeners w) with
    | None => w' = w
    | Some handler =>
        handler ∈ eventListeners w /\
        target handler = element /\ event handler = ev /\
        (handler ∉ domListeners w') /\
        (forall l, l <> handler -> (l ∈ domListeners w' <-> l ∈ domListeners w)) /\
        (forall l, l ∈ eventListeners w' <->
                   l ∈ eventListeners w /\ ~ (target l = element /\ event l = ev))
    end.
Proof.
  intros w element ev w'. subst w'. unfold removeEventListener.
  destruct (List.find _ (eventListeners w)) as [handler|] eqn:Hfind; [|done].
  apply find_some in Hfind as [Hin [Ht He]%bool_decide_eq_true].
  apply list_elem_of_In in Hin.
  split; [done|]. split; [done|]. split; [done|]. simpl.
  split; [|split].
  - rewrite list_elem_of_In, filter_In, negb_true_iff, bool_decide_eq_false. tauto.
  - intros l Hl. rewrite list_elem_of_In, filter_In, negb_true_iff, bool_decide_eq_false.
    rewrite <- list_elem_of_In. tauto.
  - intros l. rewrite list_elem_of_In, filter_In, negb_true_iff, bool_decide_eq_false.
    by rewrite <- list_elem_of_In.
Qed.

End TeardownProps.
